(** * SMASH scatter-actions finder: a shallow embedding

    This development embeds the decision procedures of
    [src/scatteractionsfinder.cc] (namespace [smash]):

    - [ScatterActionsFinder::check_collision_two_part] and
      [ScatterActionsFinder::check_collision_multi_part],
    - the decay tree ([decaytree::Node::add_action], [decaytree::add_decays]),
    - [deduplicate] and the momentum scan of
      [ScatterActionsFinder::dump_cross_sections].

    Conventions of the embedding.

    - A C++ [double] is an exact rational ([Q]): finite values only, no NaN,
      no rounding.  Comparisons are the boolean functions [dlt], [dgt], [dge].
    - [int] is [Z]; [uint32_t] counters are [N]; [std::string] is [string];
      [std::vector] is [list].
    - A call either returns, throws, fails an [assert], or runs into undefined
      behaviour of the source (an out-of-range [operator[]], erasing the end
      iterator); [Outcome] keeps the four apart.  Loops that are not
      structurally recursive take fuel and may also end in [OutOfFuel].
    - The random source, the physics of [ScatterAction] and
      [ScatterActionMulti], and the constants of [constants.h] are not part of
      the translated file; they are the fields of the class [Collaborators].
    - Debug logging does not influence any result and is left out. *)

From Stdlib Require Import String Ascii QArith ZArith NArith Bool List Lia.
From Stdlib Require Import Permutation Sorted OrderedTypeEx.
Import ListNotations.

Local Open Scope Q_scope.

(* ===================================================================== *)
(** * Part I: the embedding                                               *)
(* ===================================================================== *)

(** ** Numbers *)

Abbreviation double := Q (only parsing).

(** [a < b], [a > b], [a >= b] and [a == b] on doubles. *)
Definition dlt (a b : double) : bool :=
  match a ?= b with Lt => true | _ => false end.
Definition dgt (a b : double) : bool := dlt b a.
Definition dge (a b : double) : bool := negb (dlt a b).
Definition deq (a b : double) : bool := Qeq_bool a b.

(** ** Outcomes of a call *)

(** A fragment streamed into a [std::stringstream] with [<<]. *)
Inductive Frag : Type :=
| Text (s : string)
| Num (d : double).

Definition Message := list Frag.

Inductive Exception : Type :=
| runtime_error (what : Message)
| out_of_range (index : nat).

Inductive Outcome (A : Type) : Type :=
| Ret (a : A)
| Throw (e : Exception)
| AssertFailed
| Undefined
| OutOfFuel.

Arguments Ret {A} a.
Arguments Throw {A} e.
Arguments AssertFailed {A}.
Arguments Undefined {A}.
Arguments OutOfFuel {A}.

Definition obind {A B : Type} (o : Outcome A) (k : A -> Outcome B)
  : Outcome B :=
  match o with
  | Ret a => k a
  | Throw e => Throw e
  | AssertFailed => AssertFailed
  | Undefined => Undefined
  | OutOfFuel => OutOfFuel
  end.

Definition nl : string := String (ascii_of_nat 10) EmptyString.

(** ** Particles and the finder *)

Record FourVector : Type := mkFourVector
  { x0 : double; x1 : double; x2 : double; x3 : double }.

(** A particle type pointer is an index into the particle type registry. *)
Definition ParticleTypePtr := nat.

(** [ParticleData] is declared in [particledata.h]; the finder reads its id,
    the id of the last process it took part in (an unsigned counter, zero when
    there was none), and hands the rest to the physics. *)
Record ParticleData : Type := mkParticleData
  { id : Z;
    id_process : N;
    pdata_type : ParticleTypePtr;
    position : FourVector;
    momentum : FourVector }.

Definition ParticleList := list ParticleData.

Inductive CollisionCriterion : Type :=
| Geometric
| Stochastic
| Covariant.

Definition CollisionCriterion_eqb (c d : CollisionCriterion) : bool :=
  match c, d with
  | Geometric, Geometric | Stochastic, Stochastic | Covariant, Covariant => true
  | _, _ => false
  end.

Inductive NNbarTreatment : Type :=
| NoAnnihilation
| Resonances
| Strings.

(** The process types the finder distinguishes: [None] and everything else. *)
Inductive ProcessType : Type :=
| PNone
| PSome (code : N).

Definition is_PNone (t : ProcessType) : bool :=
  match t with PNone => true | PSome _ => false end.

(** The data members of [ScatterActionsFinder]. *)
Record ScatterActionsFinder : Type := mkFinder
  { coll_crit_ : CollisionCriterion;
    elastic_parameter_ : double;
    testparticles_ : Z;
    isotropic_ : bool;
    two_to_one_ : bool;
    incl_set_ : N;
    low_snn_cut_ : double;
    strings_switch_ : bool;
    use_AQM_ : bool;
    strings_with_probability_ : bool;
    nnbar_treatment_ : NNbarTreatment;
    nucleon_has_interacted_ : list bool;
    N_tot_ : Z;
    N_proj_ : Z;
    string_formation_time_ : double }.

Record CollisionBranch : Type := mkCollisionBranch
  { branch_weight : double;
    branch_type : ProcessType;
    branch_particle_types : list ParticleTypePtr }.

(** What the constructor of [ScatterAction] receives, and what
    [set_string_interface] and [add_all_scatterings] attach afterwards. *)
Record ScatterAction : Type := mkScatterAction
  { incoming_a : ParticleData;
    incoming_b : ParticleData;
    time_until_collision : double;
    act_isotropic : bool;
    act_string_formation_time : double;
    string_interface : bool;
    collision_channels : list CollisionBranch }.

Definition make_ScatterAction (a b : ParticleData) (t : double)
    (isotropic : bool) (string_formation_time : double) : ScatterAction :=
  mkScatterAction a b t isotropic string_formation_time false [].

Definition set_string_interface (act : ScatterAction) : ScatterAction :=
  mkScatterAction (incoming_a act) (incoming_b act) (time_until_collision act)
    (act_isotropic act) (act_string_formation_time act) true
    (collision_channels act).

Definition set_collision_channels (act : ScatterAction)
    (chs : list CollisionBranch) : ScatterAction :=
  mkScatterAction (incoming_a act) (incoming_b act) (time_until_collision act)
    (act_isotropic act) (act_string_formation_time act) (string_interface act)
    chs.

Record ScatterActionMulti : Type := mkScatterActionMulti
  { multi_incoming : ParticleList;
    multi_time_until_collision : double;
    multi_process_type : ProcessType }.

(** ** The collaborators of the finder *)

Class Collaborators : Type := mkCollaborators
  { (** the state of the pseudo-random source *)
    Rng : Type;
    (** [random::uniform(0., 1.)] *)
    uniform : Rng -> double * Rng;
    (** [constants.h] *)
    really_small : double;
    fm2_mb : double;
    M_1_PI : double;
    (** [ScatterActionsFinder::collision_time] *)
    collision_time :
      ScatterActionsFinder -> ParticleData -> ParticleData -> double ->
      list FourVector -> double;
    (** [ScatterActionsFinder::max_transverse_distance_sqr] *)
    max_transverse_distance_sqr : ScatterActionsFinder -> Z -> double;
    (** [ScatterAction::transverse_distance_sqr] and its covariant variant *)
    transverse_distance_sqr : ScatterAction -> double;
    cov_transverse_distance_sqr : ScatterAction -> double;
    (** [ScatterAction::add_all_scatterings]: the channels it collects; it may
        draw random numbers *)
    add_all_scatterings :
      ScatterActionsFinder -> ScatterAction -> Rng ->
      list CollisionBranch * Rng;
    (** [ScatterAction::cross_section] *)
    cross_section : ScatterAction -> double;
    (** [ScatterAction::relative_velocity] *)
    relative_velocity : ScatterAction -> double;
    (** [ParticleData::xsec_scaling_factor] *)
    xsec_scaling_factor : ParticleData -> double -> double;
    (** [ScatterActionMulti::add_final_state]: the process type it selects,
        [None] when no final state fits *)
    add_final_state : ParticleList -> double -> ProcessType;
    (** [ScatterActionMulti::probability_multi] *)
    probability_multi : ScatterActionMulti -> double -> double -> double }.

(** ** Calls that draw random numbers and may throw *)

Definition M `{Collaborators} (A : Type) : Type := Rng -> Outcome A * Rng.

Definition ret `{Collaborators} {A : Type} (a : A) : M A :=
  fun g => (Ret a, g).

Definition bind `{Collaborators} {A B : Type} (m : M A) (k : A -> M B)
  : M B :=
  fun g =>
    match m g with
    | (Ret a, g') => k a g'
    | (Throw e, g') => (Throw e, g')
    | (AssertFailed, g') => (AssertFailed, g')
    | (Undefined, g') => (Undefined, g')
    | (OutOfFuel, g') => (OutOfFuel, g')
    end.

Definition throw `{Collaborators} {A : Type} (e : Exception) : M A :=
  fun g => (Throw e, g).

Definition lift `{Collaborators} {A : Type} (o : Outcome A) : M A :=
  fun g => (o, g).

Definition assert `{Collaborators} (b : bool) : M unit :=
  fun g => if b then (Ret tt, g) else (AssertFailed, g).

Definition random_uniform `{Collaborators} : M double :=
  fun g => let (u, g') := uniform g in (Ret u, g').

Declare Scope finder_scope.
Delimit Scope finder_scope with finder.
Notation "x <- m ;; k" := (bind m (fun x => k))
  (at level 61, m at next level, right associativity) : finder_scope.
Notation "m ;; k" := (bind m (fun _ => k))
  (at level 61, right associativity) : finder_scope.

(** ** check_collision_two_part *)

(** [nucleon_has_interacted_[i]]: reading past the end of the vector is
    undefined behaviour. *)
Definition has_interacted (f : ScatterActionsFinder) (i : Z) : Outcome bool :=
  if (i <? 0)%Z then Undefined
  else match nth_error (nucleon_has_interacted_ f) (Z.to_nat i) with
       | Some b => Ret b
       | None => Undefined
       end.

(** The condition of the first [if]: both particles are initial nucleons of
    the same nucleus and none of them has interacted.  [&&] and [||] evaluate
    their right operand only when needed. *)
Definition spectators (f : ScatterActionsFinder) (data_a data_b : ParticleData)
  : Outcome bool :=
  if ((id data_a <? N_tot_ f)%Z && (id data_b <? N_tot_ f)%Z
      && (((id data_a <? N_proj_ f)%Z && (id data_b <? N_proj_ f)%Z)
          || ((N_proj_ f <=? id data_a)%Z && (N_proj_ f <=? id data_b)%Z)))%bool
  then
    obind (has_interacted f (id data_a)) (fun ia =>
      if ia then Ret false
      else obind (has_interacted f (id data_b)) (fun ib => Ret (negb ib)))
  else Ret false.

Definition probability_message (label : string) (prob : double) : Message :=
  [ Text ("Probability larger than 1 for stochastic rates. ( " ++ label
          ++ " = ");
    Num prob;
    Text (" )" ++ nl ++ "Use smaller timesteps.") ]%string.

(** [xs]: the total cross section in fm^2 per test particle, scaled by the
    two particles' scaling factors. *)
Definition scaled_cross_section `{Collaborators} (f : ScatterActionsFinder)
    (data_a data_b : ParticleData) (act : ScatterAction) : double :=
  let xs := cross_section act * fm2_mb / inject_Z (testparticles_ f) in
  let xs := xs * xsec_scaling_factor data_a (time_until_collision act) in
  let xs := xs * xsec_scaling_factor data_b (time_until_collision act) in
  xs.

Definition distance_squared_of `{Collaborators} (f : ScatterActionsFinder)
    (act : ScatterAction) : double :=
  match coll_crit_ f with
  | Geometric => transverse_distance_sqr act
  | Covariant => cov_transverse_distance_sqr act
  | Stochastic => 0
  end.

Local Open Scope finder_scope.

Definition check_collision_two_part `{Collaborators}
    (f : ScatterActionsFinder) (data_a data_b : ParticleData) (dt : double)
    (beam_momentum : list FourVector) (cell_vol : double)
  : M (option ScatterAction) :=
  assert (0 <=? id data_a)%Z ;;
  assert (0 <=? id data_b)%Z ;;
  banned <- lift (spectators f data_a data_b) ;;
  if banned : bool then ret None else
  (* No grid or search in cell means no collision for stochastic criterion *)
  if (CollisionCriterion_eqb (coll_crit_ f) Stochastic
      && dlt cell_vol really_small)%bool then ret None else
  (* Determine time of collision. *)
  let t := collision_time f data_a data_b dt beam_momentum in
  (* Check that collision happens in this timestep. *)
  if (dlt t 0 || dge t dt)%bool then ret None else
  (* Create ScatterAction object. *)
  let act :=
    make_ScatterAction data_a data_b t (isotropic_ f)
      (string_formation_time_ f) in
  let act := if strings_switch_ f then set_string_interface act else act in
  (* Distance squared calculation only needed for geometric criterion *)
  let distance_squared := distance_squared_of f act in
  if (negb (CollisionCriterion_eqb (coll_crit_ f) Stochastic)
      && dge distance_squared
           (max_transverse_distance_sqr f (testparticles_ f)))%bool
  then ret None else
  (* Add various subprocesses. *)
  act <- (fun g => let (chs, g') := add_all_scatterings f act g in
                   (Ret (set_collision_channels act chs), g')) ;;
  let xs := scaled_cross_section f data_a data_b act in
  match coll_crit_ f with
  | Stochastic =>
      let v_rel := relative_velocity act in
      let prob := xs * v_rel * dt / cell_vol in
      if dgt prob 1 then
        throw (runtime_error (probability_message "P" prob))
      else
        (* probability criterion *)
        random_no <- random_uniform ;;
        if dgt random_no prob then ret None else ret (Some act)
  | Geometric | Covariant =>
      (* just collided with this particle *)
      if ((0 <? id_process data_a)%N
          && (id_process data_a =? id_process data_b)%N)%bool
      then ret None else
      (* Cross section for collision criterion *)
      let cross_section_criterion := xs * M_1_PI in
      (* distance criterion according to cross_section *)
      if dge distance_squared cross_section_criterion then ret None
      else ret (Some act)
  end.

(** ** check_collision_multi_part *)

Definition testparticles_message : Message :=
  [ Text "Multi-body reactions do not scale with testparticles yet. Use 1." ].

Definition check_collision_multi_part `{Collaborators}
    (f : ScatterActionsFinder) (plist : ParticleList) (dt : double)
    (cell_vol : double)
  : M (option ScatterActionMulti) :=
  (* No grid or search in cell *)
  if dlt cell_vol really_small then ret None else
  if negb (testparticles_ f =? 1)%Z then
    throw (runtime_error testparticles_message)
  else
  (* 1. Determine time of collision. *)
  u <- random_uniform ;;
  let t := dt * u in
  (* 2. Create ScatterAction object.  3. Add final state *)
  let act := mkScatterActionMulti plist t (add_final_state plist t) in
  if is_PNone (multi_process_type act) then
    (* No fitting final state found *)
    ret None
  else
  (* 4. Calculate collision probability *)
  let p_nm := probability_multi act dt cell_vol in
  (* 5. Check that probability is smaller than one *)
  if dgt p_nm 1 then
    throw (runtime_error (probability_message "P_nm" p_nm))
  else
  (* 6. Perform probability decisions *)
  random_no <- random_uniform ;;
  if dgt random_no p_nm then ret None else ret (Some act).

Local Close Scope finder_scope.

(** ** Names for the intermediate values of the pair evaluator *)

(** The [ScatterAction] object as it is created. *)
Definition pair_action `{Collaborators} (f : ScatterActionsFinder)
    (data_a data_b : ParticleData) (dt : double)
    (beam_momentum : list FourVector) : ScatterAction :=
  let act :=
    make_ScatterAction data_a data_b
      (collision_time f data_a data_b dt beam_momentum) (isotropic_ f)
      (string_formation_time_ f) in
  if strings_switch_ f then set_string_interface act else act.

(** The same object after [add_all_scatterings], and the random source
    then. *)
Definition pair_action_with_channels `{Collaborators}
    (f : ScatterActionsFinder) (data_a data_b : ParticleData) (dt : double)
    (beam_momentum : list FourVector) (g : Rng) : ScatterAction * Rng :=
  let act := pair_action f data_a data_b dt beam_momentum in
  let (chs, g') := add_all_scatterings f act g in
  (set_collision_channels act chs, g').

(** [prob] of the stochastic criterion. *)
Definition pair_probability `{Collaborators} (f : ScatterActionsFinder)
    (data_a data_b : ParticleData) (dt cell_vol : double)
    (act : ScatterAction) : double :=
  scaled_cross_section f data_a data_b act * relative_velocity act * dt
  / cell_vol.

(** The pair is not turned away by the asserts, the spectator test, the
    cell-volume gate, the timing check or the distance pre-filter. *)
Definition passes_gates `{Collaborators} (f : ScatterActionsFinder)
    (data_a data_b : ParticleData) (dt : double)
    (beam_momentum : list FourVector) (cell_vol : double) : Prop :=
  (0 <= id data_a)%Z /\ (0 <= id data_b)%Z
  /\ spectators f data_a data_b = Ret false
  /\ (coll_crit_ f = Stochastic -> really_small <= cell_vol)
  /\ (0 <= collision_time f data_a data_b dt beam_momentum
      /\ collision_time f data_a data_b dt beam_momentum < dt)
  /\ (coll_crit_ f <> Stochastic ->
      distance_squared_of f (pair_action f data_a data_b dt beam_momentum)
      < max_transverse_distance_sqr f (testparticles_ f)).

(** The two particles carry the same, nonzero id of their last process. *)
Definition just_collided (data_a data_b : ParticleData) : Prop :=
  id_process data_a <> 0%N /\ id_process data_a = id_process data_b.

(** The group evaluator's object after [add_final_state], for the draw [u]. *)
Definition multi_action `{Collaborators} (plist : ParticleList) (dt u : double)
  : ScatterActionMulti :=
  mkScatterActionMulti plist (dt * u) (add_final_state plist (dt * u)).

(** ** std::sort and std::unique *)

(** [std::sort(first, last, less)], modelled by a stable insertion sort: an
    element is put in front of the first element that is not less than it.
    The source's sort leaves the order of equivalent elements open; the
    theorems on the decay tree use only that the result is an ordered
    rearrangement, and a deduplicated vector has no other ordered
    rearrangement than itself. *)
Fixpoint sort_insert {A : Type} (less : A -> A -> bool) (x : A) (l : list A)
  : list A :=
  match l with
  | [] => [x]
  | y :: l' => if less y x then y :: sort_insert less x l' else x :: y :: l'
  end.

Definition std_sort {A : Type} (less : A -> A -> bool) (l : list A) : list A :=
  fold_right (sort_insert less) [] l.

(** [b] may come after [a] in a sorted range: it is not less than [a]. *)
Definition may_follow {A : Type} (less : A -> A -> bool) (a b : A) : Prop :=
  less b a = false.

(** [v.erase(std::unique(v.begin(), v.end()), v.end())]: of every run of
    equal neighbours only the first is kept. *)
Fixpoint unique_from {A : Type} (eqb : A -> A -> bool) (a : A) (l : list A)
  : list A :=
  match l with
  | [] => [a]
  | b :: l' => if eqb a b then unique_from eqb a l'
               else a :: unique_from eqb b l'
  end.

Definition std_unique {A : Type} (eqb : A -> A -> bool) (l : list A) : list A :=
  match l with
  | [] => []
  | a :: l' => unique_from eqb a l'
  end.

(** ** The particle type registry *)

Record DecayBranch : Type := mkDecayBranch
  { decay_weight : double;
    decay_particle_types : list ParticleTypePtr }.

Record ParticleType : Type := mkParticleType
  { name : string;
    mass : double;
    is_stable : bool;
    decay_mode_list : list DecayBranch }.

(** Dereferencing a [ParticleTypePtr]. *)
Definition Registry := ParticleTypePtr -> ParticleType.

(** [a->name() < b->name()] *)
Definition name_less (db : Registry) (a b : ParticleTypePtr) : bool :=
  String.ltb (name (db a)) (name (db b)).

Definition sum_masses (db : Registry) (l : list ParticleTypePtr) (init : double)
  : double :=
  fold_left (fun acc p => acc + mass (db p)) l init.

(** ** The decay tree *)

#[local] Set Warnings "-register-all".

Module decaytree.

Inductive Node : Type := mkNode
  { name_ : string;
    weight_ : double;
    initial_particles_ : list ParticleTypePtr;
    final_particles_ : list ParticleTypePtr;
    state_ : list ParticleTypePtr;
    children_ : list Node }.

Definition set_weight (node : Node) (w : double) : Node :=
  mkNode (name_ node) w (initial_particles_ node) (final_particles_ node)
    (state_ node) (children_ node).

Definition set_children (node : Node) (cs : list Node) : Node :=
  mkNode (name_ node) (weight_ node) (initial_particles_ node)
    (final_particles_ node) (state_ node) cs.

(** [children_.emplace_back(new_node)] *)
Definition emplace_back (node : Node) (new_node : Node) : Node :=
  set_children node (children_ node ++ [new_node]).

(** [children_.back()], and writing through that reference. *)
Definition back (node : Node) : Outcome Node :=
  match rev (children_ node) with
  | c :: _ => Ret c
  | [] => Undefined
  end.

Definition set_back (node : Node) (c : Node) : Node :=
  set_children node (removelast (children_ node) ++ [c]).

(** [state.erase(std::find(state.begin(), state.end(), p))]: the first
    occurrence of the pointer is removed; when there is none, the end iterator
    is erased, which is undefined behaviour. *)
Fixpoint erase_find (p : ParticleTypePtr) (state : list ParticleTypePtr)
  : Outcome (list ParticleTypePtr) :=
  match state with
  | [] => Undefined
  | q :: rest =>
      if Nat.eqb q p then Ret rest
      else obind (erase_find p rest) (fun r => Ret (q :: r))
  end.

Fixpoint erase_all (ps : list ParticleTypePtr) (state : list ParticleTypePtr)
  : Outcome (list ParticleTypePtr) :=
  match ps with
  | [] => Ret state
  | p :: ps' => obind (erase_find p state) (erase_all ps')
  end.

(** [Node::add_action]: the node with the new child appended; the returned
    reference is [back] of the result. *)
Definition add_action (db : Registry) (node : Node) (name : string)
    (weight : double) (initial_particles final_particles : list ParticleTypePtr)
  : Outcome Node :=
  (* Copy parent state and update it. *)
  obind (erase_all initial_particles (state_ node)) (fun state =>
  let state := state ++ final_particles in
  (* Sort the state to normalize the output. *)
  let state := std_sort (name_less db) state in
  (* Push new node to children. *)
  let new_node :=
    mkNode name weight initial_particles final_particles state [] in
  Ret (emplace_back node new_node)).

(** [make_decay_name]: the name of the decay and the final state with the
    decay products pushed to it. *)
Definition make_decay_name (db : Registry) (res_name : string)
    (decay : DecayBranch) (final_state : list ParticleTypePtr)
  : string * list ParticleTypePtr :=
  let '(nm, fs) :=
    fold_left (fun '(nm, fs) p => ((nm ++ name (db p))%string, fs ++ [p]))
      (decay_particle_types decay)
      (("[" ++ res_name ++ "->")%string, final_state) in
  ((nm ++ "]")%string, fs).

Definition n_unstable_of (db : Registry) (state : list ParticleTypePtr) : nat :=
  fold_left (fun n p => if is_stable (db p) then n else S n) state 0%nat.

Definition norm_of (n_unstable : nat) : double :=
  if Nat.eqb n_unstable 0 then 1 else 1 / inject_Z (Z.of_nat n_unstable).

Section add_decays_loops.

Variable db : Registry.
(** the recursive call [add_decays(new_node, sqrts_decay)] *)
Variable add_decays_rec : Node -> double -> Outcome Node.
Variable norm : double.
Variable sqrts_minus_masses : double.

(** The loop over the decay modes of [ptype]; it returns the node and
    [can_decay]. *)
Fixpoint decay_mode_loop (ptype : ParticleTypePtr) (sqrts_decay : double)
    (modes : list DecayBranch) (node : Node) (can_decay : bool)
  : Outcome (Node * bool) :=
  match modes with
  | [] => Ret (node, can_decay)
  | decay :: modes' =>
      let final_state_mass :=
        sum_masses db (decay_particle_types decay) 0 in
      (* Make sure to skip kinematically impossible decays. *)
      if dgt final_state_mass sqrts_decay then
        decay_mode_loop ptype sqrts_decay modes' node can_decay
      else
        let '(name, parts) :=
          make_decay_name db (name (db ptype)) decay [] in
        obind (add_action db node name (norm * decay_weight decay)
                 [ptype] parts) (fun node =>
        obind (back node) (fun new_node =>
        obind (add_decays_rec new_node sqrts_decay) (fun new_node =>
        decay_mode_loop ptype sqrts_decay modes' (set_back node new_node)
          true)))
  end.

(** The loop over the particle types of the state. *)
Fixpoint particle_loop (ptypes : list ParticleTypePtr) (node : Node)
  : Outcome Node :=
  match ptypes with
  | [] => Ret node
  | ptype :: ptypes' =>
      if negb (is_stable (db ptype)) then
        let sqrts_decay := sqrts_minus_masses + mass (db ptype) in
        obind (decay_mode_loop ptype sqrts_decay
                 (decay_mode_list (db ptype)) node false)
          (fun '(node, can_decay) =>
             if negb can_decay then
               (* Remove final-state cross sections with resonances that
                  cannot decay due to our "mass = pole mass"
                  approximation. *)
               Ret (set_weight node 0)
             else particle_loop ptypes' node)
      else particle_loop ptypes' node
  end.

End add_decays_loops.

(** [add_decays]: every level of the recursion takes one unit of fuel. *)
Fixpoint add_decays (db : Registry) (fuel : nat) (node : Node) (sqrts : double)
  : Outcome Node :=
  match fuel with
  | O => OutOfFuel
  | S fuel' =>
      let n_unstable := n_unstable_of db (state_ node) in
      let sqrts_minus_masses :=
        fold_left (fun acc p => acc - mass (db p)) (state_ node) sqrts in
      let norm := norm_of n_unstable in
      particle_loop db (add_decays db fuel') norm sqrts_minus_masses
        (state_ node) node
  end.

(** The loop of [add_decays] run over the particle types [ptypes] only, with
    the normalization and the remaining energy of the whole state. *)
Definition expand_over (db : Registry) (fuel : nat) (node : Node)
    (sqrts : double) (ptypes : list ParticleTypePtr) : Outcome Node :=
  particle_loop db (add_decays db fuel)
    (norm_of (n_unstable_of db (state_ node)))
    (fold_left (fun acc p => acc - mass (db p)) (state_ node) sqrts)
    ptypes node.

(** [sqrts_decay] of [add_decays] for the particle type [ptype]: the pole
    masses of the state are taken from [sqrts] one after the other, and the
    pole mass of [ptype] is added to what is left. *)
Definition sqrts_decay_of (db : Registry) (state : list ParticleTypePtr)
    (sqrts : double) (ptype : ParticleTypePtr) : double :=
  fold_left (fun acc p => acc - mass (db p)) state sqrts + mass (db ptype).

(** Ascending by name: no particle type has a name that is less, as a
    string, than the name of the one before it. *)
Definition name_ordered (db : Registry) (state : list ParticleTypePtr) : Prop :=
  Sorted (fun a b => String.ltb (name (db b)) (name (db a)) = false) state.

(** The state of a child: the parent's state without the child's initial
    particles and with its final particles, in ascending order of the
    names. *)
Definition state_of_child (db : Registry) (parent child : Node) : Prop :=
  Permutation (initial_particles_ child ++ state_ child)
    (state_ parent ++ final_particles_ child)
  /\ name_ordered db (state_ child).

(** Every node below the root has the state of a child of its parent. *)
Inductive tree_inv (db : Registry) : Node -> Prop :=
| tree_inv_node (n : Node) :
    Forall (fun c => state_of_child db n c /\ tree_inv db c) (children_ n) ->
    tree_inv db n.

(** Two nodes stand for the same action in the same state; weights and
    children may differ. *)
Definition same_action (n n' : Node) : Prop :=
  name_ n' = name_ n
  /\ initial_particles_ n' = initial_particles_ n
  /\ final_particles_ n' = final_particles_ n
  /\ state_ n' = state_ n.

End decaytree.

(** ** Final-state cross sections and deduplicate *)

Record FinalStateCrossSection : Type := mkFinalStateCrossSection
  { name_ : string;
    cross_section_ : double;
    mass_ : double }.

(** [std::adjacent_find(first, last, same name)] as an offset from [first];
    the length of the range stands for [last]. *)
Fixpoint adjacent_find (v : list FinalStateCrossSection) : nat :=
  match v with
  | [] => 0
  | a :: v' =>
      match v' with
      | [] => 1
      | b :: _ =>
          if String.eqb (name_ a) (name_ b) then 0 else S (adjacent_find v')
      end
  end.

(** [adjacent->cross_section_ += (adjacent + 1)->cross_section_] *)
Definition add_cross_section (a b : FinalStateCrossSection)
  : FinalStateCrossSection :=
  mkFinalStateCrossSection (name_ a) (cross_section_ a + cross_section_ b)
    (mass_ a).

(** One pass of the [while] loop: [current] is an index into the vector,
    the length of the vector is its end. *)
Fixpoint deduplicate_loop (fuel : nat) (v : list FinalStateCrossSection)
    (current : nat) : Outcome (list FinalStateCrossSection) :=
  if Nat.eqb current (length v) then Ret v
  else
    match fuel with
    | O => OutOfFuel
    | S fuel' =>
        let adjacent := (current + adjacent_find (skipn current v))%nat in
        if Nat.eqb adjacent (length v) then deduplicate_loop fuel' v adjacent
        else
          match nth_error v adjacent, nth_error v (S adjacent) with
          | Some a, Some b =>
              deduplicate_loop fuel'
                (firstn adjacent v ++ add_cross_section a b
                   :: skipn (S (S adjacent)) v)
                adjacent
          | _, _ => Undefined
          end
    end.

(** The loop in closed form: every run of neighbours with the same name is
    summed into its first element. *)
Fixpoint collapse_from (a : FinalStateCrossSection)
    (l : list FinalStateCrossSection) : list FinalStateCrossSection :=
  match l with
  | [] => [a]
  | b :: l' =>
      if String.eqb (name_ a) (name_ b)
      then collapse_from (add_cross_section a b) l'
      else a :: collapse_from b l'
  end.

Definition collapse (l : list FinalStateCrossSection)
  : list FinalStateCrossSection :=
  match l with
  | [] => []
  | a :: l' => collapse_from a l'
  end.

Definition fsxs_less (a b : FinalStateCrossSection) : bool :=
  String.ltb (name_ a) (name_ b).

(** Sorted by name: no element has a name less than the one before it. *)
Definition sorted_by_name (v : list FinalStateCrossSection) : Prop :=
  Sorted (may_follow fsxs_less) v.

Definition deduplicate (final_state_xs : list FinalStateCrossSection)
  : Outcome (list FinalStateCrossSection) :=
  let v := std_sort fsxs_less final_state_xs in
  deduplicate_loop (length v) v 0.

(** ** dump_cross_sections: the momentum scan *)

Definition momentum_step : double := 2 # 100.

Section dump_cross_sections_scan.

(** [pCM_from_s(s_from_plab(p, m_a, m_b), m_a, m_b)], from [kinematics.h] *)
Variable pCM_from_plab : double -> double -> double -> double.
Variables m_a m_b : double.

(** The first [for] loop, from index [i] on, with [remaining] iterations to
    go.  [scanned] collects the momentum of every point whose body was run;
    the rest of the body (the cross sections of that point) does not read or
    write [plab] or [i].  [plab.at(i)] throws past the end. *)
Fixpoint scan_loop (plab : list double) (i remaining : nat)
    (scanned : list double) : list double * Outcome unit :=
  match remaining with
  | O => (scanned, Ret tt)
  | S remaining' =>
      if Nat.ltb 0 (length plab) then
        match nth_error plab i with
        | Some p =>
            scan_loop plab (S i) remaining'
              (scanned ++ [pCM_from_plab p m_a m_b])
        | None => (scanned, Throw (out_of_range i))
        end
      else
        scan_loop plab (S i) remaining'
          (scanned ++ [momentum_step * inject_Z (Z.of_nat i + 1)])
  end.

(** What a call leaves behind: the caller's vector, the momenta scanned,
    and how the scan ended. *)
Record ScanResult : Type := mkScanResult
  { plab_after : list double;
    momenta_scanned : list double;
    scan_outcome : Outcome unit }.

Definition dump_cross_sections (plab : list double) : ScanResult :=
  let n_momentum_points := 200%nat in
  let '(n_momentum_points, plab) :=
    if Nat.ltb 0 (length plab) then
      (length plab,
       (* Remove duplicates. *)
       std_unique deq (std_sort dlt plab))
    else (n_momentum_points, plab) in
  let '(scanned, out) := scan_loop plab 0 n_momentum_points [] in
  mkScanResult plab scanned out.

End dump_cross_sections_scan.

(** ** A small instance of the collaborators

    Constant physics, for running the evaluators on concrete inputs: every
    pair has collision time [t], transverse distance squared [d2] (with
    cut-off [d2max]), total cross section [xs] and relative velocity [v];
    every group has process type [pt] and probability [p_nm].  The random
    source is the list of the draws to come (zero once it is used up). *)
Definition constant_physics (t d2 d2max xs v p_nm : double) (pt : ProcessType)
  : Collaborators :=
  {| Rng := list double;
     uniform := fun g => match g with
                         | [] => (0, [])
                         | u :: g' => (u, g')
                         end;
     really_small := 1 # 1000000;
     fm2_mb := 1 # 10;
     M_1_PI := 3183098861837907 # 10000000000000000;
     collision_time := fun _ _ _ _ _ => t;
     max_transverse_distance_sqr := fun _ _ => d2max;
     transverse_distance_sqr := fun _ => d2;
     cov_transverse_distance_sqr := fun _ => d2;
     add_all_scatterings := fun _ _ g => ([], g);
     cross_section := fun _ => xs;
     relative_velocity := fun _ => v;
     xsec_scaling_factor := fun _ _ => 1;
     add_final_state := fun _ _ => pt;
     probability_multi := fun _ _ _ => p_nm |}.

Definition origin : FourVector := mkFourVector 0 0 0 0.

Definition particle (i : Z) (process : N) : ParticleData :=
  mkParticleData i process 0%nat origin origin.

(** A finder for two nuclei of two nucleons each (ids 0, 1 and 2, 3). *)
Definition finder (crit : CollisionCriterion) (testparticles : Z)
    (interacted : list bool) : ScatterActionsFinder :=
  mkFinder crit (-1) testparticles false true 0%N (198 # 100) false false
    false NoAnnihilation interacted 4%Z 2%Z 1.

(** Whether a message streams in the value [q]. *)
Definition mentions (what : Message) (q : double) : bool :=
  existsb (fun fr => match fr with Num d => deq d q | Text _ => false end) what.

(** ** Concrete scenarios *)

Definition fresh_nuclei : list bool := [false; false; false; false].

(** A pair at distance zero that meets in the middle of a unit timestep, with
    a total cross section of 10 mb. *)
Definition close_pair_physics : Collaborators :=
  constant_physics (1 # 2) 0 100 10 1 (1 # 2) (PSome 1).

(** A pair that meets in the middle of a unit timestep with a total cross
    section of 10 mb, that is 1 fm^2, so that the distance squared is
    compared with [M_1_PI]: its transverse distance squared is 1/4, its
    covariant one 2. *)
Definition glancing_pair_physics : Collaborators :=
  {| Rng := list double;
     uniform := fun g => match g with
                         | [] => (0, [])
                         | u :: g' => (u, g')
                         end;
     really_small := 1 # 1000000;
     fm2_mb := 1 # 10;
     M_1_PI := 3183098861837907 # 10000000000000000;
     collision_time := fun _ _ _ _ _ => 1 # 2;
     max_transverse_distance_sqr := fun _ _ => 100;
     transverse_distance_sqr := fun _ => 1 # 4;
     cov_transverse_distance_sqr := fun _ => 2;
     add_all_scatterings := fun _ _ g => ([], g);
     cross_section := fun _ => 10;
     relative_velocity := fun _ => 1;
     xsec_scaling_factor := fun _ _ => 1;
     add_final_state := fun _ _ => PSome 1;
     probability_multi := fun _ _ _ => 1 # 2 |}.

(** A total cross section of 50 mb and relative velocity 1/2: in a cell of
    volume 1/3 and a timestep of 2 the stochastic probability is 15. *)
Definition overflow_physics : Collaborators :=
  constant_physics (1 # 2) 0 100 50 (1 # 2) 15 (PSome 1).

(** A group whose probability is zero, as for a timestep of length zero. *)
Definition zero_probability_physics : Collaborators :=
  constant_physics 0 0 0 0 0 0 (PSome 1).

Definition triple : ParticleList :=
  [particle 0 0; particle 2 0; particle 5 0].

(** A registry with a stable pion (0), a rho (1) that decays into two pions,
    a heavy resonance (2) that decays into two rhos, and a stable nucleon. *)
Definition small_registry : Registry :=
  fun p =>
    match p with
    | 0%nat => mkParticleType "pi" (138 # 1000) true []
    | 1%nat => mkParticleType "rho" (776 # 1000) false
                 [mkDecayBranch 1 [0; 0]%nat]
    | 2%nat => mkParticleType "X" 2 false [mkDecayBranch 1 [1; 1]%nat]
    | _ => mkParticleType "N" (938 # 1000) true []
    end.

(** The root of a nucleon-nucleon tree, and a node in the state pion + rho. *)
Definition nucleon_pair : decaytree.Node :=
  decaytree.mkNode "NN" 40 [3; 3]%nat [3; 3]%nat [3; 3]%nat [].

Definition pion_rho : decaytree.Node :=
  decaytree.mkNode "NN->pi rho" 5 [3; 3]%nat [1; 0]%nat [0; 1]%nat [].

(** ** The candidate enumerators *)

(** An [ActionPtr] of the finder points to a [ScatterAction] or to a
    [ScatterActionMulti]. *)
Inductive Action : Type :=
| PairAction (act : ScatterAction)
| MultiAction (act : ScatterActionMulti).

Definition ActionList := list Action.

(** [if (act) { actions.push_back(std::move(act)); }] *)
Definition push_back_if {T : Type} (wrap : T -> Action) (act : option T)
    (actions : ActionList) : ActionList :=
  match act with
  | Some a => actions ++ [wrap a]
  | None => actions
  end.

(** A range-based [for] loop over [l]: the body gets the element and the
    state of the loop, may draw random numbers and may end the loop by
    throwing. *)
Fixpoint for_each `{Collaborators} {A S : Type} (l : list A)
    (body : A -> S -> M S) (s : S) : M S :=
  match l with
  | [] => ret s
  | x :: l' => bind (body x s) (for_each l' body)
  end.

Local Open Scope finder_scope.

Definition find_actions_in_cell `{Collaborators} (f : ScatterActionsFinder)
    (search_list : ParticleList) (dt : double) (cell_vol : double)
    (beam_momentum : list FourVector) : M ActionList :=
  for_each search_list (fun p1 actions =>
    for_each search_list (fun p2 actions =>
      (* Check for 2 particle scattering *)
      actions <-
        (if (id p1 <? id p2)%Z then
           act <- check_collision_two_part f p1 p2 dt beam_momentum cell_vol ;;
           ret (push_back_if PairAction act actions)
         else ret actions) ;;
      (* Also, check for 3 particle scatterings with stochastic criterion *)
      if CollisionCriterion_eqb (coll_crit_ f) Stochastic then
        for_each search_list (fun p3 actions =>
          if ((id p1 <? id p2)%Z && (id p2 <? id p3)%Z)%bool then
            act <- check_collision_multi_part f [p1; p2; p3] dt cell_vol ;;
            ret (push_back_if MultiAction act actions)
          else ret actions) actions
      else ret actions) actions) [].

(** The two searches across cells call [check_collision_two_part] without a
    cell volume; the default value of that argument is declared in
    [scatteractionsfinder.h] and is the parameter [default_cell_vol] here. *)
Definition find_actions_with_neighbors `{Collaborators}
    (default_cell_vol : double) (f : ScatterActionsFinder)
    (search_list neighbors_list : ParticleList) (dt : double)
    (beam_momentum : list FourVector) : M ActionList :=
  if CollisionCriterion_eqb (coll_crit_ f) Stochastic then
    (* Only search in cells *)
    ret []
  else
    for_each search_list (fun p1 actions =>
      for_each neighbors_list (fun p2 actions =>
        assert (negb (id p1 =? id p2)%Z) ;;
        (* Check if a collision is possible. *)
        act <- check_collision_two_part f p1 p2 dt beam_momentum
                 default_cell_vol ;;
        ret (push_back_if PairAction act actions)) actions) [].

(** [std::find_if(search_list.begin(), search_list.end(), same id)
     != search_list.end()] *)
Definition in_search_list (search_list : ParticleList) (p2 : ParticleData)
  : bool :=
  existsb (fun p => (id p =? id p2)%Z) search_list.

Definition find_actions_with_surrounding_particles `{Collaborators}
    (default_cell_vol : double) (f : ScatterActionsFinder)
    (search_list surrounding_list : ParticleList) (dt : double)
    (beam_momentum : list FourVector) : M ActionList :=
  if CollisionCriterion_eqb (coll_crit_ f) Stochastic then
    (* Only search in cells *)
    ret []
  else
    for_each surrounding_list (fun p2 actions =>
      (* don't look for collisions if the particle from the surrounding list
         is also in the search list *)
      if in_search_list search_list p2 then ret actions
      else
        for_each search_list (fun p1 actions =>
          (* Check if a collision is possible. *)
          act <- check_collision_two_part f p1 p2 dt beam_momentum
                   default_cell_vol ;;
          ret (push_back_if PairAction act actions)) actions) [].

Local Close Scope finder_scope.

(** A pair action for the particles [data_a] and [data_b] whose time lies in
    the timestep. *)
Definition pair_action_of (data_a data_b : ParticleData) (dt : double)
    (a : Action) : Prop :=
  match a with
  | PairAction act =>
      incoming_a act = data_a /\ incoming_b act = data_b
      /\ 0 <= time_until_collision act /\ time_until_collision act < dt
  | MultiAction _ => False
  end.

(** What [find_actions_in_cell] may hold in its result: a pair action of two
    particles of the list with ascending ids, or, under the stochastic
    criterion, an action of three particles of the list with ascending
    ids. *)
Definition cell_action (f : ScatterActionsFinder) (search_list : ParticleList)
    (dt : double) (a : Action) : Prop :=
  match a with
  | PairAction act =>
      In (incoming_a act) search_list /\ In (incoming_b act) search_list
      /\ (id (incoming_a act) < id (incoming_b act))%Z
      /\ 0 <= time_until_collision act /\ time_until_collision act < dt
  | MultiAction act =>
      coll_crit_ f = Stochastic
      /\ exists p1 p2 p3,
           multi_incoming act = [p1; p2; p3]
           /\ In p1 search_list /\ In p2 search_list /\ In p3 search_list
           /\ (id p1 < id p2)%Z /\ (id p2 < id p3)%Z
  end.

(** An initial nucleon that has not interacted, on the projectile side
    ([side = true]) or on the target side. *)
Definition spectator_of (f : ScatterActionsFinder) (side : bool)
    (p : ParticleData) : Prop :=
  (id p < N_tot_ f)%Z
  /\ has_interacted f (id p) = Ret false
  /\ (if side then (id p < N_proj_ f)%Z else (N_proj_ f <= id p)%Z).

(** ** Final-state cross sections of a decay tree *)

(** The loop over [state_] of [final_state_cross_sections_helper]: the names
    of the particle types are appended to [new_name]. *)
Definition state_name (db : Registry) (state : list ParticleTypePtr)
    (new_name : string) : string :=
  fold_left (fun nm s => (nm ++ name (db s))%string) state new_name.

(** [Node::final_state_cross_sections_helper]; the entries are appended to
    [result]. *)
Fixpoint final_state_cross_sections_helper (db : Registry)
    (node : decaytree.Node) (depth : nat)
    (result : list FinalStateCrossSection) (name : string) (weight : double)
    (show_intermediate_states : bool) {struct node}
  : list FinalStateCrossSection :=
  (* The first node corresponds to the total cross section and has to be
     ignored. *)
  let weight :=
    if Nat.ltb 0 depth then weight * decaytree.weight_ node else weight in
  let new_name :=
    if show_intermediate_states then
      let new_name := name in
      let new_name :=
        if String.eqb new_name "" then new_name
        else (new_name ++ "->")%string in
      ((new_name ++ decaytree.name_ node) ++ "{")%string
    else ""%string in
  let new_name := state_name db (decaytree.state_ node) new_name in
  let mass := sum_masses db (decaytree.state_ node) 0 in
  let new_name :=
    if show_intermediate_states then (new_name ++ "}")%string
    else new_name in
  match decaytree.children_ node with
  | [] => result ++ [mkFinalStateCrossSection new_name weight mass]
  | children =>
      fold_left
        (fun result child =>
           final_state_cross_sections_helper db child (S depth) result
             new_name weight show_intermediate_states)
        children result
  end.

(** [Node::final_state_cross_sections] *)
Definition final_state_cross_sections (db : Registry) (node : decaytree.Node)
  : list FinalStateCrossSection :=
  final_state_cross_sections_helper db node 0 [] "" 1 false.

(** The number of nodes without children. *)
Fixpoint leaves (node : decaytree.Node) : nat :=
  match decaytree.children_ node with
  | [] => 1
  | children => fold_left (fun n child => (n + leaves child)%nat) children 0%nat
  end.

(** ** Sums of cross sections *)

(** The entries of [v] with the name [n], in the order they have in [v]. *)
Definition entries_named (n : string) (v : list FinalStateCrossSection)
  : list FinalStateCrossSection :=
  filter (fun x => String.eqb (name_ x) n) v.

(** The cross sections of [rest] added to [x] one after the other, from left
    to right, each with [+=]. *)
Definition summed_up (x : double) (rest : list FinalStateCrossSection)
  : double :=
  fold_left (fun sum y => sum + cross_section_ y) rest x.

(** ** A bound on the depth of add_decays *)

(** The decays that can follow one another below a particle type [p] are at
    most [decay_size db k p] when no chain of decays from [p] is longer than
    [k]. *)
Fixpoint decay_size (db : Registry) (k : nat) (p : ParticleTypePtr) : nat :=
  match k with
  | O => 1
  | S k' =>
      S (list_sum
           (map (fun decay =>
                   list_sum (map (decay_size db k')
                               (decay_particle_types decay)))
              (decay_mode_list (db p))))
  end.

Definition state_size (db : Registry) (rank : ParticleTypePtr -> nat)
    (state : list ParticleTypePtr) : nat :=
  list_sum (map (fun p => decay_size db (rank p) p) state).

(** The registry has no decay cycles: every decay product ranks below the
    particle type that decays. *)
Definition ranked (db : Registry) (rank : ParticleTypePtr -> nat) : Prop :=
  forall p decay q,
    In decay (decay_mode_list (db p)) ->
    In q (decay_particle_types decay) ->
    (rank q < rank p)%nat.

(** A child [add_decays] may add to a node: a decay of an unstable particle
    type [p] of the state through one of its decay modes.  The pole masses
    of the products, added up from zero, do not exceed [sqrts_decay] of [p]
    as the code computes it.  The weight is 1 over the number of unstable
    particle types of the state, times the branching ratio; or it is zero,
    when the decay has led to a state that cannot decay further. *)
Definition decay_child (db : Registry) (node : decaytree.Node)
    (sqrts : double) (c : decaytree.Node) : Prop :=
  exists p decay,
    In p (decaytree.state_ node)
    /\ is_stable (db p) = false
    /\ In decay (decay_mode_list (db p))
    /\ sum_masses db (decay_particle_types decay) 0
       <= decaytree.sqrts_decay_of db (decaytree.state_ node) sqrts p
    /\ decaytree.initial_particles_ c = [p]
    /\ decaytree.final_particles_ c = decay_particle_types decay
    /\ (decaytree.weight_ c
        = 1 / inject_Z
                (Z.of_nat
                   (List.length
                      (filter (fun q => negb (is_stable (db q)))
                         (decaytree.state_ node))))
          * decay_weight decay
        \/ decaytree.weight_ c = 0).

(** ** dump_cross_sections: the decay tree of one momentum point *)

(** [a <= b] on doubles. *)
Definition dle (a b : double) : bool := negb (dlt b a).

Section final_state_tree.

Variable db : Registry.
(** the fuel of every call of [add_decays] *)
Variable fuel : nat.
(** [process_description_stream << *process], the printed form of a
    collision branch (declared in [processbranch.h]) *)
Variable describe : CollisionBranch -> string.
Variables a b : ParticleTypePtr.
Variable sqrts : double.

(** The loop over the collision channels with [final_state] set: a channel
    without a positive weight is passed over, every other one becomes a
    child of the root and is grown by [add_decays]. *)
Fixpoint process_loop (processes : list CollisionBranch)
    (tree : decaytree.Node) : Outcome decaytree.Node :=
  match processes with
  | [] => Ret tree
  | process :: processes' =>
      let xs := branch_weight process in
      if dle xs 0 then process_loop processes' tree
      else
        obind (decaytree.add_action db tree (describe process) xs [a; b]
                 (branch_particle_types process)) (fun tree =>
        obind (decaytree.back tree) (fun process_node =>
        obind (decaytree.add_decays db fuel process_node sqrts)
          (fun process_node =>
        process_loop processes' (decaytree.set_back tree process_node))))
  end.

(** The tree of a momentum point: the root stands for the pair and carries
    the total cross section. *)
Definition final_state_tree (cross_section_total : double)
    (processes : list CollisionBranch) : Outcome decaytree.Node :=
  let tree :=
    decaytree.mkNode (name (db a) ++ name (db b))%string cross_section_total
      [a; b] [a; b] [a; b] [] in
  process_loop processes tree.

End final_state_tree.

(** The channels the loop does not pass over. *)
Definition open_channels (processes : list CollisionBranch)
  : list CollisionBranch :=
  filter (fun process => negb (dle (branch_weight process) 0)) processes.

(** The entry a channel into stable particle types gets: the names of its
    products in ascending order, its weight, and their masses. *)
Definition channel_entry (db : Registry) (process : CollisionBranch)
  : FinalStateCrossSection :=
  let state := std_sort (name_less db) (branch_particle_types process) in
  mkFinalStateCrossSection (state_name db state "")
    (1 * branch_weight process) (sum_masses db state 0).

(** The vector [l] holds the value [v] (doubles are compared with [==]). *)
Definition holds_value (l : list double) (v : double) : Prop :=
  exists y, In y l /\ y == v.

(** ** dump_cross_sections: the columns of the table *)

(** [typedef std::vector<std::pair<double, double>> xs_saver]: the energies
    and the cross sections of one channel. *)
Definition xs_saver : Type := list (double * double).

(** [double sum = 0; for (const auto& p : xs) { sum += p.second; }] *)
Definition column_sum (xs : xs_saver) : double :=
  fold_left (fun sum p => sum + snd p) xs 0.

(** The loop that gets rid of cross sections that are zero; [xs_dump] is the
    [std::map] as the list of its entries, in the order of the iteration. *)
Definition erase_zero_columns (xs_dump : list (string * xs_saver))
  : list (string * xs_saver) :=
  filter (fun it => negb (deq (column_sum (snd it)) 0)) xs_dump.

(** The comparison of the ordering of the channels;
    [outgoing_total_mass[str]] is a function of the name here. *)
Definition mass_less (outgoing_total_mass : string -> double)
    (str_a str_b : string) : bool :=
  dlt (outgoing_total_mass str_a) (outgoing_total_mass str_b).

(** The names of the columns, in the order of the table. *)
Definition all_channels (outgoing_total_mass : string -> double)
    (xs_dump : list (string * xs_saver)) : list string :=
  std_sort (mass_less outgoing_total_mass)
    (map fst (erase_zero_columns xs_dump)).

(** ** Concrete scenarios for the enumerators and the decay tree *)

(** Two nucleons, one of each nucleus. *)
Definition one_of_each : ParticleList := [particle 0 0; particle 2 0].

(** Two nucleons of the projectile. *)
Definition projectile_pair : ParticleList := [particle 0 0; particle 1 0].

(** The ranks of the small registry: pions and nucleons do not decay, a rho
    decays into pions, the heavy resonance into rhos. *)
Definition small_rank (p : ParticleTypePtr) : nat :=
  match p with
  | 1%nat => 1%nat
  | 2%nat => 2%nat
  | _ => 0%nat
  end.

(** A node of weight zero in the state of two pions. *)
Definition dead_end : decaytree.Node :=
  decaytree.mkNode "[rho->pipi]" 0 [1]%nat [0; 0]%nat [0; 0]%nat [].

(** An elastic channel of two nucleons with 25 mb, and a channel of weight
    zero. *)
Definition nucleon_channels : list CollisionBranch :=
  [ mkCollisionBranch 25 (PSome 1) [3; 3]%nat;
    mkCollisionBranch 0 (PSome 2) [1; 0]%nat ].

(** Three columns of one momentum point: the channel of a resonance that
    cannot decay holds only a zero. *)
Definition sample_columns : list (string * xs_saver) :=
  [ ("NN"%string, [(2, 25)]); ("Npi"%string, [(2, 0)]);
    ("total"%string, [(2, 25)]) ].

Definition sample_masses (channel : string) : double :=
  if String.eqb channel "total" then -1 else 1.

(* ===================================================================== *)
(** * Part II: properties                                                 *)
(* ===================================================================== *)

(** ** Comparisons of doubles *)

Lemma dlt_true_iff (a b : double) : dlt a b = true <-> a < b.
Proof.
  unfold dlt. rewrite Qlt_alt.
  destruct (a ?= b); split; intros E; congruence.
Qed.

Lemma dlt_false_iff (a b : double) : dlt a b = false <-> b <= a.
Proof.
  split.
  - intros E. apply Qnot_lt_le. intros L.
    apply dlt_true_iff in L. congruence.
  - intros L. destruct (dlt a b) eqn:E; [ | reflexivity ].
    apply dlt_true_iff in E. exfalso. exact (Qlt_not_le _ _ E L).
Qed.

Lemma dgt_true_iff (a b : double) : dgt a b = true <-> b < a.
Proof. unfold dgt. apply dlt_true_iff. Qed.

Lemma dgt_false_iff (a b : double) : dgt a b = false <-> a <= b.
Proof. unfold dgt. apply dlt_false_iff. Qed.

Lemma dge_true_iff (a b : double) : dge a b = true <-> b <= a.
Proof. unfold dge. rewrite negb_true_iff. apply dlt_false_iff. Qed.

Lemma dge_false_iff (a b : double) : dge a b = false <-> a < b.
Proof. unfold dge. rewrite negb_false_iff. apply dlt_true_iff. Qed.

(** The timing check lets exactly the times of [0, dt) through. *)
Lemma timing_check_iff (t dt : double) :
  (dlt t 0 || dge t dt)%bool = false <-> 0 <= t /\ t < dt.
Proof.
  rewrite orb_false_iff, dlt_false_iff, dge_false_iff. reflexivity.
Qed.

(** ** The spectator test *)

Lemma has_interacted_nonneg (f : ScatterActionsFinder) (i : Z) (b : bool) :
  has_interacted f i = Ret b -> (0 <= i)%Z.
Proof.
  unfold has_interacted. destruct (i <? 0)%Z eqn:E; [ discriminate | ].
  intros _. apply Z.ltb_ge. exact E.
Qed.

(** With non-negative ids below the length of the flag vector the test reads
    inside the vector. *)
Lemma has_interacted_defined (f : ScatterActionsFinder) (i : Z) :
  (0 <= i < Z.of_nat (List.length (nucleon_has_interacted_ f)))%Z ->
  exists b, has_interacted f i = Ret b.
Proof.
  intros [Hlo Hhi]. unfold has_interacted.
  destruct (i <? 0)%Z eqn:E; [ apply Z.ltb_lt in E; lia | ].
  destruct (nth_error (nucleon_has_interacted_ f) (Z.to_nat i)) eqn:En.
  - eauto.
  - apply nth_error_None in En. lia.
Qed.

Lemma spectators_defined (f : ScatterActionsFinder) (a b : ParticleData) :
  (0 <= id a)%Z -> (0 <= id b)%Z ->
  (N_tot_ f <= Z.of_nat (List.length (nucleon_has_interacted_ f)))%Z ->
  exists r, spectators f a b = Ret r.
Proof.
  intros Ha Hb Hlen. unfold spectators.
  destruct (id a <? N_tot_ f)%Z eqn:Ea; simpl; [ | eauto ].
  destruct (id b <? N_tot_ f)%Z eqn:Eb; simpl; [ | eauto ].
  apply Z.ltb_lt in Ea, Eb.
  match goal with |- context [if ?c then _ else _] => destruct c end;
    [ | eauto ].
  destruct (has_interacted_defined f (id a)) as [ia Hia]; [ lia | ].
  destruct (has_interacted_defined f (id b)) as [ib Hib]; [ lia | ].
  rewrite Hia. simpl. destruct ia; [ eauto | ].
  rewrite Hib. simpl. eauto.
Qed.

Lemma spectators_banned (f : ScatterActionsFinder) (a b : ParticleData) :
  (id a < N_tot_ f)%Z -> (id b < N_tot_ f)%Z ->
  ((id a < N_proj_ f /\ id b < N_proj_ f)
   \/ (N_proj_ f <= id a /\ N_proj_ f <= id b))%Z ->
  has_interacted f (id a) = Ret false ->
  has_interacted f (id b) = Ret false ->
  spectators f a b = Ret true.
Proof.
  intros Ha Hb Hside Hia Hib. unfold spectators.
  apply Z.ltb_lt in Ha, Hb. rewrite Ha, Hb. simpl.
  assert (Es : (((id a <? N_proj_ f)%Z && (id b <? N_proj_ f)%Z)
                || ((N_proj_ f <=? id a)%Z && (N_proj_ f <=? id b)%Z))%bool
               = true).
  { apply orb_true_iff.
    destruct Hside as [[H1 H2] | [H1 H2]]; [ left | right ];
      apply andb_true_iff; split;
      first [ apply Z.ltb_lt; assumption | apply Z.leb_le; assumption ]. }
  rewrite Es, Hia. simpl. rewrite Hib. reflexivity.
Qed.

(** ** Unfolding the evaluators *)

Ltac unfold_evaluator :=
  unfold check_collision_two_part, check_collision_multi_part,
    bind, ret, throw, lift, assert, random_uniform.

Ltac nonneg_ids Ha Hb :=
  let E := fresh "E" in
  (assert (E : forall z : Z, (0 <= z)%Z -> (0 <=? z)%Z = true)
     by (intros; apply Z.leb_le; assumption));
  rewrite (E _ Ha), (E _ Hb); clear E.

Section Evaluators.

Context `{C : Collaborators}.

Variable f : ScatterActionsFinder.

(** C1.  Two initial nucleons of the same nucleus, none of which has
    interacted yet, never collide: for ids below [N_tot_] on the same side
    of [N_proj_] whose flags are both unset, [check_collision_two_part]
    returns no action (and draws no random number), whatever the criterion,
    the kinematics, the timestep and the cell volume are. *)
Theorem spectator_exclusion (data_a data_b : ParticleData) (dt : double)
    (beam_momentum : list FourVector) (cell_vol : double) (g : Rng) :
  (id data_a < N_tot_ f)%Z -> (id data_b < N_tot_ f)%Z ->
  ((id data_a < N_proj_ f /\ id data_b < N_proj_ f)
   \/ (N_proj_ f <= id data_a /\ N_proj_ f <= id data_b))%Z ->
  has_interacted f (id data_a) = Ret false ->
  has_interacted f (id data_b) = Ret false ->
  check_collision_two_part f data_a data_b dt beam_momentum cell_vol g
  = (Ret None, g).
Proof.
  intros Ha Hb Hside Hia Hib.
  pose proof (has_interacted_nonneg _ _ _ Hia) as Na.
  pose proof (has_interacted_nonneg _ _ _ Hib) as Nb.
  unfold_evaluator. nonneg_ids Na Nb.
  rewrite (spectators_banned f data_a data_b Ha Hb Hside Hia Hib).
  reflexivity.
Qed.

(** C4, as the code has it.  A cell volume below [really_small] makes
    [check_collision_multi_part] return no action, and makes
    [check_collision_two_part] return no action under the stochastic
    criterion; no error is raised and no random number is drawn.  (The pair
    evaluator is given particles with non-negative ids and a flag vector
    with an entry for every id below [N_tot_].) *)
Theorem small_cell_rejects (data_a data_b : ParticleData)
    (plist : ParticleList) (dt : double) (beam_momentum : list FourVector)
    (cell_vol : double) (g : Rng) :
  cell_vol < really_small ->
  check_collision_multi_part f plist dt cell_vol g = (Ret None, g)
  /\ (coll_crit_ f = Stochastic ->
      (0 <= id data_a)%Z -> (0 <= id data_b)%Z ->
      (N_tot_ f <= Z.of_nat (List.length (nucleon_has_interacted_ f)))%Z ->
      check_collision_two_part f data_a data_b dt beam_momentum cell_vol g
      = (Ret None, g)).
Proof.
  intros Hvol. apply dlt_true_iff in Hvol. split.
  - unfold_evaluator. rewrite Hvol. reflexivity.
  - intros Hcrit Na Nb Hlen. unfold_evaluator. nonneg_ids Na Nb.
    destruct (spectators_defined f data_a data_b Na Nb Hlen) as [r Hr].
    rewrite Hr, Hcrit, Hvol. destruct r; reflexivity.
Qed.

(** C5, as the code has it.  With a cell volume of at least [really_small]
    and a test-particle multiplicity other than 1,
    [check_collision_multi_part] throws the runtime error "Multi-body
    reactions do not scale with testparticles yet. Use 1.", whatever the
    particles and the timestep are, before any random number is drawn. *)
Theorem testparticles_fatal (plist : ParticleList) (dt : double)
    (cell_vol : double) (g : Rng) :
  testparticles_ f <> 1%Z ->
  really_small <= cell_vol ->
  check_collision_multi_part f plist dt cell_vol g
  = (Throw (runtime_error testparticles_message), g).
Proof.
  intros Htp Hvol. apply dlt_false_iff in Hvol.
  apply Z.eqb_neq in Htp.
  unfold_evaluator. rewrite Hvol, Htp. reflexivity.
Qed.

(** What the pair evaluator does once a pair has passed the gates: it
    collects the channels and decides by the criterion. *)
Lemma two_part_after_gates (data_a data_b : ParticleData) (dt : double)
    (beam_momentum : list FourVector) (cell_vol : double) (g : Rng) :
  passes_gates f data_a data_b dt beam_momentum cell_vol ->
  check_collision_two_part f data_a data_b dt beam_momentum cell_vol g
  = let '(act, g1) :=
      pair_action_with_channels f data_a data_b dt beam_momentum g in
    let xs := scaled_cross_section f data_a data_b act in
    match coll_crit_ f with
    | Stochastic =>
        let prob := pair_probability f data_a data_b dt cell_vol act in
        if dgt prob 1 then
          (Throw (runtime_error (probability_message "P" prob)), g1)
        else
          let (u, g2) := uniform g1 in
          (Ret (if dgt u prob then None else Some act), g2)
    | Geometric | Covariant =>
        if ((0 <? id_process data_a)%N
            && (id_process data_a =? id_process data_b)%N)%bool
        then (Ret None, g1)
        else
          (Ret (if dge (distance_squared_of f
                          (pair_action f data_a data_b dt beam_momentum))
                     (xs * M_1_PI)
                then None else Some act), g1)
    end.
Proof.
  intros (Na & Nb & Hs & Hvol & Ht & Hd).
  apply timing_check_iff in Ht.
  unfold_evaluator. nonneg_ids Na Nb. rewrite Hs, Ht.
  unfold pair_action_with_channels, pair_probability.
  fold (pair_action f data_a data_b dt beam_momentum).
  destruct (coll_crit_ f) eqn:Ec; simpl.
  - assert (Hd' : dge (distance_squared_of f
                         (pair_action f data_a data_b dt beam_momentum))
                    (max_transverse_distance_sqr f (testparticles_ f))
                  = false)
      by (apply dge_false_iff, Hd; discriminate).
    rewrite Hd'.
    destruct (add_all_scatterings f _ g) as [chs g1].
    repeat match goal with
           | |- context [if ?c then _ else _] => destruct c
           end; reflexivity.
  - assert (Hv : dlt cell_vol really_small = false)
      by (apply dlt_false_iff, Hvol; reflexivity).
    rewrite Hv.
    destruct (add_all_scatterings f _ g) as [chs g1].
    match goal with
    | |- context [if ?c then _ else _] => destruct c
    end; [ reflexivity | ].
    destruct (uniform g1) as [u g2].
    match goal with
    | |- context [if ?c then _ else _] => destruct c
    end; reflexivity.
  - assert (Hd' : dge (distance_squared_of f
                         (pair_action f data_a data_b dt beam_momentum))
                    (max_transverse_distance_sqr f (testparticles_ f))
                  = false)
      by (apply dge_false_iff, Hd; discriminate).
    rewrite Hd'.
    destruct (add_all_scatterings f _ g) as [chs g1].
    repeat match goal with
           | |- context [if ?c then _ else _] => destruct c
           end; reflexivity.
Qed.

(** What the group evaluator does behind its two gates. *)
Lemma multi_part_after_gates (plist : ParticleList) (dt : double)
    (cell_vol : double) (g : Rng) :
  really_small <= cell_vol ->
  testparticles_ f = 1%Z ->
  check_collision_multi_part f plist dt cell_vol g
  = let (u, g1) := uniform g in
    let act := multi_action plist dt u in
    if is_PNone (multi_process_type act) then (Ret None, g1)
    else
      let p_nm := probability_multi act dt cell_vol in
      if dgt p_nm 1 then
        (Throw (runtime_error (probability_message "P_nm" p_nm)), g1)
      else
        let (random_no, g2) := uniform g1 in
        (Ret (if dgt random_no p_nm then None else Some act), g2).
Proof.
  intros Hvol Htp. apply dlt_false_iff in Hvol.
  unfold_evaluator. rewrite Hvol, Htp. simpl.
  unfold multi_action.
  destruct (uniform g) as [u g1]. simpl.
  destruct (is_PNone _); [ reflexivity | ].
  destruct (dgt _ 1); [ reflexivity | ].
  destruct (uniform g1) as [u2 g2].
  destruct (dgt u2 _); reflexivity.
Qed.

(** C2, as the code has it.  Once a probability has been computed (the pair
    has passed the gates of the stochastic pair evaluator; the group
    evaluator has a cell, one test particle and a final state), a value
    above 1 makes the evaluator throw a runtime error, and nothing is
    clamped: a value of at most 1 is compared with the next uniform draw,
    the action is returned when the draw does not exceed it, and no action
    and no error otherwise.  The error message reads "Probability larger
    than 1 for stochastic rates. ( P = <value> )" followed by "Use smaller
    timesteps." (with [P_nm] for the group evaluator): it names the
    stochastic rates and the probability value, nothing else. *)
Theorem probability_overflow_is_fatal (data_a data_b : ParticleData)
    (plist : ParticleList) (dt : double) (beam_momentum : list FourVector)
    (cell_vol : double) (g : Rng) :
  (coll_crit_ f = Stochastic ->
   passes_gates f data_a data_b dt beam_momentum cell_vol ->
   let '(act, g1) :=
     pair_action_with_channels f data_a data_b dt beam_momentum g in
   let prob := pair_probability f data_a data_b dt cell_vol act in
   (1 < prob ->
    check_collision_two_part f data_a data_b dt beam_momentum cell_vol g
    = (Throw (runtime_error (probability_message "P" prob)), g1))
   /\ (prob <= 1 ->
       check_collision_two_part f data_a data_b dt beam_momentum cell_vol g
       = let (u, g2) := uniform g1 in
         (Ret (if dgt u prob then None else Some act), g2)))
  /\ (really_small <= cell_vol ->
      testparticles_ f = 1%Z ->
      let (u, g1) := uniform g in
      let act := multi_action plist dt u in
      multi_process_type act <> PNone ->
      let p_nm := probability_multi act dt cell_vol in
      (1 < p_nm ->
       check_collision_multi_part f plist dt cell_vol g
       = (Throw (runtime_error (probability_message "P_nm" p_nm)), g1))
      /\ (p_nm <= 1 ->
          check_collision_multi_part f plist dt cell_vol g
          = let (random_no, g2) := uniform g1 in
            (Ret (if dgt random_no p_nm then None else Some act), g2)))
  /\ (forall (label : string) (prob : double),
        probability_message label prob
        = [ Text ("Probability larger than 1 for stochastic rates. ( "
                  ++ label ++ " = ");
            Num prob;
            Text (" )" ++ nl ++ "Use smaller timesteps.") ]%string
        /\ mentions (probability_message label prob) prob = true).
Proof.
  split; [ | split ].
  - intros Hcrit Hgates.
    rewrite (two_part_after_gates _ _ _ _ _ g Hgates), Hcrit.
    destruct (pair_action_with_channels f data_a data_b dt beam_momentum g)
      as [act g1].
    cbv zeta. split; intros Hp.
    + apply dgt_true_iff in Hp. rewrite Hp. reflexivity.
    + apply dgt_false_iff in Hp. rewrite Hp. reflexivity.
  - intros Hvol Htp.
    rewrite (multi_part_after_gates plist dt cell_vol g Hvol Htp).
    destruct (uniform g) as [u g1]. cbv zeta. intros Hpt.
    destruct (multi_process_type (multi_action plist dt u)) eqn:Ept;
      [ congruence | ].
    simpl. split; intros Hp.
    + apply dgt_true_iff in Hp. rewrite Hp. reflexivity.
    + apply dgt_false_iff in Hp. rewrite Hp. reflexivity.
  - intros label prob. split; [ reflexivity | ].
    unfold mentions, probability_message, deq. simpl.
    rewrite Qeq_bool_refl. reflexivity.
Qed.

(** C3, as the code has it.  An action returned by
    [check_collision_two_part] has a time until collision in [0, dt).  An
    action returned by [check_collision_multi_part] has the time [dt * u]
    for the uniform draw [u], which is not checked against the timestep: it
    lies in [0, dt) when [dt] is positive and [u] lies in [0, 1). *)
Theorem time_until_collision_in_step (data_a data_b : ParticleData)
    (plist : ParticleList) (dt : double) (beam_momentum : list FourVector)
    (cell_vol : double) (g : Rng) :
  (forall (act : ScatterAction) (g' : Rng),
      check_collision_two_part f data_a data_b dt beam_momentum cell_vol g
      = (Ret (Some act), g') ->
      0 <= time_until_collision act /\ time_until_collision act < dt)
  /\ (0 < dt ->
      0 <= fst (uniform g) /\ fst (uniform g) < 1 ->
      forall (act : ScatterActionMulti) (g' : Rng),
        check_collision_multi_part f plist dt cell_vol g
        = (Ret (Some act), g') ->
        multi_time_until_collision act = dt * fst (uniform g)
        /\ 0 <= multi_time_until_collision act
        /\ multi_time_until_collision act < dt).
Proof.
  split.
  - intros act g'. unfold_evaluator.
    destruct (0 <=? id data_a)%Z; [ | discriminate ].
    destruct (0 <=? id data_b)%Z; [ | discriminate ].
    destruct (spectators f data_a data_b) as [[|] | | | |];
      try discriminate.
    destruct (_ && dlt cell_vol really_small)%bool; [ discriminate | ].
    destruct (dlt _ 0 || dge _ dt)%bool eqn:Et; [ discriminate | ].
    apply timing_check_iff in Et.
    destruct (_ && dge _ _)%bool; [ discriminate | ].
    destruct (add_all_scatterings f _ g) as [chs g1].
    assert (Htime :
              time_until_collision
                (set_collision_channels
                   (if strings_switch_ f
                    then set_string_interface
                           (make_ScatterAction data_a data_b
                              (collision_time f data_a data_b dt
                                 beam_momentum)
                              (isotropic_ f) (string_formation_time_ f))
                    else make_ScatterAction data_a data_b
                           (collision_time f data_a data_b dt beam_momentum)
                           (isotropic_ f) (string_formation_time_ f))
                   chs)
              = collision_time f data_a data_b dt beam_momentum)
      by (destruct (strings_switch_ f); reflexivity).
    destruct (coll_crit_ f);
      repeat match goal with
             | |- context [if ?c then _ else _] => destruct c
             | |- context [let (_, _) := uniform ?r in _] =>
                 destruct (uniform r)
             end;
      intros E; try discriminate;
      injection E as <- _; rewrite Htime; exact Et.
  - intros Hdt [Hu0 Hu1] act g'. unfold_evaluator.
    destruct (dlt cell_vol really_small); [ discriminate | ].
    destruct (negb _); [ discriminate | ].
    destruct (uniform g) as [u g1]. simpl in Hu0, Hu1 |- *.
    destruct (is_PNone _); [ discriminate | ].
    destruct (dgt _ 1); [ discriminate | ].
    destruct (uniform g1) as [u2 g2].
    destruct (dgt u2 _); [ discriminate | ].
    intros E. injection E as <- _. simpl.
    split; [ reflexivity | split ].
    + apply Qmult_le_0_compat; [ apply Qlt_le_weak; exact Hdt | exact Hu0 ].
    + apply Qlt_le_trans with (dt * 1).
      * apply Qmult_lt_l; assumption.
      * rewrite Qmult_1_r. apply Qle_refl.
Qed.

(** C6.  Under the geometric criterion the distance of a pair is
    [transverse_distance_sqr] of the action object as it is created, under
    the covariant criterion it is [cov_transverse_distance_sqr].  A pair
    that has passed the asserts, the spectator test, the timing check and
    the distance pre-filter (this distance lies below
    [max_transverse_distance_sqr]) is turned away when both particles carry
    the same nonzero id of their last process; otherwise the action is
    returned exactly when this distance is strictly below the scaled total
    cross section ([cross_section() * fm2_mb / testparticles_] times the two
    scaling factors) times [M_1_PI], that is, divided by pi, and no action
    is returned when it is not. *)
Theorem geometric_decision (data_a data_b : ParticleData) (dt : double)
    (beam_momentum : list FourVector) (cell_vol : double) (g : Rng)
    (distance : ScatterAction -> double) :
  (coll_crit_ f = Geometric /\ distance = transverse_distance_sqr)
  \/ (coll_crit_ f = Covariant /\ distance = cov_transverse_distance_sqr) ->
  (0 <= id data_a)%Z -> (0 <= id data_b)%Z ->
  spectators f data_a data_b = Ret false ->
  let t := collision_time f data_a data_b dt beam_momentum in
  0 <= t /\ t < dt ->
  let distance_squared :=
    distance (pair_action f data_a data_b dt beam_momentum) in
  distance_squared < max_transverse_distance_sqr f (testparticles_ f) ->
  let '(act, g1) :=
    pair_action_with_channels f data_a data_b dt beam_momentum g in
  let xs :=
    cross_section act * fm2_mb / inject_Z (testparticles_ f)
    * xsec_scaling_factor data_a t * xsec_scaling_factor data_b t in
  let result :=
    check_collision_two_part f data_a data_b dt beam_momentum cell_vol g in
  (just_collided data_a data_b -> result = (Ret None, g1))
  /\ (~ just_collided data_a data_b ->
      (result = (Ret (Some act), g1) <-> distance_squared < xs * M_1_PI)
      /\ (result = (Ret None, g1) <-> ~ distance_squared < xs * M_1_PI)).
Proof.
  intros Hcrit Na Nb Hs t Ht d2 Hd.
  assert (Hd2 : distance_squared_of f
                  (pair_action f data_a data_b dt beam_momentum) = d2).
  { unfold distance_squared_of, d2.
    destruct Hcrit as [[-> ->] | [-> ->]]; reflexivity. }
  assert (Hgates : passes_gates f data_a data_b dt beam_momentum cell_vol).
  { unfold passes_gates. rewrite Hd2.
    repeat split; try assumption; try apply Ht.
    - intros E. destruct Hcrit as [[E' _] | [E' _]]; congruence.
    - intros _. exact Hd. }
  pose proof (two_part_after_gates _ _ _ _ _ g Hgates) as E.
  rewrite Hd2 in E.
  assert (Hxs : forall act g1,
             pair_action_with_channels f data_a data_b dt beam_momentum g
             = (act, g1) ->
             scaled_cross_section f data_a data_b act
             = cross_section act * fm2_mb / inject_Z (testparticles_ f)
               * xsec_scaling_factor data_a t
               * xsec_scaling_factor data_b t).
  { intros act g1 Ea.
    unfold pair_action_with_channels, pair_action in Ea.
    destruct (add_all_scatterings f _ g) as [chs g'].
    injection Ea as <- _.
    unfold scaled_cross_section, t.
    destruct (strings_switch_ f); reflexivity. }
  destruct (pair_action_with_channels f data_a data_b dt beam_momentum g)
    as [act g1].
  specialize (Hxs act g1 eq_refl).
  cbv zeta. rewrite <- Hxs.
  set (xs := scaled_cross_section f data_a data_b act) in *.
  assert (Hjc : ((0 <? id_process data_a)%N
                 && (id_process data_a =? id_process data_b)%N)%bool = true
                <-> just_collided data_a data_b).
  { unfold just_collided.
    rewrite andb_true_iff, N.ltb_lt, N.eqb_eq. lia. }
  assert (Hgeo :
            check_collision_two_part f data_a data_b dt beam_momentum
              cell_vol g
            = if ((0 <? id_process data_a)%N
                  && (id_process data_a =? id_process data_b)%N)%bool
              then (Ret None, g1)
              else (Ret (if dge d2 (xs * M_1_PI) then None else Some act),
                    g1))
    by (rewrite E; destruct Hcrit as [[-> _] | [-> _]]; reflexivity).
  rewrite Hgeo. clear Hgeo E.
  split.
  - intros Hj. apply Hjc in Hj. rewrite Hj. reflexivity.
  - intros Hj.
    destruct ((0 <? id_process data_a)%N
              && (id_process data_a =? id_process data_b)%N)%bool eqn:E;
      [ exfalso; apply Hj, Hjc; reflexivity | ].
    destruct (dge d2 (xs * M_1_PI)) eqn:Ed.
    + apply dge_true_iff in Ed.
      assert (Hn : ~ d2 < xs * M_1_PI) by (apply Qle_not_lt; exact Ed).
      split; split; intros H;
        solve [ discriminate | reflexivity | exact Hn
              | exfalso; apply Hn; exact H ].
    + apply dge_false_iff in Ed.
      split; split; intros H;
        solve [ discriminate | reflexivity | exact Ed
              | exfalso; apply H; exact Ed ].
Qed.

End Evaluators.

(** ** The evaluators on the concrete scenarios *)

Ltac by_computation :=
  vm_compute; first [ reflexivity | discriminate | intro; discriminate ].

Lemma spectator_exclusion_witness :
  @check_collision_two_part close_pair_physics
    (finder Geometric 1 fresh_nuclei) (particle 0 0) (particle 1 0) 1 [] 1 []
  = (Ret None, []).
Proof.
  apply (@spectator_exclusion close_pair_physics
           (finder Geometric 1 fresh_nuclei) (particle 0 0) (particle 1 0)
           1 [] 1 []).
  - reflexivity.
  - reflexivity.
  - left. split; reflexivity.
  - reflexivity.
  - reflexivity.
Defined.

Lemma overflow_gates :
  @passes_gates overflow_physics (finder Stochastic 1 fresh_nuclei)
    (particle 0 0) (particle 2 0) 2 [] (1 # 3).
Proof.
  unfold passes_gates. repeat split; by_computation.
Defined.

Lemma probability_overflow_is_fatal_witness :
  @check_collision_two_part overflow_physics
    (finder Stochastic 1 fresh_nuclei) (particle 0 0) (particle 2 0) 2 []
    (1 # 3) []
  = (Throw (runtime_error
              (probability_message "P" (50 * (1 # 10) / 1 * 1 * 1 * (1 # 2)
                                        * 2 / (1 # 3)))), []).
Proof.
  pose proof (proj1 (@probability_overflow_is_fatal overflow_physics
                       (finder Stochastic 1 fresh_nuclei) (particle 0 0)
                       (particle 2 0) triple 2 [] (1 # 3) []))
    as H.
  specialize (H eq_refl overflow_gates). simpl in H.
  destruct H as [H _]. apply H. reflexivity.
Defined.

(** C2 as stated fails: the message of the fatal error does not carry the
    quantities the probability was computed from.  Here the probability 15
    comes from a cross section of 5 fm^2, a relative velocity of 1/2, a
    timestep of 2 and a cell volume of 1/3; the message holds the 15 only. *)
Lemma overflow_message_counterexample :
  let f := finder Stochastic 1 fresh_nuclei in
  let data_a := particle 0 0 in
  let data_b := particle 2 0 in
  let act :=
    fst (@pair_action_with_channels overflow_physics f data_a data_b 2 [] [])
  in
  exists what : Message,
    fst (@check_collision_two_part overflow_physics f data_a data_b 2 []
           (1 # 3) [])
    = Throw (runtime_error what)
    /\ mentions what
         (@pair_probability overflow_physics f data_a data_b 2 (1 # 3) act)
       = true
    /\ mentions what
         (@scaled_cross_section overflow_physics f data_a data_b act)
       = false
    /\ mentions what (@relative_velocity overflow_physics act) = false
    /\ mentions what 2 = false
    /\ mentions what (1 # 3) = false.
Proof.
  cbv zeta. eexists. split; [ vm_compute; reflexivity | ].
  repeat split; vm_compute; reflexivity.
Qed.

Lemma time_until_collision_in_step_witness :
  let act := mkScatterActionMulti triple (1 * (1 # 20)) (PSome 1) in
  @check_collision_multi_part close_pair_physics
    (finder Stochastic 1 fresh_nuclei) triple 1 1 [1 # 20; 1 # 4]
  = (Ret (Some act), [])
  /\ multi_time_until_collision act = 1 * (1 # 20)
  /\ 0 <= multi_time_until_collision act
  /\ multi_time_until_collision act < 1.
Proof.
  cbv zeta. split; [ reflexivity | ].
  apply (proj2 (@time_until_collision_in_step close_pair_physics
                  (finder Stochastic 1 fresh_nuclei) (particle 0 0)
                  (particle 2 0) triple 1 [] 1 [1 # 20; 1 # 4]))
    with (g' := @nil Q).
  - reflexivity.
  - split; by_computation.
  - reflexivity.
Defined.

(** C3 as stated fails for the group evaluator: with a timestep of length
    zero, probability zero and a draw of zero it returns an action, whose
    time 0 is not below the timestep. *)
Lemma zero_timestep_counterexample :
  exists (act : ScatterActionMulti) (g' : list double),
    @check_collision_multi_part zero_probability_physics
      (finder Stochastic 1 fresh_nuclei) triple 0 1 [0; 0]
    = (Ret (Some act), g')
    /\ ~ (0 <= multi_time_until_collision act
          /\ multi_time_until_collision act < 0).
Proof.
  eexists. eexists. split; [ vm_compute; reflexivity | ].
  simpl. intros [_ H]. revert H. by_computation.
Qed.

Lemma small_cell_rejects_witness :
  @check_collision_multi_part close_pair_physics
    (finder Stochastic 1 fresh_nuclei) triple 1 0 [1 # 20]
  = (Ret None, [1 # 20])
  /\ @check_collision_two_part close_pair_physics
       (finder Stochastic 1 fresh_nuclei) (particle 0 0) (particle 2 0) 1 []
       0 [1 # 20]
     = (Ret None, [1 # 20]).
Proof.
  destruct (@small_cell_rejects close_pair_physics
              (finder Stochastic 1 fresh_nuclei) (particle 0 0)
              (particle 2 0) triple 1 [] 0 [1 # 20])
    as [Hm Hp].
  - reflexivity.
  - split; [ exact Hm | ].
    apply Hp; by_computation.
Defined.

(** C4 as stated fails for the pair evaluator: under the geometric criterion
    the cell volume is not looked at, and a pair at distance zero collides in
    a cell of volume zero. *)
Lemma small_cell_geometric_counterexample :
  0 < @really_small close_pair_physics
  /\ exists (act : ScatterAction) (g' : list double),
       @check_collision_two_part close_pair_physics
         (finder Geometric 1 fresh_nuclei) (particle 0 0) (particle 2 0) 1 []
         0 []
       = (Ret (Some act), g').
Proof.
  split; [ reflexivity | ].
  eexists. eexists. vm_compute. reflexivity.
Qed.

Lemma testparticles_fatal_witness :
  @check_collision_multi_part close_pair_physics
    (finder Stochastic 2 fresh_nuclei) triple 1 1 [1 # 20]
  = (Throw (runtime_error testparticles_message), [1 # 20]).
Proof.
  apply (@testparticles_fatal close_pair_physics
           (finder Stochastic 2 fresh_nuclei) triple 1 1 [1 # 20]).
  - discriminate.
  - by_computation.
Defined.

(** C5 as stated fails: with two test particles and a cell volume below
    [really_small] the group evaluator returns no action and raises
    nothing. *)
Lemma testparticles_small_cell_counterexample :
  testparticles_ (finder Stochastic 2 fresh_nuclei) <> 1%Z
  /\ @check_collision_multi_part close_pair_physics
       (finder Stochastic 2 fresh_nuclei) triple 1 0 [1 # 20]
     = (Ret None, [1 # 20]).
Proof.
  split; [ discriminate | reflexivity ].
Qed.

Lemma geometric_decision_witness :
  (exists act : ScatterAction,
      @check_collision_two_part glancing_pair_physics
        (finder Geometric 1 fresh_nuclei) (particle 0 7) (particle 2 0) 1 []
        0 []
      = (Ret (Some act), []))
  /\ @check_collision_two_part glancing_pair_physics
       (finder Covariant 1 fresh_nuclei) (particle 0 7) (particle 2 0) 1 []
       0 []
     = (Ret None, []).
Proof.
  assert (Ht : 0 <= 1 # 2 /\ 1 # 2 < 1) by (split; by_computation).
  split.
  - assert (Hd : 1 # 4 < 100) by reflexivity.
    pose proof (@geometric_decision glancing_pair_physics
                  (finder Geometric 1 fresh_nuclei) (particle 0 7)
                  (particle 2 0) 1 [] 0 []
                  (@transverse_distance_sqr glancing_pair_physics)
                  (or_introl (conj eq_refl eq_refl))
                  ltac:(discriminate) ltac:(discriminate) eq_refl Ht Hd)
      as H.
    simpl in H. destruct H as [_ H].
    destruct H as [[_ H] _].
    + intros [_ E]. discriminate E.
    + eexists. apply H. reflexivity.
  - assert (Hd : 2 < 100) by reflexivity.
    pose proof (@geometric_decision glancing_pair_physics
                  (finder Covariant 1 fresh_nuclei) (particle 0 7)
                  (particle 2 0) 1 [] 0 []
                  (@cov_transverse_distance_sqr glancing_pair_physics)
                  (or_intror (conj eq_refl eq_refl))
                  ltac:(discriminate) ltac:(discriminate) eq_refl Ht Hd)
      as H.
    simpl in H. destruct H as [_ H].
    destruct H as [_ [_ H]].
    + intros [_ E]. discriminate E.
    + apply H. by_computation.
Defined.

(** ** std::sort *)

Section StdSort.

Context {A : Type} (less : A -> A -> bool).

Local Abbreviation follows := (may_follow less).

Lemma sort_insert_perm (x : A) (l : list A) :
  Permutation (sort_insert less x l) (x :: l).
Proof.
  induction l as [| y l IH]; simpl.
  - apply Permutation_refl.
  - destruct (less y x).
    + apply perm_trans with (y :: x :: l).
      * apply perm_skip. exact IH.
      * apply perm_swap.
    + apply Permutation_refl.
Qed.

Lemma std_sort_perm (l : list A) : Permutation (std_sort less l) l.
Proof.
  induction l as [| x l IH]; simpl.
  - apply perm_nil.
  - apply perm_trans with (x :: std_sort less l).
    + apply sort_insert_perm.
    + apply perm_skip. exact IH.
Qed.

(** A sorted range is left as it is. *)
Lemma std_sort_sorted_id (l : list A) :
  Sorted follows l -> std_sort less l = l.
Proof.
  induction 1 as [| x l Hs IH Hd]; simpl.
  - reflexivity.
  - rewrite IH. destruct Hd as [| y l Hxy]; simpl.
    + reflexivity.
    + unfold may_follow in Hxy. rewrite Hxy. reflexivity.
Qed.

Hypothesis less_asym : forall a b, less a b = true -> less b a = false.

Lemma sort_insert_HdRel (y x : A) (l : list A) :
  follows y x -> HdRel follows y l -> HdRel follows y (sort_insert less x l).
Proof.
  intros Hyx Hd. destruct l as [| z l]; simpl.
  - constructor. exact Hyx.
  - destruct (less z x); constructor.
    + inversion Hd. assumption.
    + exact Hyx.
Qed.

Lemma sort_insert_sorted (x : A) (l : list A) :
  Sorted follows l -> Sorted follows (sort_insert less x l).
Proof.
  induction 1 as [| y l Hs IH Hd]; simpl.
  - repeat constructor.
  - destruct (less y x) eqn:E.
    + constructor; [ exact IH | ].
      apply sort_insert_HdRel; [ | exact Hd ].
      unfold may_follow. apply less_asym. exact E.
    + constructor.
      * constructor; assumption.
      * constructor. exact E.
Qed.

Lemma std_sort_sorted (l : list A) : Sorted follows (std_sort less l).
Proof.
  induction l as [| x l IH]; simpl.
  - constructor.
  - apply sort_insert_sorted. exact IH.
Qed.

End StdSort.

Lemma string_ltb_asym (s1 s2 : string) :
  String.ltb s1 s2 = true -> String.ltb s2 s1 = false.
Proof.
  unfold String.ltb. rewrite (String.compare_antisym s2 s1).
  destruct (String.compare s1 s2); simpl; congruence.
Qed.

Lemma string_ltb_trans (s1 s2 s3 : string) :
  String.ltb s1 s2 = true -> String.ltb s2 s3 = true ->
  String.ltb s1 s3 = true.
Proof.
  unfold String.ltb. intros H12 H23.
  destruct (String.compare s1 s2) eqn:E12; try discriminate.
  destruct (String.compare s2 s3) eqn:E23; try discriminate.
  apply String_as_OT.cmp_lt in E12, E23.
  pose proof (String_as_OT.lt_trans _ _ _ E12 E23) as H13.
  apply String_as_OT.cmp_lt in H13. unfold String_as_OT.cmp in H13.
  rewrite H13. reflexivity.
Qed.

Lemma string_ltb_total (s1 s2 : string) :
  String.ltb s1 s2 = false -> String.ltb s2 s1 = false -> s1 = s2.
Proof.
  unfold String.ltb. rewrite (String.compare_antisym s2 s1).
  destruct (String.compare s1 s2) eqn:E; simpl; try discriminate.
  intros _ _. apply String.compare_eq_iff. exact E.
Qed.

Lemma string_ltb_irrefl (s : string) : String.ltb s s = false.
Proof.
  destruct (String.ltb s s) eqn:E; [ | reflexivity ].
  rewrite (string_ltb_asym _ _ E) in E. discriminate.
Qed.

Lemma string_may_follow_trans (a b c : string) :
  may_follow String.ltb a b -> may_follow String.ltb b c ->
  may_follow String.ltb a c.
Proof.
  unfold may_follow. intros Hab Hbc.
  destruct (String.ltb c a) eqn:Hca; [ | reflexivity ].
  destruct (String.ltb b c) eqn:Hcb.
  - rewrite (string_ltb_trans _ _ _ Hcb Hca) in Hab. discriminate.
  - rewrite (string_ltb_total _ _ Hcb Hbc) in Hab. congruence.
Qed.

(** ** The decay tree: add_action *)

Section DecayTree.

Import decaytree.

Variable db : Registry.

Lemma name_less_asym (a b : ParticleTypePtr) :
  name_less db a b = true -> name_less db b a = false.
Proof. apply string_ltb_asym. Qed.

Lemma erase_find_perm (p : ParticleTypePtr) (state rest : list ParticleTypePtr) :
  erase_find p state = Ret rest -> Permutation state (p :: rest).
Proof.
  revert rest. induction state as [| q state IH]; simpl; intros rest E.
  - discriminate.
  - destruct (Nat.eqb q p) eqn:Eq.
    + apply Nat.eqb_eq in Eq. injection E as <-. subst q.
      apply Permutation_refl.
    + destruct (erase_find p state) as [r | | | |]; try discriminate.
      simpl in E. injection E as <-.
      apply perm_trans with (q :: p :: r).
      * apply perm_skip. apply IH. reflexivity.
      * apply perm_swap.
Qed.

Lemma erase_find_defined (p : ParticleTypePtr) (state : list ParticleTypePtr) :
  In p state -> exists rest, erase_find p state = Ret rest.
Proof.
  induction state as [| q state IH]; simpl; intros Hin.
  - contradiction.
  - destruct (Nat.eqb q p) eqn:Eq; [ eauto | ].
    destruct Hin as [-> | Hin]; [ rewrite Nat.eqb_refl in Eq; discriminate | ].
    destruct (IH Hin) as [rest ->]. simpl. eauto.
Qed.

Lemma erase_all_perm (ps state rest : list ParticleTypePtr) :
  erase_all ps state = Ret rest -> Permutation state (ps ++ rest).
Proof.
  revert state rest. induction ps as [| p ps IH]; simpl; intros state rest E.
  - injection E as <-. apply Permutation_refl.
  - destruct (erase_find p state) as [r | | | |] eqn:Ef; try discriminate.
    simpl in E. apply erase_find_perm in Ef. apply IH in E.
    apply perm_trans with (p :: r); [ exact Ef | ].
    apply perm_skip. exact E.
Qed.

(** The initial particles can be taken out of a state they are part of. *)
Lemma erase_all_defined (ps state others : list ParticleTypePtr) :
  Permutation state (ps ++ others) ->
  exists rest, erase_all ps state = Ret rest.
Proof.
  revert state. induction ps as [| p ps IH]; simpl; intros state Hp.
  - eauto.
  - destruct (erase_find_defined p state) as [r Hr].
    { apply Permutation_in with (p :: ps ++ others).
      - apply Permutation_sym. exact Hp.
      - left. reflexivity. }
    rewrite Hr. simpl. apply IH.
    apply erase_find_perm in Hr.
    apply Permutation_cons_inv with p.
    apply perm_trans with state; [ apply Permutation_sym; exact Hr | exact Hp ].
Qed.

Lemma add_action_inv (node : Node) (nm : string) (w : double)
    (initial final : list ParticleTypePtr) (node' : Node) :
  add_action db node nm w initial final = Ret node' ->
  exists rest,
    erase_all initial (state_ node) = Ret rest
    /\ node' = emplace_back node
                 (mkNode nm w initial final
                    (std_sort (name_less db) (rest ++ final)) []).
Proof.
  unfold add_action.
  destruct (erase_all initial (state_ node)) as [rest | | | |];
    try discriminate.
  simpl. intros E. injection E as <-. eauto.
Qed.

Lemma back_emplace_back (node c : Node) :
  back (emplace_back node c) = Ret c.
Proof.
  unfold back, emplace_back. simpl. rewrite rev_app_distr. reflexivity.
Qed.

Lemma set_back_emplace_back (node c c' : Node) :
  set_back (emplace_back node c) c'
  = set_children node (children_ node ++ [c']).
Proof.
  unfold set_back, emplace_back. simpl. rewrite removelast_last.
  reflexivity.
Qed.

Lemma tree_inv_children (n : Node) :
  tree_inv db n ->
  Forall (fun c => state_of_child db n c /\ tree_inv db c) (children_ n).
Proof. intros H. inversion H. assumption. Qed.

Lemma tree_inv_leaf (n : Node) : children_ n = [] -> tree_inv db n.
Proof. intros E. constructor. rewrite E. constructor. Qed.

Lemma state_of_child_same_state (n n' c : Node) :
  state_ n' = state_ n -> state_of_child db n c -> state_of_child db n' c.
Proof. unfold state_of_child. intros ->. tauto. Qed.

Lemma state_of_child_same_action (n c c' : Node) :
  same_action c c' -> state_of_child db n c -> state_of_child db n c'.
Proof.
  unfold state_of_child, same_action.
  intros (_ & -> & -> & ->). tauto.
Qed.

(** Appending a child that stands in the relation keeps the invariant. *)
Lemma tree_inv_push (n c : Node) :
  tree_inv db n -> state_of_child db n c -> tree_inv db c ->
  tree_inv db (set_children n (children_ n ++ [c])).
Proof.
  intros Hn Hc Hinv. constructor. simpl.
  apply Forall_app. split.
  - apply tree_inv_children in Hn.
    eapply Forall_impl; [ | exact Hn ].
    intros x [Hx1 Hx2]. split; [ | exact Hx2 ].
    apply state_of_child_same_state with n; [ reflexivity | exact Hx1 ].
  - constructor; [ | constructor ].
    split; [ | exact Hinv ].
    apply state_of_child_same_state with n; [ reflexivity | exact Hc ].
Qed.

(** The node [add_action] creates stands in the relation to its parent. *)
Lemma new_child_state_of_child (parent : Node) (nm : string) (w : double)
    (initial final rest : list ParticleTypePtr) :
  erase_all initial (state_ parent) = Ret rest ->
  state_of_child db parent
    (mkNode nm w initial final (std_sort (name_less db) (rest ++ final)) []).
Proof.
  intros Hrest. apply erase_all_perm in Hrest. split; simpl.
  - apply perm_trans with (initial ++ rest ++ final).
    + apply Permutation_app_head. apply std_sort_perm.
    + rewrite app_assoc. apply Permutation_app_tail.
      apply Permutation_sym. exact Hrest.
  - unfold name_ordered.
    apply (std_sort_sorted (name_less db)). exact name_less_asym.
Qed.

(** C8.  [add_action] appends one child and leaves the rest of the node
    alone.  The child's state is the parent's state with the child's
    initial particles taken out and its final particles put in (as
    multisets: initial particles plus child state make up parent state plus
    final particles), in ascending order of the particle type names: the
    name of a particle type of the state is never less, as a string, than
    the name of one in front of it.  Hence the relation holds between every
    node and its parent in a tree grown by [add_action]: the invariant
    [tree_inv] is kept by [add_action], and also when the new child, reached
    through the returned reference, is grown further. *)
Theorem add_action_child_state (parent : Node) (nm : string) (w : double)
    (initial final : list ParticleTypePtr) (parent' : Node) :
  add_action db parent nm w initial final = Ret parent' ->
  exists child : Node,
    children_ parent' = children_ parent ++ [child]
    /\ back parent' = Ret child
    /\ same_action parent parent'
    /\ weight_ parent' = weight_ parent
    /\ name_ child = nm /\ weight_ child = w
    /\ initial_particles_ child = initial
    /\ final_particles_ child = final
    /\ children_ child = []
    /\ Permutation (initial ++ state_ child) (state_ parent ++ final)
    /\ StronglySorted
         (fun a b => String.ltb (name (db b)) (name (db a)) = false)
         (state_ child)
    /\ (tree_inv db parent -> tree_inv db parent')
    /\ (tree_inv db parent ->
        forall grown : Node,
          same_action child grown -> tree_inv db grown ->
          tree_inv db (set_back parent' grown)).
Proof.
  intros E. apply add_action_inv in E. destruct E as (rest & Hrest & ->).
  set (child := mkNode nm w initial final
                  (std_sort (name_less db) (rest ++ final)) []).
  assert (Hrel : state_of_child db parent child)
    by (apply new_child_state_of_child; exact Hrest).
  destruct Hrel as [Hperm Hord].
  assert (Hrel : state_of_child db parent child) by (split; assumption).
  exists child.
  repeat match goal with |- _ /\ _ => split end;
    try reflexivity; try assumption.
  - apply back_emplace_back.
  - unfold same_action. repeat split.
  - apply Sorted_StronglySorted; [ | exact Hord ].
    intros a b c. apply string_may_follow_trans.
  - intros Hinv. apply tree_inv_push; try assumption.
    apply tree_inv_leaf. reflexivity.
  - intros Hinv grown Hsame Hgrown.
    rewrite set_back_emplace_back.
    apply tree_inv_push; try assumption.
    apply state_of_child_same_action with child; assumption.
Qed.

(** [add_action] is defined whenever the initial particles are part of the
    state. *)
Lemma add_action_defined (parent : Node) (nm : string) (w : double)
    (initial final others : list ParticleTypePtr) :
  Permutation (state_ parent) (initial ++ others) ->
  exists parent', add_action db parent nm w initial final = Ret parent'.
Proof.
  intros Hp. unfold add_action.
  destruct (erase_all_defined initial (state_ parent) others Hp)
    as [rest ->].
  simpl. eauto.
Qed.

(** ** The decay tree: add_decays *)

Lemma same_action_refl (n : Node) : same_action n n.
Proof. unfold same_action. repeat split. Qed.

Lemma same_action_trans (n1 n2 n3 : Node) :
  same_action n1 n2 -> same_action n2 n3 -> same_action n1 n3.
Proof.
  unfold same_action.
  intros (-> & -> & -> & ->) (-> & -> & -> & ->). repeat split.
Qed.

Section Loops.

Variable rec : Node -> double -> Outcome Node.
Variables norm sqrts_minus_masses : double.

(** The recursive call keeps the action of its node and the invariant. *)
Hypothesis rec_ok :
  forall c s c',
    rec c s = Ret c' ->
    same_action c c' /\ (tree_inv db c -> tree_inv db c').



(** A particle type all of whose decay modes are too heavy adds no
    child and leaves [can_decay] as it is. *)
Lemma decay_mode_loop_blocked (ptype : ParticleTypePtr)
    (sqrts_decay : double) (modes : list DecayBranch) (node : Node)
    (can_decay : bool) :
  Forall (fun decay =>
            dgt (sum_masses db (decay_particle_types decay) 0) sqrts_decay
            = true) modes ->
  decay_mode_loop db rec norm ptype sqrts_decay modes node can_decay
  = Ret (node, can_decay).
Proof.
  induction 1 as [| decay modes Hd _ IH]; simpl.
  - reflexivity.
  - rewrite Hd. exact IH.
Qed.

(** At an unstable particle type without an open decay mode the loop
    over the state ends: the result is what the particle types before it
    have produced, with weight zero. *)
Lemma particle_loop_blocked (p : ParticleTypePtr)
    (post : list ParticleTypePtr) :
  is_stable (db p) = false ->
  Forall (fun decay =>
            dgt (sum_masses db (decay_particle_types decay) 0)
              (sqrts_minus_masses + mass (db p)) = true)
    (decay_mode_list (db p)) ->
  forall (pre : list ParticleTypePtr) (node : Node),
    particle_loop db rec norm sqrts_minus_masses (pre ++ p :: post) node
    = obind (particle_loop db rec norm sqrts_minus_masses pre node)
        (fun n1 => Ret (set_weight n1 0)).
Proof.
  intros Hp Hblocked. induction pre as [| q pre IH]; intros node; simpl.
  - rewrite Hp. simpl.
    rewrite (decay_mode_loop_blocked p _ _ node false Hblocked).
    reflexivity.
  - destruct (negb (is_stable (db q))); [ | apply IH ].
    destruct (decay_mode_loop db rec norm q _ _ node false)
      as [[n1 cd] | | | |]; try reflexivity.
    simpl. destruct (negb cd); [ reflexivity | apply IH ].
Qed.

Lemma particle_loop_stable (ptypes : list ParticleTypePtr) (node : Node) :
  Forall (fun q => is_stable (db q) = true) ptypes ->
  particle_loop db rec norm sqrts_minus_masses ptypes node = Ret node.
Proof.
  induction 1 as [| q ptypes Hq _ IH]; simpl.
  - reflexivity.
  - rewrite Hq. exact IH.
Qed.

End Loops.


(** ** The energy left for a decay *)

Lemma sum_masses_init (l : list ParticleTypePtr) (init : double) :
  sum_masses db l init == init + sum_masses db l 0.
Proof.
  unfold sum_masses. revert init.
  induction l as [| p l IH]; intros init; simpl.
  - ring.
  - rewrite IH. rewrite (IH (0 + mass (db p))). ring.
Qed.

Lemma sum_masses_without (pre post : list ParticleTypePtr)
    (p : ParticleTypePtr) :
  sum_masses db (pre ++ p :: post) 0
  == sum_masses db (pre ++ post) 0 + mass (db p).
Proof.
  unfold sum_masses. rewrite !fold_left_app. simpl.
  fold (sum_masses db pre 0).
  fold (sum_masses db post (sum_masses db pre 0 + mass (db p))).
  fold (sum_masses db post (sum_masses db pre 0)).
  rewrite (sum_masses_init post (sum_masses db pre 0 + mass (db p))).
  rewrite (sum_masses_init post (sum_masses db pre 0)).
  ring.
Qed.

Lemma sqrts_minus_masses_eq (l : list ParticleTypePtr) (sqrts : double) :
  fold_left (fun acc p => acc - mass (db p)) l sqrts
  == sqrts - sum_masses db l 0.
Proof.
  revert sqrts. induction l as [| p l IH]; intros sqrts.
  - unfold sum_masses. simpl. ring.
  - simpl fold_left. rewrite IH.
    change (sum_masses db (p :: l) 0)
      with (sum_masses db l (0 + mass (db p))).
    rewrite (sum_masses_init l (0 + mass (db p))). ring.
Qed.

(** In exact arithmetic [sqrts_decay] is the energy less the pole masses of
    the other particles of the state. *)
Lemma sqrts_decay_of_exact (pre post : list ParticleTypePtr)
    (p : ParticleTypePtr) (sqrts : double) :
  sqrts_decay_of db (pre ++ p :: post) sqrts p
  == sqrts - sum_masses db (pre ++ post) 0.
Proof.
  unfold sqrts_decay_of.
  rewrite sqrts_minus_masses_eq, sum_masses_without. ring.
Qed.

(** The test of [add_decays] fails for every decay mode of [p]. *)
Lemma blocked_modes (state : list ParticleTypePtr) (sqrts : double)
    (p : ParticleTypePtr) :
  (forall decay,
      In decay (decay_mode_list (db p)) ->
      sqrts_decay_of db state sqrts p
      < sum_masses db (decay_particle_types decay) 0) ->
  Forall (fun decay =>
            dgt (sum_masses db (decay_particle_types decay) 0)
              (fold_left (fun acc q => acc - mass (db q)) state sqrts
               + mass (db p)) = true)
    (decay_mode_list (db p)).
Proof.
  intros Hheavy. apply Forall_forall. intros decay Hin.
  apply dgt_true_iff. exact (Hheavy decay Hin).
Qed.

(** [add_decays] stops at an unstable particle type without an open decay
    mode. *)
Lemma add_decays_stops (node : Node) (sqrts : double)
    (pre : list ParticleTypePtr) (p : ParticleTypePtr)
    (post : list ParticleTypePtr) (fuel : nat) :
  state_ node = pre ++ p :: post ->
  is_stable (db p) = false ->
  (forall decay,
      In decay (decay_mode_list (db p)) ->
      sqrts_decay_of db (state_ node) sqrts p
      < sum_masses db (decay_particle_types decay) 0) ->
  add_decays db (S fuel) node sqrts
  = obind (expand_over db fuel node sqrts pre)
      (fun n1 => Ret (set_weight n1 0)).
Proof.
  intros Hstate Hp Hheavy.
  apply blocked_modes in Hheavy.
  unfold expand_over. simpl.
  rewrite Hstate at 3. apply particle_loop_blocked; assumption.
Qed.


End DecayTree.

(** ** The decay tree on the small registry *)

Lemma add_action_child_state_witness :
  exists child : decaytree.Node,
    decaytree.back
      (decaytree.set_children nucleon_pair
         [decaytree.mkNode "NN->pi rho" 5 [3; 3]%nat [1; 0]%nat [0; 1]%nat []])
    = Ret child
    /\ Permutation ([3; 3]%nat ++ decaytree.state_ child)
         ([3; 3]%nat ++ [1; 0]%nat)
    /\ StronglySorted
         (fun a b =>
            String.ltb (name (small_registry b)) (name (small_registry a))
            = false)
         (decaytree.state_ child)
    /\ map (fun p => name (small_registry p)) (decaytree.state_ child)
       = ["pi"; "rho"]%string.
Proof.
  destruct (add_action_child_state small_registry nucleon_pair "NN->pi rho" 5
              [3; 3]%nat [1; 0]%nat
              (decaytree.set_children nucleon_pair
                 [decaytree.mkNode "NN->pi rho" 5 [3; 3]%nat [1; 0]%nat
                    [0; 1]%nat []]))
    as (child & _ & Hback & _ & _ & _ & _ & _ & _ & _ & Hperm & Hord & _).
  - reflexivity.
  - exists child. split; [ exact Hback | ].
    split; [ exact Hperm | ]. split; [ exact Hord | ].
    simpl in Hback. injection Hback as <-. reflexivity.
Defined.


(** ** deduplicate *)

Section Deduplicate.

Implicit Types (a b : FinalStateCrossSection)
  (v pre suf : list FinalStateCrossSection).

Local Abbreviation follows := (may_follow fsxs_less).

Lemma deduplicate_loop_step (fuel : nat) v (current : nat) :
  deduplicate_loop (S fuel) v current
  = if Nat.eqb current (List.length v) then Ret v
    else
      let adjacent := (current + adjacent_find (skipn current v))%nat in
      if Nat.eqb adjacent (List.length v)
      then deduplicate_loop fuel v adjacent
      else
        match nth_error v adjacent, nth_error v (S adjacent) with
        | Some a, Some b =>
            deduplicate_loop fuel
              (firstn adjacent v ++ add_cross_section a b
                 :: skipn (S (S adjacent)) v)
              adjacent
        | _, _ => Undefined
        end.
Proof. reflexivity. Qed.

Lemma deduplicate_loop_end (fuel : nat) v :
  deduplicate_loop fuel v (List.length v) = Ret v.
Proof. destruct fuel; simpl; rewrite Nat.eqb_refl; reflexivity. Qed.

Lemma adjacent_find_cons a b v :
  adjacent_find (a :: b :: v)
  = if String.eqb (name_ a) (name_ b) then 0%nat
    else S (adjacent_find (b :: v)).
Proof. reflexivity. Qed.

Lemma collapse_cons a b v :
  collapse (a :: b :: v)
  = if String.eqb (name_ a) (name_ b)
    then collapse (add_cross_section a b :: v)
    else a :: collapse (b :: v).
Proof. reflexivity. Qed.

(** [adjacent_find] either reaches the end, and then no run is left to
    sum, or it stops in front of the first two neighbours with the same
    name. *)
Lemma adjacent_find_spec v :
  (adjacent_find v = List.length v /\ collapse v = v)
  \/ exists s1 a b s2,
       v = s1 ++ a :: b :: s2
       /\ adjacent_find v = List.length s1
       /\ String.eqb (name_ a) (name_ b) = true
       /\ collapse v = s1 ++ collapse (add_cross_section a b :: s2).
Proof.
  induction v as [| a v IH].
  - left. split; reflexivity.
  - destruct v as [| b v].
    + left. split; reflexivity.
    + rewrite adjacent_find_cons, collapse_cons.
      destruct (String.eqb (name_ a) (name_ b)) eqn:E.
      * right. exists [], a, b, v. repeat split. exact E.
      * destruct IH as [[Hn Hc] | (s1 & a' & b' & s2 & Hv & Hn & He & Hc)].
        -- left. rewrite Hn, Hc. split; reflexivity.
        -- right. exists (a :: s1), a', b', s2. rewrite Hn, Hc.
           split; [ rewrite Hv; reflexivity | ].
           split; [ reflexivity | ].
           split; [ exact He | reflexivity ].
Qed.

Lemma collapse_fixed v :
  adjacent_find v = List.length v -> collapse v = v.
Proof.
  intros Hn.
  destruct (adjacent_find_spec v)
    as [[_ Hc] | (s1 & a & b & s2 & Hv & Hn' & _)]; [ exact Hc | ].
  rewrite Hn' in Hn. rewrite Hv in Hn at 1.
  rewrite length_app in Hn. simpl in Hn. lia.
Qed.

Lemma at_adjacent (l : list FinalStateCrossSection) a b s2 :
  nth_error (l ++ a :: b :: s2) (List.length l) = Some a
  /\ nth_error (l ++ a :: b :: s2) (S (List.length l)) = Some b
  /\ firstn (List.length l) (l ++ a :: b :: s2) = l
  /\ skipn (S (S (List.length l))) (l ++ a :: b :: s2) = s2.
Proof.
  induction l as [| x l IH]; simpl.
  - repeat split.
  - destruct IH as (H1 & H2 & H3 & H4).
    repeat split; try assumption.
    rewrite H3. reflexivity.
Qed.

Lemma skipn_prefix pre suf : skipn (List.length pre) (pre ++ suf) = suf.
Proof. induction pre; simpl; auto. Qed.

(** The loop, started at the end of [pre], leaves [pre] alone and sums the
    runs of what follows; a unit of fuel per element suffices. *)
Lemma deduplicate_loop_collapse (fuel : nat) :
  forall pre suf,
    (List.length suf <= fuel)%nat ->
    deduplicate_loop fuel (pre ++ suf) (List.length pre)
    = Ret (pre ++ collapse suf).
Proof.
  induction fuel as [| fuel IH]; intros pre suf Hlen.
  - destruct suf; [ | simpl in Hlen; lia ].
    simpl collapse. rewrite !app_nil_r. apply deduplicate_loop_end.
  - destruct suf as [| x suf'].
    { simpl collapse. rewrite !app_nil_r. apply deduplicate_loop_end. }
    remember (x :: suf') as suf eqn:Esuf.
    assert (Hpos : (0 < List.length suf)%nat)
      by (rewrite Esuf; simpl; lia).
    clear Esuf x suf'.
    rewrite deduplicate_loop_step.
    assert (Hne : Nat.eqb (List.length pre) (List.length (pre ++ suf))
                  = false)
      by (apply Nat.eqb_neq; rewrite length_app; lia).
    rewrite Hne. cbv zeta. rewrite skipn_prefix.
    destruct (adjacent_find_spec suf)
      as [[Hn Hc] | (s1 & a & b & s2 & Hv & Hn & He & Hc)].
    + rewrite Hn, <- length_app, Nat.eqb_refl, deduplicate_loop_end, Hc.
      reflexivity.
    + rewrite Hn, Hc. rewrite <- length_app.
      assert (Hv' : pre ++ suf = (pre ++ s1) ++ a :: b :: s2)
        by (rewrite Hv, app_assoc; reflexivity).
      rewrite Hv'.
      destruct (at_adjacent (pre ++ s1) a b s2) as (H1 & H2 & H3 & H4).
      rewrite H1, H2, H3, H4.
      assert (Hne2 : Nat.eqb (List.length (pre ++ s1))
                       (List.length ((pre ++ s1) ++ a :: b :: s2))
                     = false)
        by (apply Nat.eqb_neq; rewrite (length_app (pre ++ s1)); simpl;
            lia).
      rewrite Hne2. rewrite IH.
      * rewrite app_assoc. reflexivity.
      * rewrite Hv, length_app in Hlen. simpl in Hlen |- *. lia.
Qed.

Lemma deduplicate_eq (l : list FinalStateCrossSection) :
  deduplicate l = Ret (collapse (std_sort fsxs_less l)).
Proof.
  unfold deduplicate.
  apply (deduplicate_loop_collapse _ [] (std_sort fsxs_less l)).
  apply Nat.le_refl.
Qed.

(** Summing keeps the name of the first element of a run. *)
Lemma collapse_from_head (l : list FinalStateCrossSection) :
  forall a, exists h t, collapse_from a l = h :: t /\ name_ h = name_ a.
Proof.
  induction l as [| b l IH]; intros a; simpl.
  - eauto.
  - destruct (String.eqb (name_ a) (name_ b)).
    + destruct (IH (add_cross_section a b)) as (h & t & -> & Hh). eauto.
    + eauto.
Qed.

(** After the loop no two neighbours have the same name. *)
Lemma collapse_from_no_adjacent (l : list FinalStateCrossSection) :
  forall a,
    adjacent_find (collapse_from a l) = List.length (collapse_from a l).
Proof.
  induction l as [| b l IH]; intros a; simpl.
  - reflexivity.
  - destruct (String.eqb (name_ a) (name_ b)) eqn:E.
    + apply IH.
    + specialize (IH b).
      destruct (collapse_from_head l b) as (h & t & Hc & Hh).
      rewrite Hc in *. rewrite adjacent_find_cons, Hh, E, IH.
      reflexivity.
Qed.

Lemma follows_same_name a a' (l : list FinalStateCrossSection) :
  name_ a' = name_ a -> HdRel follows a l -> HdRel follows a' l.
Proof.
  intros Hn Hd. destruct Hd as [| b l Hab]; constructor.
  unfold may_follow, fsxs_less in *. rewrite Hn. exact Hab.
Qed.

(** Summing keeps the vector sorted by name. *)
Lemma collapse_from_sorted (l : list FinalStateCrossSection) :
  forall a, Sorted follows (a :: l) -> Sorted follows (collapse_from a l).
Proof.
  induction l as [| b l IH]; intros a Hs; simpl.
  - exact Hs.
  - apply Sorted_inv in Hs. destruct Hs as [Hs Hd].
    destruct (String.eqb (name_ a) (name_ b)) eqn:E.
    + apply IH. apply Sorted_inv in Hs. destruct Hs as [Hs Hd'].
      constructor; [ exact Hs | ].
      apply follows_same_name with b; [ | exact Hd' ].
      simpl. apply String.eqb_eq in E. exact E.
    + constructor; [ apply IH; exact Hs | ].
      destruct (collapse_from_head l b) as (h & t & -> & Hh).
      constructor. inversion Hd as [| ? ? Hab]; subst.
      unfold may_follow, fsxs_less in *. rewrite Hh. exact Hab.
Qed.

Lemma follows_trans a b c : follows a b -> follows b c -> follows a c.
Proof.
  unfold may_follow, fsxs_less. intros Hab Hbc.
  destruct (String.ltb (name_ c) (name_ a)) eqn:Hca; [ | reflexivity ].
  destruct (String.ltb (name_ b) (name_ c)) eqn:Hcb.
  - rewrite (string_ltb_trans _ _ _ Hcb Hca) in Hab. discriminate.
  - rewrite (string_ltb_total _ _ Hcb Hbc) in Hab. congruence.
Qed.

Lemma no_adjacent_cons a b v :
  adjacent_find (a :: b :: v) = List.length (a :: b :: v) ->
  String.eqb (name_ a) (name_ b) = false
  /\ adjacent_find (b :: v) = List.length (b :: v).
Proof.
  rewrite adjacent_find_cons.
  destruct (String.eqb (name_ a) (name_ b)); simpl; intros H.
  - discriminate.
  - split; [ reflexivity | ]. injection H as H. exact H.
Qed.

(** In a vector sorted by name without equal neighbouring names every
    element has a name less than all names after it. *)
Lemma strictly_sorted v :
  Sorted follows v -> adjacent_find v = List.length v ->
  StronglySorted (fun a b => fsxs_less a b = true) v.
Proof.
  intros Hs Hn. apply Sorted_StronglySorted.
  { intros a b c. apply string_ltb_trans. }
  induction Hs as [| a v Hs IH Hd].
  - constructor.
  - destruct Hd as [| b v Hab].
    + repeat constructor.
    + apply no_adjacent_cons in Hn. destruct Hn as [Hne Hn].
      constructor; [ apply IH; exact Hn | ].
      constructor. unfold may_follow, fsxs_less in *.
      destruct (String.ltb (name_ a) (name_ b)) eqn:E; [ reflexivity | ].
      apply String.eqb_neq in Hne.
      exfalso. apply Hne. apply string_ltb_total; assumption.
Qed.

(** Such a vector is its only rearrangement that is sorted by name. *)
Lemma sorted_rearrangement_unique v :
  StronglySorted (fun a b => fsxs_less a b = true) v ->
  forall v', Permutation v' v -> Sorted follows v' -> v' = v.
Proof.
  induction 1 as [| x t Ht IH Hx]; intros v' Hp Hs.
  - apply Permutation_nil. apply Permutation_sym. exact Hp.
  - destruct v' as [| y t'].
    { apply Permutation_nil_cons in Hp. contradiction. }
    apply Sorted_StronglySorted in Hs;
      [ | intros a b c; apply follows_trans ].
    apply StronglySorted_inv in Hs. destruct Hs as [Hs' Hy].
    assert (Hyx : y = x).
    { assert (Hin1 : In y (x :: t))
        by (apply Permutation_in with (y :: t'); [ exact Hp | left; reflexivity ]).
      assert (Hin2 : In x (y :: t'))
        by (apply Permutation_in with (x :: t);
            [ apply Permutation_sym; exact Hp | left; reflexivity ]).
      destruct Hin1 as [-> | Hin1]; [ reflexivity | ].
      destruct Hin2 as [-> | Hin2]; [ reflexivity | ].
      rewrite Forall_forall in Hx, Hy.
      specialize (Hx y Hin1). specialize (Hy x Hin2).
      unfold may_follow in Hy. congruence. }
    subst y. f_equal. apply IH.
    + apply Permutation_cons_inv with x. exact Hp.
    + apply StronglySorted_Sorted. exact Hs'.
Qed.

(** C9.  [deduplicate] always returns, and applied to its own result it
    returns that result again: the result is sorted by name and has no two
    neighbours with the same name, so the second call neither reorders nor
    sums anything.  The result is moreover the only rearrangement of itself
    that is sorted by name, so the second call starts from the same vector
    whichever way the sort orders elements of equal name. *)
Theorem deduplicate_idempotent (l : list FinalStateCrossSection) :
  exists l',
    deduplicate l = Ret l'
    /\ deduplicate l' = Ret l'
    /\ (forall v, Permutation v l' -> sorted_by_name v -> v = l').
Proof.
  exists (collapse (std_sort fsxs_less l)).
  split; [ apply deduplicate_eq | ].
  set (s := std_sort fsxs_less l).
  assert (Hs : Sorted follows s).
  { apply (std_sort_sorted fsxs_less). intros a b.
    apply string_ltb_asym. }
  assert (Hc : Sorted follows (collapse s)).
  { destruct s as [| a s']; [ constructor | ].
    apply collapse_from_sorted. exact Hs. }
  assert (Hn : adjacent_find (collapse s) = List.length (collapse s)).
  { destruct s as [| a s']; [ reflexivity | ].
    apply collapse_from_no_adjacent. }
  split.
  - rewrite deduplicate_eq.
    rewrite (std_sort_sorted_id fsxs_less _ Hc).
    rewrite collapse_fixed; [ reflexivity | exact Hn ].
  - apply sorted_rearrangement_unique. apply strictly_sorted; assumption.
Qed.

End Deduplicate.

(** ** dump_cross_sections: the scan over plab *)

Section DumpCrossSections.

Variable pCM_from_plab : double -> double -> double -> double.
Variables m_a m_b : double.

Local Abbreviation momentum := (fun p : double => pCM_from_plab p m_a m_b).

(** As long as the index stays inside [plab] the scan goes on. *)
Lemma scan_loop_inside (plab : list double) :
  forall (remaining i : nat) (scanned : list double),
    (i + remaining <= List.length plab)%nat ->
    (0 < List.length plab)%nat ->
    scan_loop pCM_from_plab m_a m_b plab i remaining scanned
    = (scanned ++ map momentum (firstn remaining (skipn i plab)), Ret tt).
Proof.
  induction remaining as [| remaining IH]; intros i scanned Hi Hpos; simpl.
  - rewrite app_nil_r. reflexivity.
  - apply Nat.ltb_lt in Hpos. rewrite Hpos. apply Nat.ltb_lt in Hpos.
    destruct (nth_error plab i) as [p |] eqn:En.
    + rewrite IH by lia.
      rewrite <- app_assoc. simpl.
      assert (Hs : skipn i plab = p :: skipn (S i) plab).
      { clear - En. revert i En.
        induction plab as [| x plab IHp]; intros [| i] En;
          simpl in *; try discriminate.
        - injection En as ->. reflexivity.
        - apply IHp. exact En. }
      rewrite Hs. reflexivity.
    + apply nth_error_None in En. lia.
Qed.

(** Asked for more points than [plab] holds, the scan runs to the end of
    [plab] and throws there. *)
Lemma scan_loop_past_end (plab : list double) :
  forall (remaining i : nat) (scanned : list double),
    (i <= List.length plab)%nat ->
    (List.length plab < i + remaining)%nat ->
    (0 < List.length plab)%nat ->
    scan_loop pCM_from_plab m_a m_b plab i remaining scanned
    = (scanned ++ map momentum (skipn i plab),
       Throw (out_of_range (List.length plab))).
Proof.
  induction remaining as [| remaining IH]; intros i scanned Hi Hr Hpos;
    simpl.
  - lia.
  - apply Nat.ltb_lt in Hpos. rewrite Hpos. apply Nat.ltb_lt in Hpos.
    destruct (nth_error plab i) as [p |] eqn:En.
    + assert (Hlt : (i < List.length plab)%nat)
        by (apply nth_error_Some; congruence).
      rewrite IH by lia.
      rewrite <- app_assoc. simpl.
      assert (Hs : skipn i plab = p :: skipn (S i) plab).
      { clear - En. revert i En.
        induction plab as [| x plab IHp]; intros [| i] En;
          simpl in *; try discriminate.
        - injection En as ->. reflexivity.
        - apply IHp. exact En. }
      rewrite Hs. reflexivity.
    + apply nth_error_None in En.
      assert (i = List.length plab) by lia. subst i.
      rewrite skipn_all. simpl. rewrite app_nil_r. reflexivity.
Qed.

Lemma unique_from_length (a : double) (l : list double) :
  (1 <= List.length (unique_from deq a l) <= S (List.length l))%nat.
Proof.
  revert a. induction l as [| b l IH]; intros a; simpl.
  - lia.
  - destruct (deq a b); simpl.
    + specialize (IH a). lia.
    + specialize (IH b). lia.
Qed.

(** For a non-empty [plab]: the caller's vector is left sorted and without
    equal neighbours, the loop is set up for as many points as [plab] had
    before, and it gets through exactly when no duplicate was erased;
    otherwise it throws at the first index past the shortened vector. *)
Lemma dump_cross_sections_scan (plab : list double) :
  plab <> [] ->
  let shortened := std_unique deq (std_sort dlt plab) in
  dump_cross_sections pCM_from_plab m_a m_b plab
  = mkScanResult shortened (map momentum shortened)
      (if Nat.eqb (List.length shortened) (List.length plab) then Ret tt
       else Throw (out_of_range (List.length shortened))).
Proof.
  intros Hne. cbv zeta. unfold dump_cross_sections.
  assert (Hpos : (0 < List.length plab)%nat)
    by (destruct plab; [ congruence | simpl; lia ]).
  assert (Hb : Nat.ltb 0 (List.length plab) = true)
    by (apply Nat.ltb_lt; exact Hpos).
  rewrite Hb.
  set (shortened := std_unique deq (std_sort dlt plab)).
  assert (Hlen : (1 <= List.length shortened <= List.length plab)%nat).
  { unfold shortened.
    pose proof (Permutation_length (std_sort_perm dlt plab)) as Hp.
    destruct (std_sort dlt plab) as [| a l]; simpl in *; [ lia | ].
    pose proof (unique_from_length a l). lia. }
  destruct (Nat.eqb (List.length shortened) (List.length plab)) eqn:E.
  - apply Nat.eqb_eq in E.
    rewrite scan_loop_inside by lia.
    rewrite <- E. simpl. rewrite firstn_all. reflexivity.
  - apply Nat.eqb_neq in E.
    rewrite scan_loop_past_end by lia.
    reflexivity.
Qed.

(** C10, on a vector with a duplicate.  Called with [plab = {0.5, 0.5}],
    [dump_cross_sections] leaves the caller's vector as [{0.5}] and sets the
    loop up for the two points [plab] had before; the second pass reads
    [plab.at(1)] of the shortened vector, which throws
    [std::out_of_range].  One momentum point has been scanned, not two. *)
Theorem dump_cross_sections_duplicate :
  dump_cross_sections pCM_from_plab m_a m_b [1 # 2; 1 # 2]
  = mkScanResult [1 # 2] [pCM_from_plab (1 # 2) m_a m_b]
      (Throw (out_of_range 1)).
Proof. reflexivity. Qed.

End DumpCrossSections.

(** ** Loops of the enumerators *)

Section Enumerators.

Context `{C : Collaborators}.

Variable f : ScatterActionsFinder.

Lemma bind_Ret_inv {A B : Type} (m : M A) (k : A -> M B) (g g' : Rng)
    (b : B) :
  bind m k g = (Ret b, g') ->
  exists a g1, m g = (Ret a, g1) /\ k a g1 = (Ret b, g').
Proof.
  unfold bind. destruct (m g) as [[a | e | | |] g1]; try discriminate.
  intros E. eauto.
Qed.

(** A loop that has run to its end has kept every invariant its body
    keeps. *)
Lemma for_each_invariant {A S : Type} (I : S -> Prop) (l : list A)
    (body : A -> S -> M S) :
  (forall x s g s' g',
      In x l -> I s -> body x s g = (Ret s', g') -> I s') ->
  forall s g s' g',
    I s -> for_each l body s g = (Ret s', g') -> I s'.
Proof.
  induction l as [| x l IH]; intros Hbody s g s' g' Hs E; simpl in E.
  - unfold ret in E. injection E as <- _. exact Hs.
  - apply bind_Ret_inv in E. destruct E as (s1 & g1 & E1 & E2).
    apply (IH (fun y t h t' h' Hy => Hbody y t h t' h' (or_intror Hy))
             s1 g1 s' g').
    + apply (Hbody x s g s1 g1); [ left; reflexivity | exact Hs | exact E1 ].
    + exact E2.
Qed.

(** A loop whose body does nothing does nothing. *)
Lemma for_each_idle {A S : Type} (l : list A) (body : A -> S -> M S)
    (s : S) (g : Rng) :
  (forall x, In x l -> body x s g = (Ret s, g)) ->
  for_each l body s g = (Ret s, g).
Proof.
  induction l as [| x l IH]; intros Hbody; simpl.
  - reflexivity.
  - unfold bind. rewrite (Hbody x (or_introl eq_refl)).
    apply IH. intros y Hy. apply Hbody. right. exact Hy.
Qed.

(** A loop that has run to its end has run its body to the end for every
    element. *)
Lemma for_each_all_returned {A S : Type} (l : list A) (body : A -> S -> M S) :
  forall s g s' g',
    for_each l body s g = (Ret s', g') ->
    forall x, In x l ->
      exists s1 g1 s2 g2, body x s1 g1 = (Ret s2, g2).
Proof.
  induction l as [| y l IH]; intros s g s' g' E x Hx; simpl in *.
  - contradiction.
  - apply bind_Ret_inv in E. destruct E as (s1 & g1 & E1 & E2).
    destruct Hx as [-> | Hx].
    + eauto.
    + eapply IH; eassumption.
Qed.

(** ** What an evaluator returns *)

Lemma two_part_returns (data_a data_b : ParticleData) (dt : double)
    (beam_momentum : list FourVector) (cell_vol : double) (g g' : Rng)
    (act : ScatterAction) :
  check_collision_two_part f data_a data_b dt beam_momentum cell_vol g
  = (Ret (Some act), g') ->
  pair_action_of data_a data_b dt (PairAction act).
Proof.
  unfold_evaluator.
  destruct (0 <=? id data_a)%Z; [ | discriminate ].
  destruct (0 <=? id data_b)%Z; [ | discriminate ].
  destruct (spectators f data_a data_b) as [[|] | | | |];
    try discriminate.
  destruct (_ && dlt cell_vol really_small)%bool; [ discriminate | ].
  destruct (dlt _ 0 || dge _ dt)%bool eqn:Et; [ discriminate | ].
  apply timing_check_iff in Et.
  destruct (_ && dge _ _)%bool; [ discriminate | ].
  destruct (add_all_scatterings f _ g) as [chs g1].
  destruct (coll_crit_ f);
    repeat match goal with
           | |- context [if ?c then _ else _] => destruct c
           | |- context [let (_, _) := uniform ?r in _] =>
               destruct (uniform r)
           end;
    intros E; try discriminate;
    injection E as <- _; simpl;
    destruct (strings_switch_ f); simpl; tauto.
Qed.

Lemma multi_part_returns (plist : ParticleList) (dt cell_vol : double)
    (g g' : Rng) (act : ScatterActionMulti) :
  check_collision_multi_part f plist dt cell_vol g = (Ret (Some act), g') ->
  multi_incoming act = plist.
Proof.
  unfold_evaluator.
  destruct (dlt cell_vol really_small); [ discriminate | ].
  destruct (negb _); [ discriminate | ].
  destruct (uniform g) as [u g1].
  destruct (is_PNone _); [ discriminate | ].
  destruct (dgt _ 1); [ discriminate | ].
  destruct (uniform g1) as [u2 g2].
  destruct (dgt u2 _); [ discriminate | ].
  intros E. injection E as <- _. reflexivity.
Qed.

Lemma two_part_banned (data_a data_b : ParticleData) (dt : double)
    (beam_momentum : list FourVector) (cell_vol : double) (g : Rng) :
  (0 <= id data_a)%Z -> (0 <= id data_b)%Z ->
  spectators f data_a data_b = Ret true ->
  check_collision_two_part f data_a data_b dt beam_momentum cell_vol g
  = (Ret None, g).
Proof.
  intros Na Nb Hs. unfold_evaluator. nonneg_ids Na Nb. rewrite Hs.
  reflexivity.
Qed.

Lemma two_part_without_cell (data_a data_b : ParticleData) (dt : double)
    (beam_momentum : list FourVector) (cell_vol : double) (g : Rng) :
  coll_crit_ f = Stochastic ->
  cell_vol < really_small ->
  (0 <= id data_a)%Z -> (0 <= id data_b)%Z ->
  (N_tot_ f <= Z.of_nat (List.length (nucleon_has_interacted_ f)))%Z ->
  check_collision_two_part f data_a data_b dt beam_momentum cell_vol g
  = (Ret None, g).
Proof.
  intros Hcrit Hvol Na Nb Hlen. apply dlt_true_iff in Hvol.
  unfold_evaluator. nonneg_ids Na Nb.
  destruct (spectators_defined f data_a data_b Na Nb Hlen) as [r Hr].
  rewrite Hr, Hcrit, Hvol. destruct r; reflexivity.
Qed.

Lemma multi_part_without_cell (plist : ParticleList) (dt cell_vol : double)
    (g : Rng) :
  cell_vol < really_small ->
  check_collision_multi_part f plist dt cell_vol g = (Ret None, g).
Proof.
  intros Hvol. apply dlt_true_iff in Hvol.
  unfold_evaluator. rewrite Hvol. reflexivity.
Qed.

(** The spectator test has a result, unless it reads outside the flag
    vector. *)
Lemma spectators_cases (data_a data_b : ParticleData) :
  (exists r, spectators f data_a data_b = Ret r)
  \/ spectators f data_a data_b = Undefined.
Proof.
  unfold spectators, has_interacted.
  repeat (simpl;
          match goal with
          | |- context [if ?c then _ else _] => destruct c
          | |- context [nth_error ?l ?n] => destruct (nth_error l n)
          end);
    simpl; eauto.
Qed.

Ltac evaluator_cases :=
  repeat (simpl;
          match goal with
          | |- context [if ?c then _ else _] => destruct c
          | |- context [add_all_scatterings ?s ?a ?r] =>
              destruct (add_all_scatterings s a r)
          end).

(** Under the geometric and the covariant criterion the pair evaluator does
    not look at the cell volume, and it never throws: its calls differ from
    criterion to criterion in nothing but the distance used. *)
Theorem distance_criteria_ignore_cell_volume (data_a data_b : ParticleData)
    (dt : double) (beam_momentum : list FourVector) (g : Rng) :
  coll_crit_ f <> Stochastic ->
  (forall cell_vol cell_vol' : double,
      check_collision_two_part f data_a data_b dt beam_momentum cell_vol g
      = check_collision_two_part f data_a data_b dt beam_momentum cell_vol' g)
  /\ (forall (cell_vol : double) (e : Exception),
         fst (check_collision_two_part f data_a data_b dt beam_momentum
                cell_vol g)
         <> Throw e).
Proof.
  intros Hcrit. split.
  - intros cell_vol cell_vol'. unfold_evaluator.
    destruct (coll_crit_ f); [ reflexivity | contradiction | reflexivity ].
  - intros cell_vol e. unfold_evaluator.
    destruct (spectators_cases data_a data_b) as [[r ->] | ->];
      destruct (coll_crit_ f); try contradiction;
      evaluator_cases; discriminate.
Qed.

(** Every action [find_actions_in_cell] returns is the action of a pair of
    particles of the list with ascending ids, with a time in [0, dt), or,
    under the stochastic criterion only, the action of three particles of
    the list with ascending ids. *)
Theorem find_actions_in_cell_sound (search_list : ParticleList) (dt : double)
    (cell_vol : double) (beam_momentum : list FourVector) (g g' : Rng)
    (actions : ActionList) :
  find_actions_in_cell f search_list dt cell_vol beam_momentum g
  = (Ret actions, g') ->
  Forall (cell_action f search_list dt) actions.
Proof.
  unfold find_actions_in_cell. intros E.
  eapply (for_each_invariant (Forall (cell_action f search_list dt)));
    [ | | exact E ]; [ | constructor ].
  clear E. intros p1 s1 g1 s1' g1' Hp1 Hs1 E1.
  eapply (for_each_invariant (Forall (cell_action f search_list dt)));
    [ | exact Hs1 | exact E1 ].
  clear E1 Hs1. intros p2 s2 g2 s2' g2' Hp2 Hs2 E2.
  apply bind_Ret_inv in E2. destruct E2 as (s3 & g3 & E3 & E4).
  assert (Hs3 : Forall (cell_action f search_list dt) s3).
  { destruct (id p1 <? id p2)%Z eqn:E12.
    - apply bind_Ret_inv in E3. destruct E3 as (act & g4 & Ea & Er).
      unfold ret in Er. injection Er as <- _.
      destruct act as [act |]; simpl; [ | exact Hs2 ].
      apply Forall_app. split; [ exact Hs2 | ].
      constructor; [ | constructor ].
      apply two_part_returns in Ea. simpl in Ea |- *.
      destruct Ea as (-> & -> & Ht0 & Ht1).
      apply Z.ltb_lt in E12. tauto.
    - unfold ret in E3. injection E3 as <- _. exact Hs2. }
  destruct (CollisionCriterion_eqb (coll_crit_ f) Stochastic) eqn:Ec.
  - eapply (for_each_invariant (Forall (cell_action f search_list dt)));
      [ | exact Hs3 | exact E4 ].
    clear E4. intros p3 s4 g4 s4' g4' Hp3 Hs4 E5. cbv beta in E5.
    destruct ((id p1 <? id p2)%Z && (id p2 <? id p3)%Z)%bool eqn:E123.
    + apply bind_Ret_inv in E5. destruct E5 as (act & g5 & Ea & Er).
      unfold ret in Er. injection Er as <- _.
      destruct act as [act |]; simpl; [ | exact Hs4 ].
      apply Forall_app. split; [ exact Hs4 | ].
      constructor; [ | constructor ].
      apply multi_part_returns in Ea. simpl.
      apply andb_true_iff in E123. destruct E123 as [H12 H23].
      apply Z.ltb_lt in H12, H23.
      split.
      * destruct (coll_crit_ f); try discriminate. reflexivity.
      * exists p1, p2, p3. tauto.
    + unfold ret in E5. injection E5 as <- _. exact Hs4.
  - unfold ret in E4. injection E4 as <- _. exact Hs3.
Qed.

(** Under the geometric and the covariant criterion a cell that holds only
    nucleons of one nucleus that have not interacted yields no action, and
    no random number is drawn. *)
Theorem find_actions_in_cell_spectators (side : bool)
    (search_list : ParticleList) (dt : double) (cell_vol : double)
    (beam_momentum : list FourVector) (g : Rng) :
  coll_crit_ f <> Stochastic ->
  (forall p, In p search_list -> spectator_of f side p) ->
  find_actions_in_cell f search_list dt cell_vol beam_momentum g
  = (Ret [], g).
Proof.
  intros Hcrit Hspec. unfold find_actions_in_cell.
  apply for_each_idle. intros p1 Hp1.
  apply for_each_idle. intros p2 Hp2.
  destruct (Hspec p1 Hp1) as (Ht1 & Hi1 & Hs1).
  destruct (Hspec p2 Hp2) as (Ht2 & Hi2 & Hs2).
  assert (Hban : check_collision_two_part f p1 p2 dt beam_momentum cell_vol g
                 = (Ret None, g)).
  { apply two_part_banned.
    - eapply has_interacted_nonneg; exact Hi1.
    - eapply has_interacted_nonneg; exact Hi2.
    - apply spectators_banned; try assumption.
      destruct side; [ left | right ]; split; assumption. }
  unfold bind at 1.
  destruct (id p1 <? id p2)%Z.
  - unfold bind at 1. rewrite Hban. unfold ret. simpl.
    destruct (coll_crit_ f); [ reflexivity | contradiction | reflexivity ].
  - unfold ret. simpl.
    destruct (coll_crit_ f); [ reflexivity | contradiction | reflexivity ].
Qed.

(** Under the stochastic criterion a cell with a volume below
    [really_small] yields no action, whatever it holds: no pair and no
    triple is accepted, nothing is thrown and no random number is drawn.
    (The particles have non-negative ids and the flag vector has an entry
    for every id below [N_tot_].) *)
Theorem find_actions_in_cell_without_cell (search_list : ParticleList)
    (dt : double) (cell_vol : double) (beam_momentum : list FourVector)
    (g : Rng) :
  coll_crit_ f = Stochastic ->
  cell_vol < really_small ->
  (forall p, In p search_list -> (0 <= id p)%Z) ->
  (N_tot_ f <= Z.of_nat (List.length (nucleon_has_interacted_ f)))%Z ->
  find_actions_in_cell f search_list dt cell_vol beam_momentum g
  = (Ret [], g).
Proof.
  intros Hcrit Hvol Hids Hlen. unfold find_actions_in_cell.
  apply for_each_idle. intros p1 Hp1.
  apply for_each_idle. intros p2 Hp2.
  assert (Hpair :
            check_collision_two_part f p1 p2 dt beam_momentum cell_vol g
            = (Ret None, g))
    by (apply two_part_without_cell; auto).
  assert (Htriples :
            for_each search_list
              (fun p3 actions =>
                 if ((id p1 <? id p2)%Z && (id p2 <? id p3)%Z)%bool then
                   bind (check_collision_multi_part f [p1; p2; p3] dt
                           cell_vol)
                     (fun act => ret (push_back_if MultiAction act actions))
                 else ret actions) [] g
            = (Ret [], g)).
  { apply for_each_idle. intros p3 Hp3.
    destruct ((id p1 <? id p2)%Z && (id p2 <? id p3)%Z)%bool;
      [ | reflexivity ].
    unfold bind. rewrite multi_part_without_cell by exact Hvol.
    reflexivity. }
  unfold bind at 1. rewrite Hcrit. simpl.
  destruct (id p1 <? id p2)%Z.
  - unfold bind at 1. rewrite Hpair. unfold ret at 1. simpl.
    exact Htriples.
  - unfold ret at 1. exact Htriples.
Qed.

Lemma in_search_list_false (search_list : ParticleList) (p2 : ParticleData) :
  in_search_list search_list p2 = false <->
  (forall p, In p search_list -> id p <> id p2).
Proof.
  unfold in_search_list. split.
  - intros E p Hp Hid.
    assert (Ht : existsb (fun q => (id q =? id p2)%Z) search_list = true).
    { apply existsb_exists. exists p. split; [ exact Hp | ].
      apply Z.eqb_eq. exact Hid. }
    congruence.
  - intros H.
    destruct (existsb (fun q => (id q =? id p2)%Z) search_list) eqn:E;
      [ | reflexivity ].
    apply existsb_exists in E. destruct E as (p & Hp & Hid).
    apply Z.eqb_eq in Hid. exfalso. exact (H p Hp Hid).
Qed.

(** What [find_actions_with_neighbors] returns.  Under the stochastic
    criterion it is empty, and nothing is evaluated.  Otherwise every action
    is a pair action of a particle of the search list and a particle of the
    neighbours list, in this order, with a time in [0, dt). *)
Theorem find_actions_with_neighbors_sound (default_cell_vol : double)
    (search_list neighbors_list : ParticleList) (dt : double)
    (beam_momentum : list FourVector) (g g' : Rng) (actions : ActionList) :
  find_actions_with_neighbors default_cell_vol f search_list neighbors_list
    dt beam_momentum g
  = (Ret actions, g') ->
  (coll_crit_ f = Stochastic -> actions = [] /\ g' = g)
  /\ Forall (fun a => exists p1 p2,
                 In p1 search_list /\ In p2 neighbors_list
                 /\ pair_action_of p1 p2 dt a) actions.
Proof.
  unfold find_actions_with_neighbors. intros E.
  destruct (CollisionCriterion_eqb (coll_crit_ f) Stochastic) eqn:Ec.
  { unfold ret in E. injection E as <- <-.
    split; [ tauto | constructor ]. }
  split.
  - intros Hs. rewrite Hs in Ec. discriminate.
  - eapply (for_each_invariant
              (Forall (fun a => exists p1 p2,
                           In p1 search_list /\ In p2 neighbors_list
                           /\ pair_action_of p1 p2 dt a)));
      [ | | exact E ]; [ | constructor ].
    clear E. intros p1 s1 g1 s1' g1' Hp1 Hs1 E1.
    eapply (for_each_invariant
              (Forall (fun a => exists p1 p2,
                           In p1 search_list /\ In p2 neighbors_list
                           /\ pair_action_of p1 p2 dt a)));
      [ | exact Hs1 | exact E1 ].
    clear E1 Hs1. intros p2 s2 g2 s2' g2' Hp2 Hs2 E2. cbv beta in E2.
    apply bind_Ret_inv in E2. destruct E2 as (u & g3 & _ & E3).
    apply bind_Ret_inv in E3. destruct E3 as (act & g4 & Ea & Er).
    unfold ret in Er. injection Er as <- _.
    destruct act as [act |]; simpl; [ | exact Hs2 ].
    apply Forall_app. split; [ exact Hs2 | ].
    constructor; [ | constructor ].
    exists p1, p2. split; [ exact Hp1 | split; [ exact Hp2 | ] ].
    eapply two_part_returns. exact Ea.
Qed.

(** What [find_actions_with_surrounding_particles] returns.  Under the
    stochastic criterion it is empty, and nothing is evaluated.  Otherwise
    every action is a pair action, with a time in [0, dt), of a particle of
    the search list and a particle of the surrounding list whose id no
    particle of the search list has. *)
Theorem find_actions_with_surrounding_particles_sound
    (default_cell_vol : double) (search_list surrounding_list : ParticleList)
    (dt : double) (beam_momentum : list FourVector) (g g' : Rng)
    (actions : ActionList) :
  find_actions_with_surrounding_particles default_cell_vol f search_list
    surrounding_list dt beam_momentum g
  = (Ret actions, g') ->
  (coll_crit_ f = Stochastic -> actions = [] /\ g' = g)
  /\ Forall (fun a => exists p1 p2,
                 In p1 search_list /\ In p2 surrounding_list
                 /\ (forall p, In p search_list -> id p <> id p2)
                 /\ pair_action_of p1 p2 dt a) actions.
Proof.
  unfold find_actions_with_surrounding_particles. intros E.
  destruct (CollisionCriterion_eqb (coll_crit_ f) Stochastic) eqn:Ec.
  { unfold ret in E. injection E as <- <-.
    split; [ tauto | constructor ]. }
  split.
  - intros Hs. rewrite Hs in Ec. discriminate.
  - eapply (for_each_invariant
              (Forall (fun a => exists p1 p2,
                           In p1 search_list /\ In p2 surrounding_list
                           /\ (forall p, In p search_list -> id p <> id p2)
                           /\ pair_action_of p1 p2 dt a)));
      [ | | exact E ]; [ | constructor ].
    clear E. intros p2 s1 g1 s1' g1' Hp2 Hs1 E1. cbv beta in E1.
    destruct (in_search_list search_list p2) eqn:Ein.
    { unfold ret in E1. injection E1 as <- _. exact Hs1. }
    eapply (for_each_invariant
              (Forall (fun a => exists p1 p2,
                           In p1 search_list /\ In p2 surrounding_list
                           /\ (forall p, In p search_list -> id p <> id p2)
                           /\ pair_action_of p1 p2 dt a)));
      [ | exact Hs1 | exact E1 ].
    clear E1 Hs1. intros p1 s2 g2 s2' g2' Hp1 Hs2 E2. cbv beta in E2.
    apply bind_Ret_inv in E2. destruct E2 as (act & g4 & Ea & Er).
    unfold ret in Er. injection Er as <- _.
    destruct act as [act |]; simpl; [ | exact Hs2 ].
    apply Forall_app. split; [ exact Hs2 | ].
    constructor; [ | constructor ].
    exists p1, p2.
    split; [ exact Hp1 | split; [ exact Hp2 | split ] ].
    + apply in_search_list_false. exact Ein.
    + eapply two_part_returns. exact Ea.
Qed.

(** A surrounding list made up of particles that are in the search list as
    well yields nothing: every one of them is skipped, no pair is evaluated
    and no random number is drawn. *)
Theorem find_actions_with_surrounding_particles_skips
    (default_cell_vol : double) (search_list surrounding_list : ParticleList)
    (dt : double) (beam_momentum : list FourVector) (g : Rng) :
  (forall p2, In p2 surrounding_list ->
     exists p, In p search_list /\ id p = id p2) ->
  find_actions_with_surrounding_particles default_cell_vol f search_list
    surrounding_list dt beam_momentum g
  = (Ret [], g).
Proof.
  intros Hall. unfold find_actions_with_surrounding_particles.
  destruct (CollisionCriterion_eqb (coll_crit_ f) Stochastic);
    [ reflexivity | ].
  apply for_each_idle. intros p2 Hp2.
  destruct (in_search_list search_list p2) eqn:Ein; [ reflexivity | ].
  destruct (Hall p2 Hp2) as (p & Hp & Hid).
  exfalso. exact (proj1 (in_search_list_false _ _) Ein p Hp Hid).
Qed.

End Enumerators.

(** ** Final-state cross sections *)

Section FinalStateCrossSections.

Variable db : Registry.

(** Induction over a decay tree: a property that holds for a node whenever
    it holds for its children holds for every node. *)
Lemma Node_children_ind (P : decaytree.Node -> Prop) :
  (forall n, Forall P (decaytree.children_ n) -> P n) -> forall n, P n.
Proof.
  intros H. fix IH 1. intros [nm w i fin s cs]. apply H. simpl.
  induction cs as [| c cs IHcs]; constructor.
  - apply IH.
  - exact IHcs.
Qed.

Lemma fold_left_plus_init {A : Type} (h : A -> nat) (l : list A) (n : nat) :
  fold_left (fun m x => (m + h x)%nat) l n
  = (n + fold_left (fun m x => (m + h x)%nat) l 0)%nat.
Proof.
  revert n. induction l as [| x l IH]; intros n; simpl.
  - lia.
  - rewrite IH, (IH (h x)). lia.
Qed.

(** The helper appends to [result] one entry for every leaf below the node,
    and every cross section it appends is a multiple of the weight the node
    hands down: the weight it was given, times its own weight unless it is
    the root. *)
Lemma final_state_cross_sections_helper_spec (node : decaytree.Node) :
  forall (depth : nat) (nm : string) (weight : double) (show : bool),
  exists added,
    (forall result,
        final_state_cross_sections_helper db node depth result nm weight show
        = result ++ added)
    /\ List.length added = leaves node
    /\ Forall (fun e => exists k,
                   cross_section_ e
                   == (if Nat.ltb 0 depth then weight * decaytree.weight_ node
                       else weight) * k)
         added.
Proof.
  induction node as [node IH] using Node_children_ind.
  intros depth nm weight show.
  destruct node as [nname w i fin s cs]. simpl in IH |- *.
  set (w' := if Nat.ltb 0 depth then weight * w else weight).
  set (nm' := if show then _ else state_name db s _).
  assert (Hfold :
            exists added,
              (forall result,
                  fold_left
                    (fun result child =>
                       final_state_cross_sections_helper db child (S depth)
                         result nm' w' show) cs result
                  = result ++ added)
              /\ List.length added
                 = fold_left (fun n child => (n + leaves child)%nat)
                     cs 0%nat
              /\ Forall (fun e => exists k, cross_section_ e == w' * k)
                   added).
  { clear - IH. induction IH as [| c cs Hc _ IHcs].
    - exists []. split; [ | split; [ reflexivity | constructor ] ].
      intros result. simpl. rewrite app_nil_r. reflexivity.
    - destruct (Hc (S depth) nm' w' show) as (added1 & H1 & L1 & F1).
      destruct IHcs as (added2 & H2 & L2 & F2).
      exists (added1 ++ added2). split; [ | split ].
      + intros result. simpl. rewrite H1, H2, app_assoc. reflexivity.
      + simpl. rewrite length_app, L1, L2.
        rewrite (fold_left_plus_init leaves cs (leaves c)).
        reflexivity.
      + apply Forall_app. split; [ | exact F2 ].
        eapply Forall_impl; [ | exact F1 ].
        intros e [k Hk]. exists (decaytree.weight_ c * k). rewrite Hk. simpl. ring. }
  destruct cs as [| c cs].
  - exists [mkFinalStateCrossSection nm' w' (sum_masses db s 0)].
    split; [ reflexivity | split; [ reflexivity | ] ].
    constructor; [ | constructor ].
    exists 1. simpl. ring.
  - exact Hfold.
Qed.

Lemma leaves_positive (node : decaytree.Node) : (1 <= leaves node)%nat.
Proof.
  induction node as [node IH] using Node_children_ind.
  destruct node as [nname w i fin s cs]. simpl in IH |- *.
  destruct cs as [| c cs]; [ lia | ].
  simpl. apply Forall_inv in IH.
  rewrite (fold_left_plus_init leaves cs (leaves c)). lia.
Qed.

(** [final_state_cross_sections] returns one entry for every leaf of the
    tree, so it never returns an empty vector: a tree that is only a root
    gives one entry. *)
Theorem final_state_cross_sections_per_leaf (node : decaytree.Node) :
  List.length (final_state_cross_sections db node) = leaves node
  /\ final_state_cross_sections db node <> [].
Proof.
  unfold final_state_cross_sections.
  destruct (final_state_cross_sections_helper_spec node 0 "" 1 false)
    as (added & H & L & _).
  rewrite H. simpl. split; [ exact L | ].
  pose proof (leaves_positive node) as Hpos.
  destruct added; [ simpl in L; lia | discriminate ].
Qed.

(** Below the root a node of weight zero makes every final-state cross
    section of its branch zero. *)
Theorem zero_weight_zeroes_branch (node : decaytree.Node) (depth : nat)
    (result : list FinalStateCrossSection) (nm : string) (weight : double)
    (show : bool) :
  (0 < depth)%nat ->
  decaytree.weight_ node == 0 ->
  exists added,
    final_state_cross_sections_helper db node depth result nm weight show
    = result ++ added
    /\ List.length added = leaves node
    /\ Forall (fun e => cross_section_ e == 0) added.
Proof.
  intros Hd Hw.
  destruct (final_state_cross_sections_helper_spec node depth nm weight show)
    as (added & H & L & F).
  exists added. split; [ apply H | split; [ exact L | ] ].
  eapply Forall_impl; [ | exact F ].
  intros e [k Hk]. rewrite Hk.
  apply Nat.ltb_lt in Hd. rewrite Hd, Hw. ring.
Qed.

(** A branch grown by [add_decays] whose state holds an unstable particle
    type without a kinematically open decay mode (the pole masses of the
    products of every mode, added up as the code adds them, exceed
    [sqrts_decay] as the code computes it) reports only zero cross
    sections: every entry [final_state_cross_sections_helper] makes for it
    below the root has cross section zero. *)
Theorem blocked_branch_cross_sections_vanish (node res : decaytree.Node)
    (sqrts : double) (pre : list ParticleTypePtr) (p : ParticleTypePtr)
    (post : list ParticleTypePtr) (fuel : nat) :
  decaytree.state_ node = pre ++ p :: post ->
  is_stable (db p) = false ->
  (forall decay,
      In decay (decay_mode_list (db p)) ->
      decaytree.sqrts_decay_of db (decaytree.state_ node) sqrts p
      < sum_masses db (decay_particle_types decay) 0) ->
  decaytree.add_decays db fuel node sqrts = Ret res ->
  forall (depth : nat) (result : list FinalStateCrossSection) (nm : string)
         (weight : double) (show : bool),
    (0 < depth)%nat ->
    exists added,
      final_state_cross_sections_helper db res depth result nm weight show
      = result ++ added
      /\ Forall (fun e => cross_section_ e == 0) added.
Proof.
  intros Hstate Hp Hheavy Hres depth result nm weight show Hd.
  destruct fuel as [| fuel]; [ discriminate | ].
  rewrite (add_decays_stops db node sqrts pre p post fuel Hstate Hp Hheavy)
    in Hres.
  destruct (decaytree.expand_over db fuel node sqrts pre)
    as [n1 | | | |]; try discriminate.
  simpl in Hres. injection Hres as <-.
  destruct (final_state_cross_sections_helper_spec
              (decaytree.set_weight n1 0) depth nm weight show)
    as (added & H & _ & F).
  exists added. split; [ apply H | ].
  eapply Forall_impl; [ | exact F ].
  intros e [k Hk]. rewrite Hk.
  apply Nat.ltb_lt in Hd. rewrite Hd.
  destruct n1; simpl. ring.
Qed.

(** ** Canonical names of final states *)

(** Strings have one ascending arrangement. *)
Lemma sorted_strings_unique (l1 : list string) :
  forall l2,
    Permutation l1 l2 ->
    Sorted (may_follow String.ltb) l1 -> Sorted (may_follow String.ltb) l2 ->
    l1 = l2.
Proof.
  induction l1 as [| x t1 IH]; intros l2 Hp H1 H2.
  - apply Permutation_nil in Hp. congruence.
  - destruct l2 as [| y t2].
    { apply Permutation_sym, Permutation_nil_cons in Hp. contradiction. }
    apply Sorted_StronglySorted in H1;
      [ | intros a b c; apply string_may_follow_trans ].
    apply Sorted_StronglySorted in H2;
      [ | intros a b c; apply string_may_follow_trans ].
    apply StronglySorted_inv in H1. destruct H1 as [H1 Hx].
    apply StronglySorted_inv in H2. destruct H2 as [H2 Hy].
    rewrite Forall_forall in Hx, Hy.
    assert (Hxy : may_follow String.ltb x y).
    { assert (Hin : In y (x :: t1))
        by (apply Permutation_in with (y :: t2);
            [ apply Permutation_sym; exact Hp | left; reflexivity ]).
      destruct Hin as [<- | Hin]; [ apply string_ltb_irrefl | ].
      apply Hx. exact Hin. }
    assert (Hyx : may_follow String.ltb y x).
    { assert (Hin : In x (y :: t2))
        by (apply Permutation_in with (x :: t1);
            [ exact Hp | left; reflexivity ]).
      destruct Hin as [<- | Hin]; [ apply string_ltb_irrefl | ].
      apply Hy. exact Hin. }
    assert (E : x = y) by (apply string_ltb_total; assumption).
    subst y. f_equal. apply IH.
    + apply Permutation_cons_inv with x. exact Hp.
    + apply StronglySorted_Sorted. exact H1.
    + apply StronglySorted_Sorted. exact H2.
Qed.

Lemma name_ordered_names (state : list ParticleTypePtr) :
  decaytree.name_ordered db state ->
  Sorted (may_follow String.ltb) (map (fun p => name (db p)) state).
Proof.
  unfold decaytree.name_ordered.
  induction 1 as [| p state Hs IH Hd]; simpl.
  - constructor.
  - constructor; [ exact IH | ].
    destruct Hd as [| q state Hpq]; simpl; constructor. exact Hpq.
Qed.

Lemma state_name_names (s1 : list ParticleTypePtr) :
  forall s2 init,
    map (fun p => name (db p)) s1 = map (fun p => name (db p)) s2 ->
    state_name db s1 init = state_name db s2 init.
Proof.
  unfold state_name.
  induction s1 as [| p s1 IH]; intros [| q s2] init E; simpl in *;
    try discriminate.
  - reflexivity.
  - injection E as Ep Es. rewrite Ep. apply IH. exact Es.
Qed.

Lemma sum_masses_perm (s1 s2 : list ParticleTypePtr) :
  Permutation s1 s2 ->
  forall init, sum_masses db s1 init == sum_masses db s2 init.
Proof.
  induction 1 as [| p s1 s2 Hp IH | p q s | s1 s2 s3 H12 IH12 H23 IH23];
    intros init.
  - reflexivity.
  - change (sum_masses db s1 (init + mass (db p))
            == sum_masses db s2 (init + mass (db p))).
    apply IH.
  - change (sum_masses db s (init + mass (db q) + mass (db p))
            == sum_masses db s (init + mass (db p) + mass (db q))).
    rewrite (sum_masses_init db s (init + mass (db q) + mass (db p))).
    rewrite (sum_masses_init db s (init + mass (db p) + mass (db q))).
    ring.
  - rewrite IH12. apply IH23.
Qed.

(** Two leaves whose states hold the same particle types, each in ascending
    order of the names, get the same final-state name and the same mass,
    wherever they stand in the tree: the order in which the decays were
    taken leaves no trace in the name. *)
Theorem leaf_names_canonical (n1 n2 : decaytree.Node) (d1 d2 : nat)
    (r1 r2 : list FinalStateCrossSection) (nm1 nm2 : string)
    (w1 w2 : double) :
  decaytree.children_ n1 = [] -> decaytree.children_ n2 = [] ->
  Permutation (decaytree.state_ n1) (decaytree.state_ n2) ->
  decaytree.name_ordered db (decaytree.state_ n1) ->
  decaytree.name_ordered db (decaytree.state_ n2) ->
  exists e1 e2,
    final_state_cross_sections_helper db n1 d1 r1 nm1 w1 false = r1 ++ [e1]
    /\ final_state_cross_sections_helper db n2 d2 r2 nm2 w2 false
       = r2 ++ [e2]
    /\ name_ e1 = name_ e2
    /\ mass_ e1 == mass_ e2.
Proof.
  intros Hc1 Hc2 Hp Ho1 Ho2.
  destruct n1 as [nn1 nw1 i1 f1 s1 c1], n2 as [nn2 nw2 i2 f2 s2 c2].
  simpl in *. subst c1 c2.
  eexists. eexists.
  split; [ reflexivity | split; [ reflexivity | ] ].
  simpl. split.
  - apply state_name_names. apply sorted_strings_unique.
    + apply Permutation_map. exact Hp.
    + apply name_ordered_names. exact Ho1.
    + apply name_ordered_names. exact Ho2.
  - apply sum_masses_perm. exact Hp.
Qed.

End FinalStateCrossSections.

(** ** deduplicate: names and sums *)

Section DeduplicateSums.

Implicit Types (a b e : FinalStateCrossSection)
  (v : list FinalStateCrossSection) (n : string).

(** Summing runs keeps the names, and every entry it leaves has the name and
    the mass of an entry it was given. *)
Lemma collapse_from_names v :
  forall a n,
    In n (map name_ (collapse_from a v)) <-> In n (map name_ (a :: v)).
Proof.
  induction v as [| b v IH]; intros a n; simpl.
  - reflexivity.
  - destruct (String.eqb (name_ a) (name_ b)) eqn:E.
    + rewrite IH. simpl. apply String.eqb_eq in E. rewrite <- E. tauto.
    + simpl. rewrite IH. simpl. tauto.
Qed.

Lemma collapse_from_masses v :
  forall a e,
    In e (collapse_from a v) ->
    exists x, In x (a :: v) /\ name_ x = name_ e /\ mass_ x = mass_ e.
Proof.
  induction v as [| b v IH]; intros a e; simpl.
  - intros [<- | []]. exists a. auto.
  - destruct (String.eqb (name_ a) (name_ b)) eqn:E.
    + intros Hin. apply IH in Hin. destruct Hin as (x & Hx & Hn & Hm).
      destruct Hx as [<- | Hx].
      * exists a. simpl in *. auto.
      * exists x. auto.
    + intros [<- | Hin].
      * exists a. auto.
      * apply IH in Hin. destruct Hin as (x & Hx & Hn & Hm).
        exists x. auto.
Qed.

Lemma strictly_sorted_NoDup v :
  StronglySorted (fun a b => fsxs_less a b = true) v ->
  NoDup (map name_ v).
Proof.
  induction 1 as [| a v Hs IH Ha]; simpl; constructor.
  - intros Hin. apply in_map_iff in Hin. destruct Hin as (b & Hn & Hb).
    rewrite Forall_forall in Ha. specialize (Ha b Hb).
    unfold fsxs_less in Ha. rewrite Hn, string_ltb_irrefl in Ha.
    discriminate.
  - exact IH.
Qed.

Lemma deduplicate_sorted_collapse (l : list FinalStateCrossSection) :
  StronglySorted (fun a b => fsxs_less a b = true)
    (collapse (std_sort fsxs_less l)).
Proof.
  set (s := std_sort fsxs_less l).
  assert (Hs : Sorted (may_follow fsxs_less) s).
  { apply (std_sort_sorted fsxs_less). intros a b. apply string_ltb_asym. }
  apply strictly_sorted.
  - destruct s as [| a s']; [ constructor | ].
    apply collapse_from_sorted. exact Hs.
  - destruct s as [| a s']; [ reflexivity | ].
    apply collapse_from_no_adjacent.
Qed.

(** [deduplicate] leaves the names of its input, each of them once and in
    strictly ascending order; every entry has the mass of an input entry of
    its name. *)
Theorem deduplicate_names (l : list FinalStateCrossSection) :
  exists r,
    deduplicate l = Ret r
    /\ StronglySorted (fun a b => fsxs_less a b = true) r
    /\ NoDup (map name_ r)
    /\ (forall n, In n (map name_ r) <-> In n (map name_ l))
    /\ (forall e, In e r ->
          exists x, In x l /\ name_ x = name_ e /\ mass_ x = mass_ e).
Proof.
  exists (collapse (std_sort fsxs_less l)).
  pose proof (deduplicate_sorted_collapse l) as Hstrict.
  pose proof (std_sort_perm fsxs_less l) as Hperm.
  split; [ apply deduplicate_eq | ].
  split; [ exact Hstrict | ].
  split; [ apply strictly_sorted_NoDup; exact Hstrict | ].
  split.
  - intros n.
    destruct (std_sort fsxs_less l) as [| a s] eqn:Es.
    + apply Permutation_nil in Hperm. subst l. reflexivity.
    + simpl collapse. rewrite collapse_from_names.
      split; intros Hin.
      * eapply Permutation_in; [ apply Permutation_map; exact Hperm | ].
        exact Hin.
      * eapply Permutation_in;
          [ apply Permutation_map, Permutation_sym; exact Hperm | ].
        exact Hin.
  - intros e Hin.
    destruct (std_sort fsxs_less l) as [| a s] eqn:Es; [ contradiction | ].
    simpl in Hin. apply collapse_from_masses in Hin.
    destruct Hin as (x & Hx & Hn & Hm). exists x.
    split; [ | split; assumption ].
    eapply Permutation_in; [ exact Hperm | exact Hx ].
Qed.

Lemma entries_named_none n v :
  Forall (fun y => name_ y <> n) v -> entries_named n v = [].
Proof.
  unfold entries_named. induction 1 as [| y v Hy _ IH]; simpl.
  - reflexivity.
  - destruct (String.eqb (name_ y) n) eqn:E; [ | exact IH ].
    apply String.eqb_eq in E. contradiction.
Qed.

Lemma entries_named_In n v x rest :
  entries_named n v = x :: rest -> In x v /\ name_ x = n.
Proof.
  unfold entries_named. intros E.
  assert (H : In x (filter (fun y => String.eqb (name_ y) n) v))
    by (rewrite E; left; reflexivity).
  apply filter_In in H. destruct H as [H1 H2].
  apply String.eqb_eq in H2. split; assumption.
Qed.

(** The loop in closed form, run by run: the entry of the first run holds
    the cross sections of the run added to [a] from left to right; every
    other entry holds those of its run added to the first element of the
    run.  The mass is the one of the first element. *)
Lemma collapse_from_runs v :
  forall a,
    Forall (fun y => String.ltb (name_ y) (name_ a) = false) v ->
    StronglySorted (may_follow fsxs_less) v ->
    forall e,
      In e (collapse_from a v) ->
      (name_ e = name_ a
       /\ cross_section_ e
          = summed_up (cross_section_ a) (entries_named (name_ a) v)
       /\ mass_ e = mass_ a)
      \/ (name_ e <> name_ a
          /\ exists x rest,
               entries_named (name_ e) v = x :: rest
               /\ cross_section_ e = summed_up (cross_section_ x) rest
               /\ mass_ e = mass_ x).
Proof.
  induction v as [| b v IH]; intros a Hge Hs e Hin; simpl in Hin.
  - destruct Hin as [<- | []]. left. repeat split.
  - apply Forall_cons_iff in Hge. destruct Hge as [Hab Hge].
    apply StronglySorted_inv in Hs. destruct Hs as [Hs Hb].
    destruct (String.eqb (name_ a) (name_ b)) eqn:E.
    + apply String.eqb_eq in E.
      apply (IH (add_cross_section a b)) in Hin;
        [ | exact Hge | exact Hs ].
      unfold entries_named in *. simpl in *.
      destruct Hin as [(Hn & Hx & Hm) | (Hn & x & rest & Hr & Hx & Hm)].
      * left. rewrite <- E, String.eqb_refl. simpl.
        repeat split; assumption.
      * right. split; [ exact Hn | ].
        exists x, rest. rewrite <- E.
        destruct (String.eqb (name_ a) (name_ e)) eqn:E';
          [ apply String.eqb_eq in E'; congruence | ].
        repeat split; assumption.
    + assert (Hne : name_ a <> name_ b)
        by (intros H; rewrite H, String.eqb_refl in E; discriminate).
      assert (Hlt : String.ltb (name_ a) (name_ b) = true).
      { destruct (String.ltb (name_ a) (name_ b)) eqn:El;
          [ reflexivity | ].
        exfalso. apply Hne. apply string_ltb_total; assumption. }
      assert (Hlater : Forall (fun y => name_ y <> name_ a) v).
      { rewrite Forall_forall in Hb. apply Forall_forall.
        intros y Hy Hya. specialize (Hb y Hy).
        unfold may_follow, fsxs_less in Hb. rewrite Hya in Hb.
        congruence. }
      destruct Hin as [<- | Hin].
      * left. unfold entries_named. simpl.
        destruct (String.eqb (name_ b) (name_ a)) eqn:E';
          [ apply String.eqb_eq in E'; congruence | ].
        fold (entries_named (name_ a) v).
        rewrite (entries_named_none _ _ Hlater). repeat split.
      * apply (IH b) in Hin; [ | exact Hb | exact Hs ].
        right.
        destruct Hin as [(Hn & Hx & Hm) | (Hn & x & rest & Hr & Hx & Hm)].
        -- split; [ congruence | ].
           exists b, (entries_named (name_ b) v).
           unfold entries_named at 1. simpl.
           rewrite Hn, String.eqb_refl.
           repeat split; assumption.
        -- assert (Hxa : name_ e <> name_ a).
           { apply entries_named_In in Hr. destruct Hr as [Hxv Hxn].
             rewrite Forall_forall in Hlater.
             rewrite <- Hxn. apply Hlater. exact Hxv. }
           split; [ exact Hxa | ].
           exists x, rest. unfold entries_named at 1. simpl.
           destruct (String.eqb (name_ b) (name_ e)) eqn:E';
             [ apply String.eqb_eq in E'; congruence | ].
           repeat split; assumption.
Qed.

(** [deduplicate] sums run by run.  Let [s] be the vector as the sort has
    left it, a rearrangement of the input in ascending order of the names.
    Every entry of the result stands for the entries of its name in [s]: its
    cross section is the cross section of the first of them with those of
    the others added one after the other, from left to right, and its mass
    is the mass of the first. *)
Theorem deduplicate_sums (l : list FinalStateCrossSection) :
  exists r s,
    deduplicate l = Ret r
    /\ Permutation s l
    /\ Sorted (fun a b => String.ltb (name_ b) (name_ a) = false) s
    /\ (forall e, In e r ->
          exists x rest,
            entries_named (name_ e) s = x :: rest
            /\ cross_section_ e = summed_up (cross_section_ x) rest
            /\ mass_ e = mass_ x).
Proof.
  exists (collapse (std_sort fsxs_less l)), (std_sort fsxs_less l).
  assert (Hs : sorted_by_name (std_sort fsxs_less l)).
  { apply (std_sort_sorted fsxs_less). intros a b. apply string_ltb_asym. }
  split; [ apply deduplicate_eq | ].
  split; [ apply std_sort_perm | ].
  split; [ exact Hs | ].
  intros e Hin.
  destruct (std_sort fsxs_less l) as [| a s]; [ contradiction | ].
  apply Sorted_StronglySorted in Hs.
  2:{ intros x y z. unfold may_follow, fsxs_less.
      apply string_may_follow_trans. }
  apply StronglySorted_inv in Hs. destruct Hs as [Hs Ha].
  simpl in Hin. apply collapse_from_runs in Hin; [ | exact Ha | exact Hs ].
  unfold entries_named at 1. simpl.
  destruct Hin as [(Hn & Hx & Hm) | (Hn & x & rest & Hr & Hx & Hm)].
  - rewrite Hn, String.eqb_refl.
    exists a, (entries_named (name_ a) s). rewrite <- Hn at 1.
    repeat split; [ rewrite Hn | | ]; try assumption. reflexivity.
  - destruct (String.eqb (name_ a) (name_ e)) eqn:E';
      [ apply String.eqb_eq in E'; congruence | ].
    exists x, rest. repeat split; assumption.
Qed.

End DeduplicateSums.

(** ** add_decays: the children it adds *)

Section AddDecaysChildren.

Import decaytree.

Variable db : Registry.

Lemma make_decay_name_products (res_name : string) (decay : DecayBranch)
    (final_state : list ParticleTypePtr) :
  snd (make_decay_name db res_name decay final_state)
  = final_state ++ decay_particle_types decay.
Proof.
  unfold make_decay_name.
  generalize ("[" ++ res_name ++ "->")%string.
  generalize final_state.
  induction (decay_particle_types decay) as [| p l IH]; intros fs nm; simpl.
  - rewrite app_nil_r. reflexivity.
  - specialize (IH (fs ++ [p]) (nm ++ name (db p))%string).
    destruct (fold_left _ l _) as [nm' fs'] eqn:E. simpl in *.
    rewrite IH, <- app_assoc. reflexivity.
Qed.

Section Loops.

Variable rec : Node -> double -> Outcome Node.
Variables norm sqrts_minus_masses : double.

(** The recursive call keeps the action of its node, and its weight unless
    it sets it to zero. *)
Hypothesis rec_keeps :
  forall c s c',
    rec c s = Ret c' ->
    same_action c c' /\ (weight_ c' = weight_ c \/ weight_ c' = 0).

Lemma decay_mode_loop_children (ptype : ParticleTypePtr) (sqrts_decay : double)
    (modes : list DecayBranch) :
  forall (node : Node) (can_decay : bool) (node' : Node)
         (can_decay' : bool),
    decay_mode_loop db rec norm ptype sqrts_decay modes node can_decay
    = Ret (node', can_decay') ->
    same_action node node'
    /\ weight_ node' = weight_ node
    /\ exists added,
         children_ node' = children_ node ++ added
         /\ Forall (fun c => exists decay,
                        In decay modes
                        /\ sum_masses db (decay_particle_types decay) 0
                           <= sqrts_decay
                        /\ initial_particles_ c = [ptype]
                        /\ final_particles_ c = decay_particle_types decay
                        /\ (weight_ c = norm * decay_weight decay
                            \/ weight_ c = 0))
              added.
Proof.
  induction modes as [| decay modes IH];
    intros node can_decay node' can_decay' E; simpl in E.
  - injection E as <- <-.
    split; [ apply same_action_refl | ].
    split; [ reflexivity | ].
    exists []. rewrite app_nil_r. split; [ reflexivity | constructor ].
  - assert (Hlater :
              forall n1 cd1 added1,
                decay_mode_loop db rec norm ptype sqrts_decay modes n1 cd1
                = Ret (node', can_decay') ->
                same_action node n1 -> weight_ n1 = weight_ node ->
                children_ n1 = children_ node ++ added1 ->
                Forall (fun c => exists d,
                            In d (decay :: modes)
                            /\ sum_masses db (decay_particle_types d) 0
                               <= sqrts_decay
                            /\ initial_particles_ c = [ptype]
                            /\ final_particles_ c = decay_particle_types d
                            /\ (weight_ c = norm * decay_weight d
                                \/ weight_ c = 0)) added1 ->
                same_action node node'
                /\ weight_ node' = weight_ node
                /\ exists added,
                     children_ node' = children_ node ++ added
                     /\ Forall (fun c => exists d,
                                    In d (decay :: modes)
                                    /\ sum_masses db
                                         (decay_particle_types d) 0
                                       <= sqrts_decay
                                    /\ initial_particles_ c = [ptype]
                                    /\ final_particles_ c
                                       = decay_particle_types d
                                    /\ (weight_ c = norm * decay_weight d
                                        \/ weight_ c = 0)) added).
    { intros n1 cd1 added1 E1 Hs1 Hw1 Hc1 Ha1.
      apply IH in E1. destruct E1 as (Hs & Hw & added & Hc & Ha).
      split; [ eapply same_action_trans; eassumption | ].
      split; [ congruence | ].
      exists (added1 ++ added). split.
      - rewrite Hc, Hc1, app_assoc. reflexivity.
      - apply Forall_app. split; [ exact Ha1 | ].
        eapply Forall_impl; [ | exact Ha ].
        intros c (d & Hd & Hrest). exists d.
        split; [ right; exact Hd | exact Hrest ]. }
    destruct (dgt _ sqrts_decay) eqn:Eheavy.
    { apply (Hlater node can_decay []); auto.
      - apply same_action_refl.
      - rewrite app_nil_r. reflexivity. }
    apply dgt_false_iff in Eheavy.
    pose proof (make_decay_name_products (name (db ptype)) decay []) as Hparts.
    destruct (make_decay_name db _ decay []) as [nm parts].
    simpl in Hparts. subst parts.
    destruct (add_action db node nm _ [ptype] _)
      as [node1 | | | |] eqn:Ea; try discriminate.
    simpl in E. apply add_action_inv in Ea.
    destruct Ea as (rest & Hrest & ->).
    rewrite back_emplace_back in E. simpl in E.
    match type of E with
    | context [rec ?c ?s] =>
        destruct (rec c s) as [c' | | | |] eqn:Er; try discriminate
    end.
    simpl in E. rewrite set_back_emplace_back in E.
    apply rec_keeps in Er. destruct Er as [Hsame Hweight].
    apply (Hlater _ true [c'] E).
    + unfold same_action. repeat split.
    + reflexivity.
    + reflexivity.
    + constructor; [ | constructor ].
      exists decay. destruct Hsame as (_ & Hi & Hf & _).
      simpl in Hi, Hf, Hweight.
      split; [ left; reflexivity | ].
      split; [ exact Eheavy | ].
      split; [ exact Hi | split; [ exact Hf | exact Hweight ] ].
Qed.

Lemma particle_loop_children (ptypes : list ParticleTypePtr) :
  forall (node node' : Node),
    particle_loop db rec norm sqrts_minus_masses ptypes node = Ret node' ->
    same_action node node'
    /\ (weight_ node' = weight_ node \/ weight_ node' = 0)
    /\ exists added,
         children_ node' = children_ node ++ added
         /\ Forall (fun c => exists p decay,
                        In p ptypes
                        /\ is_stable (db p) = false
                        /\ In decay (decay_mode_list (db p))
                        /\ sum_masses db (decay_particle_types decay) 0
                           <= sqrts_minus_masses + mass (db p)
                        /\ initial_particles_ c = [p]
                        /\ final_particles_ c = decay_particle_types decay
                        /\ (weight_ c = norm * decay_weight decay
                            \/ weight_ c = 0))
              added.
Proof.
  induction ptypes as [| ptype ptypes IH]; intros node node' E; simpl in E.
  - injection E as <-.
    split; [ apply same_action_refl | ].
    split; [ left; reflexivity | ].
    exists []. rewrite app_nil_r. split; [ reflexivity | constructor ].
  - destruct (is_stable (db ptype)) eqn:Estable; simpl in E.
    + apply IH in E. destruct E as (Hs & Hw & added & Hc & Ha).
      split; [ exact Hs | split; [ exact Hw | ] ].
      exists added. split; [ exact Hc | ].
      eapply Forall_impl; [ | exact Ha ].
      intros c (p & d & Hp & Hrest). exists p, d.
      split; [ right; exact Hp | exact Hrest ].
    + destruct (decay_mode_loop db rec norm ptype _ _ node false)
        as [[n1 cd] | | | |] eqn:Ed; try discriminate.
      simpl in E. apply decay_mode_loop_children in Ed.
      destruct Ed as (Hs1 & Hw1 & added1 & Hc1 & Ha1).
      assert (Ha1' :
                Forall (fun c => exists p decay,
                            In p (ptype :: ptypes)
                            /\ is_stable (db p) = false
                            /\ In decay (decay_mode_list (db p))
                            /\ sum_masses db (decay_particle_types decay) 0
                               <= sqrts_minus_masses + mass (db p)
                            /\ initial_particles_ c = [p]
                            /\ final_particles_ c
                               = decay_particle_types decay
                            /\ (weight_ c = norm * decay_weight decay
                                \/ weight_ c = 0)) added1).
      { eapply Forall_impl; [ | exact Ha1 ].
        intros c (d & Hd & Hrest). exists ptype, d.
        split; [ left; reflexivity | ].
        split; [ exact Estable | split; [ exact Hd | exact Hrest ] ]. }
      destruct (negb cd).
      * injection E as <-.
        split; [ | split ].
        -- eapply same_action_trans; [ exact Hs1 | ].
           unfold same_action. repeat split.
        -- right. reflexivity.
        -- exists added1. split; [ exact Hc1 | exact Ha1' ].
      * apply IH in E. destruct E as (Hs & Hw & added & Hc & Ha).
        split; [ eapply same_action_trans; eassumption | ].
        split; [ rewrite <- Hw1; exact Hw | ].
        exists (added1 ++ added). split.
        -- rewrite Hc, Hc1, app_assoc. reflexivity.
        -- apply Forall_app. split; [ exact Ha1' | ].
           eapply Forall_impl; [ | exact Ha ].
           intros c (p & d & Hp & Hrest). exists p, d.
           split; [ right; exact Hp | exact Hrest ].
Qed.

End Loops.

Lemma add_decays_keeps (fuel : nat) :
  forall (node : Node) (sqrts : double) (node' : Node),
    add_decays db fuel node sqrts = Ret node' ->
    same_action node node'
    /\ (weight_ node' = weight_ node \/ weight_ node' = 0).
Proof.
  induction fuel as [| fuel IH]; intros node sqrts node' E; simpl in E.
  - discriminate.
  - apply particle_loop_children in E; [ | exact IH ].
    destruct E as (Hs & Hw & _). split; assumption.
Qed.

Lemma n_unstable_of_count (state : list ParticleTypePtr) :
  n_unstable_of db state
  = List.length (filter (fun q => negb (is_stable (db q))) state).
Proof.
  unfold n_unstable_of.
  assert (H : forall n,
             fold_left (fun n p => if is_stable (db p) then n else S n)
               state n
             = (n + List.length
                      (filter (fun q => negb (is_stable (db q))) state))%nat).
  { induction state as [| p state IH]; intros n; simpl.
    - lia.
    - rewrite IH. destruct (is_stable (db p)); simpl; lia. }
  apply H.
Qed.

(** With an unstable particle type in the state, [norm] is 1 over the number
    of unstable particle types. *)
Lemma norm_of_unstable (state : list ParticleTypePtr) (p : ParticleTypePtr) :
  In p state -> is_stable (db p) = false ->
  norm_of (n_unstable_of db state)
  = 1 / inject_Z
          (Z.of_nat
             (List.length (filter (fun q => negb (is_stable (db q))) state))).
Proof.
  intros Hin Hp. rewrite n_unstable_of_count.
  assert (Hf : In p (filter (fun q => negb (is_stable (db q))) state))
    by (apply filter_In; split; [ exact Hin | rewrite Hp; reflexivity ]).
  destruct (filter _ state) as [| x l]; [ contradiction | ].
  reflexivity.
Qed.

(** [add_decays] appends children to its node and changes nothing else but
    the weight, which it may set to zero.  Every child it appends is the
    decay of an unstable particle type of the state through one of its decay
    modes whose products have pole masses that sum, as the code adds them,
    to at most [sqrts_decay] as the code computes it; its weight is the
    branching ratio times 1 over the number of unstable particle types of
    the state, or zero. *)
Theorem add_decays_children (fuel : nat) (node res : Node) (sqrts : double) :
  add_decays db fuel node sqrts = Ret res ->
  same_action node res
  /\ (weight_ res = weight_ node \/ weight_ res = 0)
  /\ exists added,
       children_ res = children_ node ++ added
       /\ Forall (decay_child db node sqrts) added.
Proof.
  destruct fuel as [| fuel]; [ discriminate | ]. simpl. intros E.
  apply particle_loop_children in E; [ | apply add_decays_keeps ].
  destruct E as (Hs & Hw & added & Hc & Ha).
  split; [ exact Hs | split; [ exact Hw | ] ].
  exists added. split; [ exact Hc | ].
  eapply Forall_impl; [ | exact Ha ].
  intros c (p & d & Hp & Hu & Hd & Hm & Hi & Hf & Hweight).
  exists p, d.
  rewrite <- (norm_of_unstable (state_ node) p Hp Hu).
  repeat split; assumption.
Qed.

End AddDecaysChildren.

(** ** add_decays returns *)

Section AddDecaysTerminates.

Import decaytree.

Variable db : Registry.
Variable rank : ParticleTypePtr -> nat.
Hypothesis no_cycles : ranked db rank.

Lemma list_sum_perm (l l' : list nat) :
  Permutation l l' -> list_sum l = list_sum l'.
Proof.
  induction 1; simpl; lia.
Qed.

Lemma list_sum_In (A : Type) (h : A -> nat) (x : A) (l : list A) :
  In x l -> (h x <= list_sum (map h l))%nat.
Proof.
  induction l as [| y l IH]; simpl; intros Hin.
  - contradiction.
  - destruct Hin as [-> | Hin]; [ lia | ].
    specialize (IH Hin). lia.
Qed.

Lemma list_sum_le (A : Type) (h h' : A -> nat) (l : list A) :
  (forall x, In x l -> (h x <= h' x)%nat) ->
  (list_sum (map h l) <= list_sum (map h' l))%nat.
Proof.
  induction l as [| y l IH]; simpl; intros H.
  - lia.
  - pose proof (H y (or_introl eq_refl)).
    assert (list_sum (map h l) <= list_sum (map h' l))%nat
      by (apply IH; intros x Hx; apply H; right; exact Hx).
    lia.
Qed.

Lemma decay_size_step (k : nat) :
  forall p, (decay_size db k p <= decay_size db (S k) p)%nat.
Proof.
  induction k as [| k IH]; intros p.
  - simpl. lia.
  - change (S (list_sum
                 (map (fun decay =>
                         list_sum (map (decay_size db k)
                                     (decay_particle_types decay)))
                    (decay_mode_list (db p))))
            <= S (list_sum
                    (map (fun decay =>
                            list_sum (map (decay_size db (S k))
                                        (decay_particle_types decay)))
                       (decay_mode_list (db p)))))%nat.
    apply le_n_S. apply list_sum_le. intros decay _.
    apply list_sum_le. intros q _. apply IH.
Qed.

Lemma decay_size_mono (j k : nat) (p : ParticleTypePtr) :
  (j <= k)%nat -> (decay_size db j p <= decay_size db k p)%nat.
Proof.
  induction 1 as [| k Hle IH]; [ lia | ].
  pose proof (decay_size_step k p). lia.
Qed.

(** The products of a decay are smaller than the particle that decays. *)
Lemma decay_products_smaller (p : ParticleTypePtr) (decay : DecayBranch) :
  In decay (decay_mode_list (db p)) ->
  (state_size db rank (decay_particle_types decay)
   < decay_size db (rank p) p)%nat.
Proof.
  intros Hd. unfold state_size.
  destruct (rank p) as [| k] eqn:Ek.
  - destruct (decay_particle_types decay) as [| q qs] eqn:Eq.
    + simpl. lia.
    + pose proof (no_cycles p decay q Hd) as Hq.
      rewrite Eq in Hq. specialize (Hq (or_introl eq_refl)). lia.
  - change (decay_size db (S k) p)
      with (S (list_sum
                 (map (fun d =>
                         list_sum (map (decay_size db k)
                                     (decay_particle_types d)))
                    (decay_mode_list (db p))))).
    apply Nat.lt_succ_r.
    apply Nat.le_trans
      with (list_sum (map (decay_size db k) (decay_particle_types decay))).
    + apply list_sum_le. intros q Hq.
      apply decay_size_mono.
      pose proof (no_cycles p decay q Hd Hq). lia.
    + apply (list_sum_In _
               (fun d => list_sum (map (decay_size db k)
                                     (decay_particle_types d)))
               decay (decay_mode_list (db p)) Hd).
Qed.

Lemma state_size_perm (s s' : list ParticleTypePtr) :
  Permutation s s' -> state_size db rank s = state_size db rank s'.
Proof.
  intros Hp. unfold state_size. apply list_sum_perm.
  apply Permutation_map. exact Hp.
Qed.

(** The state of the child of a decay is smaller than the state of its
    parent. *)
Lemma child_state_smaller (state rest : list ParticleTypePtr)
    (p : ParticleTypePtr) (decay : DecayBranch) :
  erase_all [p] state = Ret rest ->
  In decay (decay_mode_list (db p)) ->
  (state_size db rank
     (std_sort (name_less db) (rest ++ decay_particle_types decay))
   < state_size db rank state)%nat.
Proof.
  intros Hrest Hd.
  apply erase_all_perm in Hrest. simpl in Hrest.
  rewrite (state_size_perm _ _ (std_sort_perm (name_less db) _)).
  rewrite (state_size_perm _ _ Hrest).
  pose proof (decay_products_smaller p decay Hd) as Hlt.
  unfold state_size in *. rewrite map_app, list_sum_app. simpl. lia.
Qed.

Section Loops.

Variable fuel : nat.
Variable rec : Node -> double -> Outcome Node.
Variables norm sqrts_minus_masses : double.

Hypothesis rec_returns :
  forall c s,
    (state_size db rank (state_ c) < fuel)%nat -> exists c', rec c s = Ret c'.

Lemma decay_mode_loop_returns (ptype : ParticleTypePtr) (sqrts_decay : double)
    (modes : list DecayBranch) :
  (forall decay, In decay modes -> In decay (decay_mode_list (db ptype))) ->
  forall (node : Node) (can_decay : bool),
    In ptype (state_ node) ->
    (state_size db rank (state_ node) <= fuel)%nat ->
    exists node' can_decay',
      decay_mode_loop db rec norm ptype sqrts_decay modes node can_decay
      = Ret (node', can_decay')
      /\ state_ node' = state_ node.
Proof.
  induction modes as [| decay modes IH]; intros Hmodes node can_decay Hin Hsize;
    simpl.
  - eauto.
  - assert (Hmodes' : forall d, In d modes -> In d (decay_mode_list (db ptype)))
      by (intros d Hd; apply Hmodes; right; exact Hd).
    destruct (dgt _ sqrts_decay); [ apply IH; assumption | ].
    pose proof (make_decay_name_products db (name (db ptype)) decay [])
      as Hparts.
    destruct (make_decay_name db _ decay []) as [nm parts].
    simpl in Hparts. subst parts.
    destruct (erase_find_defined ptype (state_ node) Hin) as [rest Hrest].
    unfold add_action. simpl. rewrite Hrest. simpl.
    fold (emplace_back node
            (mkNode nm (norm * decay_weight decay) [ptype]
               (decay_particle_types decay)
               (std_sort (name_less db)
                  (rest ++ decay_particle_types decay)) [])).
    rewrite back_emplace_back. simpl.
    destruct (rec_returns
                (mkNode nm (norm * decay_weight decay) [ptype]
                   (decay_particle_types decay)
                   (std_sort (name_less db)
                      (rest ++ decay_particle_types decay)) [])
                sqrts_decay)
      as [c' Hc'].
    { simpl. eapply Nat.lt_le_trans; [ | exact Hsize ].
      apply child_state_smaller with (p := ptype).
      - simpl. rewrite Hrest. reflexivity.
      - apply Hmodes. left. reflexivity. }
    rewrite Hc'. simpl. rewrite set_back_emplace_back.
    apply (IH Hmodes' (set_children node (children_ node ++ [c'])) true);
      assumption.
Qed.

Lemma particle_loop_returns (ptypes : list ParticleTypePtr) :
  forall node : Node,
    (forall p, In p ptypes -> In p (state_ node)) ->
    (state_size db rank (state_ node) <= fuel)%nat ->
    exists node',
      particle_loop db rec norm sqrts_minus_masses ptypes node = Ret node'.
Proof.
  induction ptypes as [| ptype ptypes IH]; intros node Hin Hsize; simpl.
  - eauto.
  - assert (Hin' : forall p, In p ptypes -> In p (state_ node))
      by (intros p Hp; apply Hin; right; exact Hp).
    destruct (negb (is_stable (db ptype))); [ | apply IH; assumption ].
    destruct (decay_mode_loop_returns ptype
                (sqrts_minus_masses + mass (db ptype))
                (decay_mode_list (db ptype)) (fun d Hd => Hd) node false)
      as (n1 & cd & -> & Hstate).
    + apply Hin. left. reflexivity.
    + exact Hsize.
    + simpl. destruct (negb cd); [ eauto | ].
      apply IH; rewrite Hstate; assumption.
Qed.

End Loops.

(** In a registry without decay cycles [add_decays] returns for every node
    and every energy: fuel above [state_size] of the state of the node is
    enough, and the call neither runs out of it nor erases a particle type
    that is not in the state. *)
Theorem add_decays_returns (fuel : nat) :
  forall (node : Node) (sqrts : double),
    (state_size db rank (state_ node) < fuel)%nat ->
    exists res, add_decays db fuel node sqrts = Ret res.
Proof.
  induction fuel as [| fuel IH]; intros node sqrts Hsize.
  - lia.
  - simpl. apply (particle_loop_returns fuel).
    + exact IH.
    + auto.
    + lia.
Qed.

End AddDecaysTerminates.

(** ** dump_cross_sections: channels into stable particles *)

Section StableChannels.

Variable db : Registry.
Variable describe : CollisionBranch -> string.
Variables a b : ParticleTypePtr.
Variable sqrts : double.

(** The child of the root a channel into stable particle types makes. *)
Local Abbreviation channel_node process :=
  (decaytree.mkNode (describe process) (branch_weight process) [a; b]
     (branch_particle_types process)
     (std_sort (name_less db) (branch_particle_types process)) []).

Lemma process_loop_stable (fuel : nat) (processes : list CollisionBranch) :
  (forall process q,
      In process (open_channels processes) ->
      In q (branch_particle_types process) -> is_stable (db q) = true) ->
  forall tree : decaytree.Node,
    decaytree.state_ tree = [a; b] ->
    process_loop db (S fuel) describe a b sqrts processes tree
    = Ret (decaytree.set_children tree
             (decaytree.children_ tree
              ++ map (fun process => channel_node process)
                   (open_channels processes))).
Proof.
  induction processes as [| process processes IH]; intros Hstable tree Hstate.
  - simpl. rewrite app_nil_r. destruct tree; reflexivity.
  - simpl in Hstable |- *.
    destruct (dle (branch_weight process) 0) eqn:Ew; simpl in Hstable |- *.
    + apply IH; assumption.
    + unfold decaytree.add_action. rewrite Hstate. simpl.
      rewrite !Nat.eqb_refl. simpl. rewrite Nat.eqb_refl. simpl.
      fold (decaytree.emplace_back tree (channel_node process)).
      rewrite back_emplace_back. simpl.
      rewrite particle_loop_stable.
      * simpl. rewrite set_back_emplace_back.
        rewrite IH.
        -- simpl. rewrite <- app_assoc. reflexivity.
        -- intros pr q Hpr Hq. apply (Hstable pr q); [ right | ]; assumption.
        -- exact Hstate.
      * simpl. apply Forall_forall. intros q Hq.
        apply (Hstable process q); [ left; reflexivity | ].
        eapply Permutation_in; [ apply std_sort_perm | exact Hq ].
Qed.

Lemma leaf_children_entries (processes : list CollisionBranch) :
  forall (result : list FinalStateCrossSection) (nm : string)
         (weight : double),
    fold_left
      (fun result child =>
         final_state_cross_sections_helper db child 1 result nm weight false)
      (map (fun process => channel_node process) processes) result
    = result
      ++ map (fun process =>
                mkFinalStateCrossSection
                  (state_name db
                     (std_sort (name_less db) (branch_particle_types process))
                     "")
                  (weight * branch_weight process)
                  (sum_masses db
                     (std_sort (name_less db) (branch_particle_types process))
                     0)) processes.
Proof.
  induction processes as [| process processes IH]; intros result nm weight;
    simpl.
  - rewrite app_nil_r. reflexivity.
  - rewrite IH, <- app_assoc. reflexivity.
Qed.

(** When every collision channel of positive weight leads to stable particle
    types only, the tree of the momentum point has one leaf below the root
    for each of these channels, and [final_state_cross_sections] reports
    them one by one, in the order of the channels: the names of the
    products in ascending order, the weight of the channel, and the
    masses of the products.  When no channel has a positive weight, the
    root is the only leaf and the report is a single entry for the pair
    itself, with cross section 1. *)
Theorem stable_channels_report (fuel : nat) (cross_section_total : double)
    (processes : list CollisionBranch) :
  (forall process q,
      In process (open_channels processes) ->
      In q (branch_particle_types process) -> is_stable (db q) = true) ->
  exists tree,
    final_state_tree db (S fuel) describe a b sqrts cross_section_total
      processes
    = Ret tree
    /\ decaytree.children_ tree
       = map (fun process => channel_node process) (open_channels processes)
    /\ final_state_cross_sections db tree
       = match open_channels processes with
         | [] =>
             [mkFinalStateCrossSection (state_name db [a; b] "") 1
                (sum_masses db [a; b] 0)]
         | channels => map (channel_entry db) channels
         end.
Proof.
  intros Hstable. unfold final_state_tree.
  rewrite (process_loop_stable fuel processes Hstable); [ | reflexivity ].
  eexists. split; [ reflexivity | ]. simpl.
  split; [ reflexivity | ].
  unfold final_state_cross_sections. simpl.
  destruct (open_channels processes) as [| process channels] eqn:Eopen.
  - reflexivity.
  - simpl. rewrite leaf_children_entries. reflexivity.
Qed.

End StableChannels.

(** ** Test particles under the stochastic criterion *)

Section TestParticles.

Context `{C : Collaborators}.

Variable f : ScatterActionsFinder.

Lemma multi_part_testparticles (plist : ParticleList) (dt cell_vol : double)
    (g : Rng) :
  testparticles_ f <> 1%Z ->
  really_small <= cell_vol ->
  check_collision_multi_part f plist dt cell_vol g
  = (Throw (runtime_error testparticles_message), g).
Proof.
  intros Htp Hvol. apply dlt_false_iff in Hvol. apply Z.eqb_neq in Htp.
  unfold_evaluator. rewrite Hvol, Htp. reflexivity.
Qed.

(** Under the stochastic criterion with a test-particle multiplicity other
    than 1, a cell of proper volume that holds three particles with
    different ids cannot be searched: [find_actions_in_cell] does not
    return, because the triple is handed to the multi-body evaluator, which
    throws (unless a pair has ended the search before). *)
Theorem find_actions_in_cell_testparticles (search_list : ParticleList)
    (dt : double) (cell_vol : double) (beam_momentum : list FourVector)
    (p1 p2 p3 : ParticleData) (g g' : Rng) (actions : ActionList) :
  coll_crit_ f = Stochastic ->
  testparticles_ f <> 1%Z ->
  really_small <= cell_vol ->
  In p1 search_list -> In p2 search_list -> In p3 search_list ->
  (id p1 < id p2)%Z -> (id p2 < id p3)%Z ->
  find_actions_in_cell f search_list dt cell_vol beam_momentum g
  <> (Ret actions, g').
Proof.
  intros Hcrit Htp Hvol H1 H2 H3 H12 H23 E.
  unfold find_actions_in_cell in E.
  destruct (for_each_all_returned _ _ _ _ _ _ E p1 H1)
    as (s1 & g1 & s2 & g2 & E1).
  destruct (for_each_all_returned _ _ _ _ _ _ E1 p2 H2)
    as (s3 & g3 & s4 & g4 & E2).
  cbv beta in E2. apply bind_Ret_inv in E2.
  destruct E2 as (s5 & g5 & _ & E3).
  rewrite Hcrit in E3. simpl in E3.
  destruct (for_each_all_returned _ _ _ _ _ _ E3 p3 H3)
    as (s6 & g6 & s7 & g7 & E4).
  cbv beta in E4.
  apply Z.ltb_lt in H12, H23. rewrite H12, H23 in E4. simpl in E4.
  apply bind_Ret_inv in E4. destruct E4 as (act & g8 & Ea & _).
  rewrite multi_part_testparticles in Ea by assumption.
  discriminate.
Qed.

End TestParticles.

(** ** dump_cross_sections: what is left of plab *)

Section PlabAfter.

Variable pCM_from_plab : double -> double -> double -> double.
Variables m_a m_b : double.

Lemma dlt_asym (x y : double) : dlt x y = true -> dlt y x = false.
Proof.
  intros H. apply dlt_true_iff in H. apply dlt_false_iff.
  apply Qlt_le_weak. exact H.
Qed.

Lemma unique_from_head (x : double) (l : list double) :
  exists t, unique_from deq x l = x :: t.
Proof.
  revert x. induction l as [| y l IH]; intros x; simpl.
  - eauto.
  - destruct (deq x y); [ apply IH | eauto ].
Qed.

(** Of an ascending range [std::unique] leaves a strictly ascending one. *)
Lemma unique_from_strict (l : list double) :
  forall x, Sorted (may_follow dlt) (x :: l) ->
            Sorted Qlt (unique_from deq x l).
Proof.
  induction l as [| y l IH]; intros x Hs; simpl.
  - repeat constructor.
  - apply Sorted_inv in Hs. destruct Hs as [Hs Hd].
    apply HdRel_inv in Hd. unfold may_follow in Hd.
    apply dlt_false_iff in Hd.
    destruct (deq x y) eqn:E.
    + apply IH. apply Sorted_inv in Hs. destruct Hs as [Hs Hd'].
      constructor; [ exact Hs | ].
      destruct Hd' as [| z l Hyz]; constructor.
      unfold may_follow in *. apply dlt_false_iff in Hyz.
      apply dlt_false_iff. eapply Qle_trans; eassumption.
    + constructor; [ apply IH; exact Hs | ].
      destruct (unique_from_head y l) as [t ->]. constructor.
      apply Qle_lteq in Hd. destruct Hd as [Hlt | Heq]; [ exact Hlt | ].
      unfold deq in E. apply Qeq_bool_neq in E. contradiction.
Qed.

Lemma unique_from_values (l : list double) :
  forall x v,
    holds_value (unique_from deq x l) v <-> holds_value (x :: l) v.
Proof.
  unfold holds_value.
  induction l as [| y l IH]; intros x v; simpl.
  - reflexivity.
  - destruct (deq x y) eqn:E.
    + rewrite IH. unfold deq in E. apply Qeq_bool_iff in E. simpl.
      split; intros (z & Hz & Hv).
      * exists z. tauto.
      * destruct Hz as [<- | [<- | Hz]].
        -- exists x. tauto.
        -- exists x. split; [ tauto | ]. rewrite E. exact Hv.
        -- exists z. tauto.
    + simpl. split; intros (z & Hz & Hv).
      * destruct Hz as [<- | Hz]; [ exists x; tauto | ].
        destruct (proj1 (IH y v)) as (z' & Hz' & Hv');
          [ exists z; tauto | ].
        exists z'. simpl in Hz'. tauto.
      * destruct Hz as [<- | Hz]; [ exists x; tauto | ].
        destruct (proj2 (IH y v)) as (z' & Hz' & Hv');
          [ exists z; simpl; tauto | ].
        exists z'. tauto.
Qed.

Lemma holds_value_perm (l l' : list double) (v : double) :
  Permutation l l' -> holds_value l v -> holds_value l' v.
Proof.
  intros Hp (y & Hy & Hv). exists y. split; [ | exact Hv ].
  eapply Permutation_in; eassumption.
Qed.

(** A call with a non-empty [plab] leaves the caller's vector strictly
    ascending, with the values it had and no others.  The points scanned are
    those of the vector that is left, and the scan comes to its end exactly
    when no value was erased; otherwise it throws [std::out_of_range] at the
    index that is the length of what is left. *)
Theorem dump_cross_sections_plab (plab : list double) :
  plab <> [] ->
  let r := dump_cross_sections pCM_from_plab m_a m_b plab in
  StronglySorted Qlt (plab_after r)
  /\ (forall v, holds_value (plab_after r) v <-> holds_value plab v)
  /\ momenta_scanned r
     = map (fun p => pCM_from_plab p m_a m_b) (plab_after r)
  /\ (List.length (plab_after r) = List.length plab ->
      scan_outcome r = Ret tt)
  /\ (List.length (plab_after r) <> List.length plab ->
      scan_outcome r = Throw (out_of_range (List.length (plab_after r)))).
Proof.
  intros Hne. cbv zeta.
  rewrite (dump_cross_sections_scan pCM_from_plab m_a m_b plab Hne).
  simpl.
  pose proof (std_sort_perm dlt plab) as Hperm.
  pose proof (std_sort_sorted dlt dlt_asym plab) as Hsorted.
  split; [ | split; [ | split; [ reflexivity | split ] ] ].
  - apply Sorted_StronglySorted; [ intros x y z; apply Qlt_trans | ].
    destruct (std_sort dlt plab) as [| x l]; [ constructor | ].
    apply unique_from_strict. exact Hsorted.
  - intros v.
    destruct (std_sort dlt plab) as [| x l] eqn:Es.
    + apply Permutation_nil in Hperm. contradiction.
    + simpl. rewrite unique_from_values.
      split; apply holds_value_perm;
        [ exact Hperm | apply Permutation_sym; exact Hperm ].
  - intros E. apply Nat.eqb_eq in E. rewrite E. reflexivity.
  - intros E. apply Nat.eqb_neq in E. rewrite E. reflexivity.
Qed.

End PlabAfter.

(** ** dump_cross_sections: the columns of the table *)

Section Columns.

Variable outgoing_total_mass : string -> double.

Local Abbreviation lighter :=
  (fun str_a str_b : string =>
     outgoing_total_mass str_a <= outgoing_total_mass str_b).

Lemma mass_less_asym (str_a str_b : string) :
  mass_less outgoing_total_mass str_a str_b = true ->
  mass_less outgoing_total_mass str_b str_a = false.
Proof.
  unfold mass_less. intros H. apply dlt_true_iff in H.
  apply dlt_false_iff. apply Qlt_le_weak. exact H.
Qed.

Lemma all_channels_ascending (xs_dump : list (string * xs_saver)) :
  StronglySorted lighter (all_channels outgoing_total_mass xs_dump).
Proof.
  apply Sorted_StronglySorted.
  - intros x y z Hxy Hyz. eapply Qle_trans; eassumption.
  - unfold all_channels.
    pose proof (std_sort_sorted (mass_less outgoing_total_mass)
                  mass_less_asym (map fst (erase_zero_columns xs_dump)))
      as Hs.
    induction Hs as [| x l Hs IH Hd]; constructor.
    + exact IH.
    + destruct Hd as [| y l Hxy]; constructor.
      unfold may_follow, mass_less in Hxy.
      apply dlt_false_iff in Hxy. exact Hxy.
Qed.

Lemma all_channels_kept (xs_dump : list (string * xs_saver))
    (channel : string) :
  In channel (all_channels outgoing_total_mass xs_dump)
  <-> exists xs, In (channel, xs) xs_dump /\ ~ column_sum xs == 0.
Proof.
  unfold all_channels, erase_zero_columns.
  split.
  - intros H.
    apply (Permutation_in _ (std_sort_perm _ _)) in H.
    apply in_map_iff in H. destruct H as ([ch xs] & <- & H).
    apply filter_In in H. destruct H as [Hin Hsum].
    exists xs. split; [ exact Hin | ].
    simpl in Hsum. apply negb_true_iff in Hsum.
    intros Hz. apply Qeq_bool_iff in Hz. unfold deq in Hsum. congruence.
  - intros (xs & Hin & Hsum).
    apply (Permutation_in _ (Permutation_sym (std_sort_perm _ _))).
    apply in_map_iff. exists (channel, xs). split; [ reflexivity | ].
    apply filter_In. split; [ exact Hin | ].
    simpl. apply negb_true_iff. unfold deq.
    destruct (Qeq_bool (column_sum xs) 0) eqn:E; [ | reflexivity ].
    apply Qeq_bool_iff in E. contradiction.
Qed.

(** The columns of the table are the channels whose cross sections do not
    sum to zero over the scan, in ascending order of their masses.  The
    column of the total cross section is the first one when its mass lies
    below the masses of all other channels (the code gives it the mass -1,
    every other channel a sum of pole masses), provided the total cross
    sections do not sum to zero themselves; if they do, the table has no
    such column. *)
Theorem total_column_first (xs_dump : list (string * xs_saver))
    (total : xs_saver) :
  In ("total"%string, total) xs_dump ->
  (forall xs, In ("total"%string, xs) xs_dump -> xs = total) ->
  (forall channel xs,
      In (channel, xs) xs_dump -> channel <> "total"%string ->
      outgoing_total_mass "total" < outgoing_total_mass channel) ->
  StronglySorted lighter (all_channels outgoing_total_mass xs_dump)
  /\ (forall channel,
        In channel (all_channels outgoing_total_mass xs_dump)
        <-> exists xs, In (channel, xs) xs_dump /\ ~ column_sum xs == 0)
  /\ (~ column_sum total == 0 ->
      exists rest,
        all_channels outgoing_total_mass xs_dump = "total"%string :: rest)
  /\ (column_sum total == 0 ->
      ~ In "total"%string (all_channels outgoing_total_mass xs_dump)).
Proof.
  intros Hin Hone Hmass.
  split; [ apply all_channels_ascending | ].
  split; [ apply all_channels_kept | ].
  split.
  - intros Hsum.
    assert (Ht : In "total"%string
                   (all_channels outgoing_total_mass xs_dump)).
    { apply all_channels_kept. exists total. split; assumption. }
    pose proof (all_channels_ascending xs_dump) as Hs.
    pose proof (all_channels_kept xs_dump) as Hk.
    destruct (all_channels outgoing_total_mass xs_dump) as [| h rest];
      [ contradiction | ].
    destruct (string_dec h "total") as [-> | Hne]; [ eauto | ].
    exfalso.
    destruct Ht as [Ht | Ht]; [ congruence | ].
    apply StronglySorted_inv in Hs. destruct Hs as [_ Hall].
    rewrite Forall_forall in Hall. specialize (Hall _ Ht).
    destruct (proj1 (Hk h) (or_introl eq_refl)) as (xs & Hxs & _).
    apply (Qlt_not_le _ _ (Hmass h xs Hxs Hne)). exact Hall.
  - intros Hsum Ht. apply all_channels_kept in Ht.
    destruct Ht as (xs & Hxs & Hnz).
    apply Hone in Hxs. subst xs. contradiction.
Qed.

End Columns.

(** ** The enumerators and the decay tree on the concrete scenarios *)

Lemma distance_criteria_ignore_cell_volume_witness :
  @check_collision_two_part close_pair_physics
    (finder Geometric 1 fresh_nuclei) (particle 0 0) (particle 2 0) 1 [] 0 []
  = @check_collision_two_part close_pair_physics
      (finder Geometric 1 fresh_nuclei) (particle 0 0) (particle 2 0) 1 [] 7
      [].
Proof.
  apply (proj1 (@distance_criteria_ignore_cell_volume close_pair_physics
                  (finder Geometric 1 fresh_nuclei) (particle 0 0)
                  (particle 2 0) 1 [] [] ltac:(discriminate))).
Defined.

Lemma find_actions_in_cell_sound_witness :
  exists (actions : ActionList),
    @find_actions_in_cell close_pair_physics
      (finder Geometric 1 fresh_nuclei) one_of_each 1 0 [] []
    = (Ret actions, [])
    /\ List.length actions = 1%nat
    /\ Forall (cell_action (finder Geometric 1 fresh_nuclei) one_of_each 1)
         actions.
Proof.
  eexists. split; [ vm_compute; reflexivity | ].
  split; [ reflexivity | ].
  apply (@find_actions_in_cell_sound close_pair_physics
           (finder Geometric 1 fresh_nuclei) one_of_each 1 0 [] [] []).
  vm_compute. reflexivity.
Defined.

Lemma find_actions_in_cell_spectators_witness :
  @find_actions_in_cell close_pair_physics
    (finder Geometric 1 fresh_nuclei) projectile_pair 1 0 [] []
  = (Ret [], []).
Proof.
  apply (@find_actions_in_cell_spectators close_pair_physics
           (finder Geometric 1 fresh_nuclei) true projectile_pair 1 0 [] []).
  - discriminate.
  - intros p [<- | [<- | []]]; repeat split; reflexivity.
Defined.

Lemma find_actions_in_cell_without_cell_witness :
  @find_actions_in_cell close_pair_physics
    (finder Stochastic 1 fresh_nuclei) triple 1 0 [] [1 # 20]
  = (Ret [], [1 # 20]).
Proof.
  apply (@find_actions_in_cell_without_cell close_pair_physics
           (finder Stochastic 1 fresh_nuclei) triple 1 0 [] [1 # 20]).
  - reflexivity.
  - reflexivity.
  - intros p [<- | [<- | [<- | []]]]; discriminate.
  - discriminate.
Defined.

Lemma find_actions_with_neighbors_sound_witness :
  exists (actions : ActionList),
    @find_actions_with_neighbors close_pair_physics 0
      (finder Geometric 1 fresh_nuclei) [particle 0 0] [particle 2 0] 1 [] []
    = (Ret actions, [])
    /\ List.length actions = 1%nat
    /\ Forall (fun a => exists p1 p2,
                   In p1 [particle 0 0] /\ In p2 [particle 2 0]
                   /\ pair_action_of p1 p2 1 a) actions.
Proof.
  eexists. split; [ vm_compute; reflexivity | ].
  split; [ reflexivity | ].
  apply (@find_actions_with_neighbors_sound close_pair_physics
           (finder Geometric 1 fresh_nuclei) 0 [particle 0 0] [particle 2 0]
           1 [] [] []).
  vm_compute. reflexivity.
Defined.

Lemma find_actions_with_surrounding_particles_sound_witness :
  exists (actions : ActionList),
    @find_actions_with_surrounding_particles close_pair_physics 0
      (finder Geometric 1 fresh_nuclei) [particle 0 0]
      [particle 0 0; particle 2 0] 1 [] []
    = (Ret actions, [])
    /\ List.length actions = 1%nat
    /\ Forall (fun a => exists p1 p2,
                   In p1 [particle 0 0]
                   /\ In p2 [particle 0 0; particle 2 0]
                   /\ (forall p, In p [particle 0 0] -> id p <> id p2)
                   /\ pair_action_of p1 p2 1 a) actions.
Proof.
  eexists. split; [ vm_compute; reflexivity | ].
  split; [ reflexivity | ].
  apply (@find_actions_with_surrounding_particles_sound close_pair_physics
           (finder Geometric 1 fresh_nuclei) 0 [particle 0 0]
           [particle 0 0; particle 2 0] 1 [] [] []).
  vm_compute. reflexivity.
Defined.

Lemma find_actions_with_surrounding_particles_skips_witness :
  @find_actions_with_surrounding_particles close_pair_physics 0
    (finder Geometric 1 fresh_nuclei) one_of_each [particle 2 5] 1 [] []
  = (Ret [], []).
Proof.
  apply (@find_actions_with_surrounding_particles_skips close_pair_physics
           (finder Geometric 1 fresh_nuclei) 0 one_of_each [particle 2 5]
           1 [] []).
  intros p2 [<- | []]. exists (particle 2 0).
  split; [ right; left; reflexivity | reflexivity ].
Defined.

Lemma find_actions_in_cell_testparticles_witness :
  @find_actions_in_cell close_pair_physics
    (finder Stochastic 2 fresh_nuclei) triple 1 1 [] []
  <> (Ret [], []).
Proof.
  apply (@find_actions_in_cell_testparticles close_pair_physics
           (finder Stochastic 2 fresh_nuclei) triple 1 1 []
           (particle 0 0) (particle 2 0) (particle 5 0) [] [] []).
  - reflexivity.
  - discriminate.
  - discriminate.
  - left. reflexivity.
  - right. left. reflexivity.
  - right. right. left. reflexivity.
  - reflexivity.
  - reflexivity.
Defined.

Lemma zero_weight_zeroes_branch_witness :
  exists added,
    final_state_cross_sections_helper small_registry dead_end 2 [] "" 5 false
    = [] ++ added
    /\ List.length added = leaves dead_end
    /\ Forall (fun e => cross_section_ e == 0) added.
Proof.
  apply (zero_weight_zeroes_branch small_registry dead_end 2 [] "" 5 false).
  - lia.
  - reflexivity.
Defined.

Lemma blocked_branch_cross_sections_vanish_witness :
  exists added,
    final_state_cross_sections_helper small_registry
      (decaytree.set_weight pion_rho 0) 1 [] "" 40 false
    = [] ++ added
    /\ Forall (fun e => cross_section_ e == 0) added.
Proof.
  apply (blocked_branch_cross_sections_vanish small_registry pion_rho
           (decaytree.set_weight pion_rho 0) (4 # 10) [0%nat] 1%nat [] 1).
  - reflexivity.
  - reflexivity.
  - intros decay [<- | []]. reflexivity.
  - reflexivity.
  - lia.
Defined.

Lemma leaf_names_canonical_witness :
  exists e1 e2,
    final_state_cross_sections_helper small_registry pion_rho 1 [] "" 40 false
    = [] ++ [e1]
    /\ final_state_cross_sections_helper small_registry
         (decaytree.set_weight pion_rho 0) 2 [] "" 1 false
       = [] ++ [e2]
    /\ name_ e1 = name_ e2
    /\ mass_ e1 == mass_ e2.
Proof.
  apply (leaf_names_canonical small_registry pion_rho
           (decaytree.set_weight pion_rho 0) 1 2 [] [] "" "" 40 1).
  - reflexivity.
  - reflexivity.
  - apply Permutation_refl.
  - repeat constructor.
  - repeat constructor.
Defined.

Lemma add_decays_children_witness :
  exists added,
    decaytree.children_
      (decaytree.mkNode "NN->pi rho" 5 [3; 3]%nat [1; 0]%nat [0; 1]%nat
         [decaytree.mkNode "[rho->pipi]" 1 [1]%nat [0; 0]%nat
            [0; 0; 0]%nat []])
    = decaytree.children_ pion_rho ++ added
    /\ Forall (decay_child small_registry pion_rho 2) added.
Proof.
  apply (add_decays_children small_registry 3 pion_rho
           (decaytree.mkNode "NN->pi rho" 5 [3; 3]%nat [1; 0]%nat
              [0; 1]%nat
              [decaytree.mkNode "[rho->pipi]" 1 [1]%nat [0; 0]%nat
                 [0; 0; 0]%nat []]) 2).
  vm_compute. reflexivity.
Defined.

Lemma small_registry_ranked : ranked small_registry small_rank.
Proof.
  intros p decay q Hd Hq.
  destruct p as [| [| [| p]]]; simpl in Hd.
  - contradiction.
  - destruct Hd as [<- | []]. simpl in Hq.
    destruct Hq as [<- | [<- | []]]; simpl; lia.
  - destruct Hd as [<- | []]. simpl in Hq.
    destruct Hq as [<- | [<- | []]]; simpl; lia.
  - contradiction.
Defined.

Lemma add_decays_returns_witness :
  exists res,
    decaytree.add_decays small_registry 8
      (decaytree.mkNode "NN->X" 5 [3; 3]%nat [2]%nat [2]%nat []) 10
    = Ret res.
Proof.
  apply (add_decays_returns small_registry small_rank small_registry_ranked
           8 (decaytree.mkNode "NN->X" 5 [3; 3]%nat [2]%nat [2]%nat []) 10).
  vm_compute. lia.
Defined.

Lemma stable_channels_report_witness :
  exists tree,
    final_state_tree small_registry 1 (fun _ => "NN->NN"%string) 3%nat 3%nat
      (25 # 10) 40 nucleon_channels
    = Ret tree
    /\ final_state_cross_sections small_registry tree
       = [mkFinalStateCrossSection "NN" (1 * 25) (0 + (938 # 1000)
                                                   + (938 # 1000))].
Proof.
  destruct (stable_channels_report small_registry (fun _ => "NN->NN"%string)
              3%nat 3%nat (25 # 10) 0 40 nucleon_channels)
    as (tree & Htree & _ & Hreport).
  - intros process q Hp Hq. vm_compute in Hp.
    destruct Hp as [<- | []]. simpl in Hq.
    destruct Hq as [<- | [<- | []]]; reflexivity.
  - exists tree. split; [ exact Htree | ].
    rewrite Hreport. reflexivity.
Defined.

Lemma dump_cross_sections_plab_witness :
  let r :=
    dump_cross_sections (fun p _ _ => p) 0 0 [1 # 2; 1 # 3; 2 # 4] in
  StronglySorted Qlt (plab_after r)
  /\ List.length (plab_after r) = 2%nat
  /\ scan_outcome r = Throw (out_of_range 2).
Proof.
  destruct (dump_cross_sections_plab (fun p _ _ => p) 0 0
              [1 # 2; 1 # 3; 2 # 4] ltac:(discriminate))
    as (Hsorted & _ & _ & _ & Hthrow).
  cbv zeta. split; [ exact Hsorted | ].
  split; [ reflexivity | ].
  apply Hthrow. discriminate.
Defined.

Lemma total_column_first_witness :
  all_channels sample_masses sample_columns = ["total"; "NN"]%string.
Proof.
  destruct (total_column_first sample_masses sample_columns [(2, 25)])
    as (_ & _ & (rest & Hfirst) & _).
  - right. right. left. reflexivity.
  - intros xs [E | [E | [E | []]]]; inversion E; reflexivity.
  - intros channel xs [E | [E | [E | []]]] Hne; inversion E; subst;
      [ reflexivity | reflexivity | contradiction ].
  - vm_compute. discriminate.
  - reflexivity.
Defined.
